(** * Escrow-web3: the escrow contract and its event indexer

    A shallow embedding of
      - [contracts/contracts/Escrow.sol] (module [Ledger]): the escrow state
        machine, its fee split and its value transfers;
      - [backend/src/blockchain/event-listener.service.ts] (module
        [Indexer]): the polling loop that mirrors contract events into the
        [escrows] table.

    and, on top of these,
      - the contract as a transition system (module [Lifecycle]): what a
        call that goes through has checked, leaves and pays, the invariants
        of the storage and the custody of the funds;
      - [backend/src/escrow/escrow.service.ts] and the table over time
        (module [Replica]);
      - [notification.service.ts] and [notification.gateway.ts] (module
        [Notifications]);
      - [backend/src/dispute/dispute.service.ts] (module [Disputes]);
      - the status table and the action buttons of [client/app/escrows] and
        the ABI of [client/lib/contracts.ts] (module [Client]).

    Solidity's [uint256] is a [Z] with the compiler's overflow checks written
    out, a [mapping] is a [gmap] read with the type's zero value as default,
    and a contract function is a state-passing computation whose external
    calls are nodes of an execution tree: the callee is given the storage as
    it is at the call and hands back the storage it left behind. *)

From Stdlib Require Import ZArith Lia Bool List Ascii.
From stdpp Require Import gmap strings list fin_maps pretty.
Import ListNotations.

Local Open Scope string_scope.
Local Open Scope Z_scope.

(* ===================================================================== *)
(** * The contract: Escrow.sol                                            *)
(* ===================================================================== *)

Module Ledger.

Definition address := Z.

(** [type(uint256).max] *)
Definition MAX_UINT256 : Z := 2 ^ 256 - 1.

Inductive EscrowStatus :=
| CREATED      (* Escrow created but not funded *)
| FUNDED       (* Funds deposited, awaiting completion *)
| DISPUTED     (* Dispute opened *)
| RELEASED     (* Funds released to provider *)
| REFUNDED     (* Funds refunded to client *)
| CANCELLED.   (* Escrow cancelled before funding *)

(** The enum's [uint8] value, as the ABI and the indexer see it. *)
Definition status_code (st : EscrowStatus) : Z :=
  match st with
  | CREATED => 0 | FUNDED => 1 | DISPUTED => 2
  | RELEASED => 3 | REFUNDED => 4 | CANCELLED => 5
  end.

Definition status_eqb (a b : EscrowStatus) : bool :=
  match a, b with
  | CREATED, CREATED | FUNDED, FUNDED | DISPUTED, DISPUTED
  | RELEASED, RELEASED | REFUNDED, REFUNDED | CANCELLED, CANCELLED => true
  | _, _ => false
  end.

Record EscrowData := mkEscrowData {
  client : address;
  provider : address;
  arbitrator : address;
  token : address;          (* 0 for native ETH *)
  amount : Z;
  fee : Z;                  (* basis points *)
  status : EscrowStatus;
  createdAt : Z;
  deadline : Z;             (* 0 = no deadline *)
  description : string
}.

(** What a [mapping(uint256 => EscrowData)] holds at a key never written. *)
Definition zeroEscrow : EscrowData :=
  mkEscrowData 0 0 0 0 0 0 CREATED 0 0 "".

Definition with_status (e : EscrowData) (st : EscrowStatus) : EscrowData :=
  mkEscrowData (client e) (provider e) (arbitrator e) (token e) (amount e)
               (fee e) st (createdAt e) (deadline e) (description e).

Inductive Event :=
| EscrowCreated (escrowId : Z) (client provider token : address) (amount deadline : Z)
| EscrowFunded (escrowId : Z) (funder : address) (amount : Z)
| EscrowReleased (escrowId : Z) (provider : address) (amount fee : Z)
| EscrowRefunded (escrowId : Z) (client : address) (amount : Z)
| DisputeOpened (escrowId : Z) (opener : address) (timestamp : Z)
| DisputeResolved (escrowId : Z) (arbitrator : address) (inFavorOfClient : bool)
| EscrowCancelled (escrowId : Z) (client : address)
| ArbitratorAdded (arbitrator : address)
| ArbitratorRemoved (arbitrator : address)
| FeeCollectorUpdated (newFeeCollector : address)
| DefaultFeeUpdated (newFee : Z).

(** The state variables of the contract, with those of its two parents:
    [Ownable]'s owner and [ReentrancyGuard]'s flag ([true] while a
    [nonReentrant] function is running). *)
Record Storage := mkStorage {
  _escrowIdCounter : Z;
  escrows : gmap Z EscrowData;
  authorizedArbitrators : gmap Z bool;
  defaultFee : Z;
  feeCollector : address;
  collectedFees : gmap Z Z;
  _owner : address;
  _entered : bool
}.

Definition MAX_FEE : Z := 1000.
Definition FEE_DENOMINATOR : Z := 10000.

(** Mapping reads: the zero value where nothing was written. *)
Definition escrowAt (s : Storage) (escrowId : Z) : EscrowData :=
  default zeroEscrow (escrows s !! escrowId).
Definition isAuthorized (s : Storage) (a : address) : bool :=
  default false (authorizedArbitrators s !! a).
Definition collectedFeesAt (s : Storage) (tok : address) : Z :=
  default 0 (collectedFees s !! tok).

Definition set_counter (s : Storage) (n : Z) : Storage :=
  mkStorage n (escrows s) (authorizedArbitrators s) (defaultFee s)
            (feeCollector s) (collectedFees s) (_owner s) (_entered s).
Definition set_escrows (s : Storage) (m : gmap Z EscrowData) : Storage :=
  mkStorage (_escrowIdCounter s) m (authorizedArbitrators s) (defaultFee s)
            (feeCollector s) (collectedFees s) (_owner s) (_entered s).
Definition set_authorized (s : Storage) (m : gmap Z bool) : Storage :=
  mkStorage (_escrowIdCounter s) (escrows s) m (defaultFee s)
            (feeCollector s) (collectedFees s) (_owner s) (_entered s).
Definition set_defaultFee (s : Storage) (f : Z) : Storage :=
  mkStorage (_escrowIdCounter s) (escrows s) (authorizedArbitrators s) f
            (feeCollector s) (collectedFees s) (_owner s) (_entered s).
Definition set_feeCollector (s : Storage) (a : address) : Storage :=
  mkStorage (_escrowIdCounter s) (escrows s) (authorizedArbitrators s)
            (defaultFee s) a (collectedFees s) (_owner s) (_entered s).
Definition set_collectedFees (s : Storage) (m : gmap Z Z) : Storage :=
  mkStorage (_escrowIdCounter s) (escrows s) (authorizedArbitrators s)
            (defaultFee s) (feeCollector s) m (_owner s) (_entered s).
Definition set_entered (s : Storage) (b : bool) : Storage :=
  mkStorage (_escrowIdCounter s) (escrows s) (authorizedArbitrators s)
            (defaultFee s) (feeCollector s) (collectedFees s) (_owner s) b.

(** [escrows[escrowId].status = st] *)
Definition store_status (s : Storage) (escrowId : Z) (st : EscrowStatus) : Storage :=
  set_escrows s (<[escrowId := with_status (escrowAt s escrowId) st]> (escrows s)).

(** ** Reverts *)

Inductive Error :=
| Error_ (reason : string)                 (* require(cond, reason) *)
| Panic (code : Z)                         (* 0x11: checked arithmetic *)
| ReentrancyGuardReentrantCall             (* ReentrancyGuard *)
| OwnableUnauthorizedAccount (a : address) (* Ownable *)
| TokenCallFailed (tok : address).         (* SafeERC20: the token's own revert,
                                              or SafeERC20FailedOperation *)

(** The two messages the contract uses for a record in the wrong status:
    the [inStatus] modifier's and [refundToClient]'s own. *)
Definition invalid_state (e : Error) : Prop :=
  e = Error_ "Invalid escrow status" \/ e = Error_ "Invalid status for refund".

(** ** External calls and execution trees *)

Inductive ExtCall :=
| SendValue (to : address) (value : Z)                  (* to.call{value: v}("") *)
| TokenTransfer (tok to : address) (value : Z)          (* IERC20(tok).transfer *)
| TokenTransferFrom (tok from to : address) (value : Z). (* IERC20(tok).transferFrom *)

(** A run of contract code. At a [Call] the contract has written [s] and
    gives control away; the continuation receives the storage as the callee
    left it and whether the call succeeded. *)
Inductive Exec (A : Type) : Type :=
| Ret (a : A)
| Revert (e : Error)
| Emit (ev : Event) (k : Exec A)
| Call (s : Storage) (c : ExtCall) (k : Storage -> bool -> Exec A).
Arguments Ret {A} a.
Arguments Revert {A} e.
Arguments Emit {A} ev k.
Arguments Call {A} s c k.

Fixpoint ebind {A B} (e : Exec A) (f : A -> Exec B) : Exec B :=
  match e with
  | Ret a => f a
  | Revert err => Revert err
  | Emit ev k => Emit ev (ebind k f)
  | Call s c k => Call s c (fun s' ok => ebind (k s' ok) f)
  end.

Definition M (A : Type) : Type := Storage -> Exec (A * Storage).

Definition mret {A} (a : A) : M A := fun s => Ret (a, s).
Definition mbind {A B} (m : M A) (f : A -> M B) : M B :=
  fun s => ebind (m s) (fun r => f (fst r) (snd r)).

Notation "'let*' x ':=' m 'in' k" := (mbind m (fun x => k))
  (at level 10, x name, m at level 100, k at level 200).

Definition revert {A} (e : Error) : M A := fun _ => Revert e.
Definition require (cond : bool) (reason : string) : M unit :=
  if cond then mret tt else revert (Error_ reason).
Definition emit (ev : Event) : M unit := fun s => Emit ev (Ret (tt, s)).
Definition read {A} (f : Storage -> A) : M A := fun s => Ret (f s, s).
Definition write (f : Storage -> Storage) : M unit := fun s => Ret (tt, f s).
Definition call (c : ExtCall) : M bool :=
  fun s => Call s c (fun s' ok => Ret (ok, s')).

(** Solidity 0.8 arithmetic on [uint256]: out of range is [Panic(0x11)]. *)
Definition checked (r : Z) : M Z :=
  if (0 <=? r) && (r <=? MAX_UINT256) then mret r else revert (Panic 17).
Definition checked_add (a b : Z) : M Z := checked (a + b).
Definition checked_sub (a b : Z) : M Z := checked (a - b).
Definition checked_mul (a b : Z) : M Z := checked (a * b).

(** [SafeERC20]: the token call must succeed and not return [false]; a
    failure of either kind ends the run. *)
Definition safeTransfer (tok to : address) (value : Z) : M unit :=
  let* ok := call (TokenTransfer tok to value) in
  if ok then mret tt else revert (TokenCallFailed tok).
Definition safeTransferFrom (tok from to : address) (value : Z) : M unit :=
  let* ok := call (TokenTransferFrom tok from to value) in
  if ok then mret tt else revert (TokenCallFailed tok).

(** What a function sees of its call. Only [fundEscrow] is payable: the
    other functions are only ever entered with no value attached. *)
Record Ctx := mkCtx {
  this : address;            (* address(this) *)
  msg_sender : address;
  msg_value : Z;
  block_timestamp : Z
}.

(** ** Modifiers *)

(** [escrows[escrowId].f], read through the storage pointer at the moment
    the expression is evaluated. *)
Definition escrow_field {A} (escrowId : Z) (f : EscrowData -> A) : M A :=
  read (fun s => f (escrowAt s escrowId)).

Definition onlyClient {A} (ctx : Ctx) (escrowId : Z) (body : M A) : M A :=
  let* c := escrow_field escrowId client in
  let* _ := require (c =? msg_sender ctx) "Not the client" in
  body.

Definition onlyProvider {A} (ctx : Ctx) (escrowId : Z) (body : M A) : M A :=
  let* p := escrow_field escrowId provider in
  let* _ := require (p =? msg_sender ctx) "Not the provider" in
  body.

Definition onlyArbitrator {A} (ctx : Ctx) (escrowId : Z) (body : M A) : M A :=
  let* auth := read (fun s => isAuthorized s (msg_sender ctx)) in
  let* a := escrow_field escrowId arbitrator in
  let* _ := require (auth || (a =? msg_sender ctx)) "Not an authorized arbitrator" in
  body.

Definition escrowExists {A} (escrowId : Z) (body : M A) : M A :=
  let* c := escrow_field escrowId client in
  let* _ := require (negb (c =? 0)) "Escrow does not exist" in
  body.

Definition inStatus {A} (escrowId : Z) (st : EscrowStatus) (body : M A) : M A :=
  let* cur := escrow_field escrowId status in
  let* _ := require (status_eqb cur st) "Invalid escrow status" in
  body.

(** [Ownable.onlyOwner] *)
Definition onlyOwner {A} (ctx : Ctx) (body : M A) : M A :=
  let* o := read _owner in
  if o =? msg_sender ctx then body
  else revert (OwnableUnauthorizedAccount (msg_sender ctx)).

(** [ReentrancyGuard.nonReentrant]: refuse when the flag is up, raise it,
    run the body, lower it. *)
Definition nonReentrant {A} (body : M A) : M A :=
  let* entered := read _entered in
  if entered : bool then revert ReentrancyGuardReentrantCall
  else
    let* _ := write (fun s => set_entered s true) in
    let* r := body in
    let* _ := write (fun s => set_entered s false) in
    mret r.

(** ** Main functions *)

Definition createEscrow (ctx : Ctx) (provider_ arbitrator_ token_ : address)
    (amount_ deadline_ : Z) (description_ : string) : M Z :=
  let* _ := require (negb (provider_ =? 0)) "Invalid provider address" in
  let* _ := require (negb (provider_ =? msg_sender ctx))
                    "Client and provider must be different" in
  let* _ := require (0 <? amount_) "Amount must be greater than 0" in
  let* _ := (if 0 <? deadline_
             then require (block_timestamp ctx <? deadline_)
                          "Deadline must be in the future"
             else mret tt) in
  let* escrowId := read _escrowIdCounter in
  let* next := checked_add escrowId 1 in
  let* _ := write (fun s => set_counter s next) in
  let* fee_ := read defaultFee in
  let* _ := write (fun s => set_escrows s
              (<[escrowId := mkEscrowData (msg_sender ctx) provider_ arbitrator_
                               token_ amount_ fee_ CREATED (block_timestamp ctx)
                               deadline_ description_]> (escrows s))) in
  let* _ := emit (EscrowCreated escrowId (msg_sender ctx) provider_ token_
                                amount_ deadline_) in
  mret escrowId.

Definition fundEscrow (ctx : Ctx) (escrowId : Z) : M unit :=
  nonReentrant (escrowExists escrowId (inStatus escrowId CREATED
    (onlyClient ctx escrowId (
      let* tok := escrow_field escrowId token in
      let* _ := (if tok =? 0 then
                   (* Native ETH *)
                   let* amt := escrow_field escrowId amount in
                   require (msg_value ctx =? amt) "Incorrect ETH amount"
                 else
                   (* ERC20 token *)
                   let* _ := require (msg_value ctx =? 0)
                                     "ETH not accepted for token escrow" in
                   let* amt := escrow_field escrowId amount in
                   safeTransferFrom tok (msg_sender ctx) (this ctx) amt) in
      let* _ := write (fun s => store_status s escrowId FUNDED) in
      let* amt := escrow_field escrowId amount in
      emit (EscrowFunded escrowId (msg_sender ctx) amt))))).

Definition releaseToProvider (ctx : Ctx) (escrowId : Z) : M unit :=
  nonReentrant (escrowExists escrowId (inStatus escrowId FUNDED (
    (* Only client or arbitrator can release *)
    let* c := escrow_field escrowId client in
    let* a := escrow_field escrowId arbitrator in
    let* auth := read (fun s => isAuthorized s (msg_sender ctx)) in
    let* _ := require ((msg_sender ctx =? c) || (msg_sender ctx =? a) || auth)
                      "Not authorized to release" in
    let* _ := write (fun s => store_status s escrowId RELEASED) in
    (* Calculate fee *)
    let* amt := escrow_field escrowId amount in
    let* rate := escrow_field escrowId fee in
    let* product := checked_mul amt rate in
    let feeAmount := product / FEE_DENOMINATOR in
    let* providerAmount := checked_sub amt feeAmount in
    (* Transfer funds *)
    let* tok := escrow_field escrowId token in
    let* _ := (if tok =? 0 then
                 let* p := escrow_field escrowId provider in
                 let* successProvider := call (SendValue p providerAmount) in
                 let* _ := require successProvider "Transfer to provider failed" in
                 if 0 <? feeAmount then
                   let* fc := read feeCollector in
                   let* successFee := call (SendValue fc feeAmount) in
                   let* _ := require successFee "Fee transfer failed" in
                   let* old := read (fun s => collectedFeesAt s 0) in
                   let* new := checked_add old feeAmount in
                   write (fun s => set_collectedFees s (<[0 := new]> (collectedFees s)))
                 else mret tt
               else
                 let* p := escrow_field escrowId provider in
                 let* _ := safeTransfer tok p providerAmount in
                 if 0 <? feeAmount then
                   let* tok' := escrow_field escrowId token in
                   let* fc := read feeCollector in
                   let* _ := safeTransfer tok' fc feeAmount in
                   let* tok'' := escrow_field escrowId token in
                   let* old := read (fun s => collectedFeesAt s tok'') in
                   let* new := checked_add old feeAmount in
                   write (fun s => set_collectedFees s (<[tok'' := new]> (collectedFees s)))
                 else mret tt) in
    let* p := escrow_field escrowId provider in
    emit (EscrowReleased escrowId p providerAmount feeAmount)))).

Definition refundToClient (ctx : Ctx) (escrowId : Z) : M unit :=
  nonReentrant (escrowExists escrowId (onlyArbitrator ctx escrowId (
    let* cur := escrow_field escrowId status in
    let* _ := require (status_eqb cur FUNDED || status_eqb cur DISPUTED)
                      "Invalid status for refund" in
    let* _ := write (fun s => store_status s escrowId REFUNDED) in
    (* Refund full amount (no fee on refund) *)
    let* tok := escrow_field escrowId token in
    let* _ := (if tok =? 0 then
                 let* c := escrow_field escrowId client in
                 let* amt := escrow_field escrowId amount in
                 let* success := call (SendValue c amt) in
                 require success "Refund transfer failed"
               else
                 let* tok' := escrow_field escrowId token in
                 let* c := escrow_field escrowId client in
                 let* amt := escrow_field escrowId amount in
                 safeTransfer tok' c amt) in
    let* c := escrow_field escrowId client in
    let* amt := escrow_field escrowId amount in
    emit (EscrowRefunded escrowId c amt)))).

Definition openDispute (ctx : Ctx) (escrowId : Z) : M unit :=
  escrowExists escrowId (inStatus escrowId FUNDED (
    let* c := escrow_field escrowId client in
    let* p := escrow_field escrowId provider in
    let* _ := require ((msg_sender ctx =? c) || (msg_sender ctx =? p))
                      "Only client or provider can open dispute" in
    let* _ := write (fun s => store_status s escrowId DISPUTED) in
    emit (DisputeOpened escrowId (msg_sender ctx) (block_timestamp ctx)))).

(** The two calls at the end are calls of the functions above from inside
    the contract: same [msg.sender], and the callee's modifiers run again. *)
Definition resolveDispute (ctx : Ctx) (escrowId : Z) (inFavorOfClient : bool) : M unit :=
  escrowExists escrowId (inStatus escrowId DISPUTED (onlyArbitrator ctx escrowId (
    let* _ := emit (DisputeResolved escrowId (msg_sender ctx) inFavorOfClient) in
    if inFavorOfClient then
      refundToClient ctx escrowId
    else
      (* Temporarily change status to FUNDED to allow release *)
      let* _ := write (fun s => store_status s escrowId FUNDED) in
      releaseToProvider ctx escrowId))).

Definition cancelEscrow (ctx : Ctx) (escrowId : Z) : M unit :=
  escrowExists escrowId (inStatus escrowId CREATED (onlyClient ctx escrowId (
    let* _ := write (fun s => store_status s escrowId CANCELLED) in
    emit (EscrowCancelled escrowId (msg_sender ctx))))).

(** ** Admin functions *)

Definition addArbitrator (ctx : Ctx) (arbitrator_ : address) : M unit :=
  onlyOwner ctx (
    let* _ := require (negb (arbitrator_ =? 0)) "Invalid arbitrator address" in
    let* _ := write (fun s => set_authorized s
                (<[arbitrator_ := true]> (authorizedArbitrators s))) in
    emit (ArbitratorAdded arbitrator_)).

Definition removeArbitrator (ctx : Ctx) (arbitrator_ : address) : M unit :=
  onlyOwner ctx (
    let* _ := write (fun s => set_authorized s
                (<[arbitrator_ := false]> (authorizedArbitrators s))) in
    emit (ArbitratorRemoved arbitrator_)).

Definition setFeeCollector (ctx : Ctx) (newFeeCollector : address) : M unit :=
  onlyOwner ctx (
    let* _ := require (negb (newFeeCollector =? 0)) "Invalid fee collector" in
    let* _ := write (fun s => set_feeCollector s newFeeCollector) in
    emit (FeeCollectorUpdated newFeeCollector)).

Definition setDefaultFee (ctx : Ctx) (newFee : Z) : M unit :=
  onlyOwner ctx (
    let* _ := require (newFee <=? MAX_FEE) "Fee exceeds maximum" in
    let* _ := write (fun s => set_defaultFee s newFee) in
    emit (DefaultFeeUpdated newFee)).

(** ** View and emergency functions *)

Definition getEscrow (escrowId : Z) : M EscrowData :=
  escrowExists escrowId (escrow_field escrowId (fun e => e)).

Definition getEscrowCount : M Z := read _escrowIdCounter.

Definition isArbitrator (arbitrator_ : address) : M bool :=
  read (fun s => isAuthorized s arbitrator_).

Definition emergencyWithdraw (ctx : Ctx) (token_ : address) (amount_ : Z) : M unit :=
  onlyOwner ctx (
    if token_ =? 0 then
      let* o := read _owner in
      let* success := call (SendValue o amount_) in
      require success "Emergency withdraw failed"
    else
      let* o := read _owner in
      safeTransfer token_ o amount_).

(** [constructor(address _feeCollector) Ownable(msg.sender)] *)
Definition deploy (deployer feeCollector_ : address) : Error + Storage :=
  if feeCollector_ =? 0 then inl (Error_ "Invalid fee collector")
  else inr (mkStorage 0 ∅ ∅ 250 feeCollector_ ∅ deployer false).

(** ** The chain around the contract *)

(** Native balances, and the books of the tokens: standard ERC-20 ledgers
    (OpenZeppelin's [ERC20], the [MockERC20] of the test-suite), keyed by
    (token, holder) and (token, owner, spender). *)
Record World := mkWorld {
  storage : Storage;
  balances : gmap Z Z;
  tokenBalances : gmap (Z * Z) Z;
  allowances : gmap (Z * Z * Z) Z
}.

Definition balanceOf (w : World) (a : address) : Z := default 0 (balances w !! a).
Definition tokenBalanceOf (w : World) (tok a : address) : Z :=
  default 0 (tokenBalances w !! (tok, a)).
Definition allowanceOf (w : World) (tok owner spender : address) : Z :=
  default 0 (allowances w !! (tok, owner, spender)).

Definition set_storage (w : World) (s : Storage) : World :=
  mkWorld s (balances w) (tokenBalances w) (allowances w).

(** Move [v] wei; the second read sees the first write, so a transfer to
    oneself changes nothing. *)
Definition move_eth (w : World) (from to : address) (v : Z) : World :=
  if v =? 0 then w else
  let b1 := <[from := balanceOf w from - v]> (balances w) in
  let b2 := <[to := default 0 (b1 !! to) + v]> b1 in
  mkWorld (storage w) b2 (tokenBalances w) (allowances w).

Definition move_token (w : World) (tok from to : address) (v : Z) : World :=
  if v =? 0 then w else
  let b1 := <[(tok, from) := tokenBalanceOf w tok from - v]> (tokenBalances w) in
  let b2 := <[(tok, to) := default 0 (b1 !! (tok, to)) + v]> b1 in
  mkWorld (storage w) (balances w) b2 (allowances w).

(** [ERC20._spendAllowance]: an unlimited allowance is not consumed. *)
Definition spend_allowance (w : World) (tok owner spender : address) (v : Z) : World :=
  if (allowanceOf w tok owner spender =? MAX_UINT256) || (v =? 0) then w else
  mkWorld (storage w) (balances w) (tokenBalances w)
          (<[(tok, owner, spender) := allowanceOf w tok owner spender - v]> (allowances w)).

(** The code living at the other addresses: what an address does when it is
    sent value with empty calldata, given the world in which the value has
    already arrived. [None] is a revert; the world handed back may carry a
    changed contract storage, when that code called the contract again. *)
Record Env := mkEnv {
  receive : address -> World -> option World
}.

(** Recipients that take the value or refuse it, and do nothing else. *)
Definition passive (accepts : address -> bool) : Env :=
  mkEnv (fun a w => if accepts a then Some w else None).

(** Recipients that may do anything except change this contract's storage. *)
Definition quiet (env : Env) : Prop :=
  forall a w w', receive env a w = Some w' -> storage w' = storage w.

(** One external call made by the contract at [self], from world [w]. A
    token is a plain ERC-20 ledger: a transfer moves exactly its amount,
    fails only for a zero recipient or a lack of balance or allowance, and
    calls nobody. The contract takes any address as a token; one that keeps
    a fee, pauses, blocks a holder or calls back is outside this model, and
    what is proved through [ext_call] about token balances is proved for
    plain ledgers only. *)
Definition ext_call (env : Env) (self : address) (w : World) (c : ExtCall) : option World :=
  match c with
  | SendValue to v =>
      if (0 <=? v) && (v <=? balanceOf w self)
      then receive env to (move_eth w self to v)
      else None
  | TokenTransfer tok to v =>
      if negb (to =? 0) && (0 <=? v) && (v <=? tokenBalanceOf w tok self)
      then Some (move_token w tok self to v)
      else None
  | TokenTransferFrom tok from to v =>
      if negb (to =? 0) && (0 <=? v) && (v <=? tokenBalanceOf w tok from)
         && (v <=? allowanceOf w tok from self)
      then Some (move_token (spend_allowance w tok from self v) tok from to v)
      else None
  end.

(** What a finished run leaves: the value returned, the world, the events
    logged and the external calls that went through, both oldest first. *)
Record Receipt (A : Type) := mkReceipt {
  returned : A;
  world : World;
  events : list Event;
  transfers : list ExtCall
}.
Arguments mkReceipt {A} _ _ _ _.
Arguments returned {A} _.
Arguments world {A} _.
Arguments events {A} _.
Arguments transfers {A} _.

Fixpoint run {A} (env : Env) (self : address) (w : World)
    (evs : list Event) (cs : list ExtCall) (e : Exec (A * Storage))
    : Error + Receipt A :=
  match e with
  | Ret r => inr (mkReceipt (fst r) (set_storage w (snd r)) evs cs)
  | Revert err => inl err
  | Emit ev k => run env self w (evs ++ [ev]) cs k
  | Call s c k =>
      let w1 := set_storage w s in
      match ext_call env self w1 c with
      | Some w2 => run env self w2 evs (cs ++ [c]) (k (storage w2) true)
      | None => run env self w1 evs cs (k s false)
      end
  end.

Inductive Outcome (A : Type) :=
| Success (a : A) (evs : list Event) (cs : list ExtCall)
| Reverted (e : Error)
| ValueRefused      (* value sent to a function that is not payable *)
| NotSent.          (* the sender does not own [msg.value] *)
Arguments Success {A} a evs cs.
Arguments Reverted {A} e.
Arguments ValueRefused {A}.
Arguments NotSent {A}.

(** A call of a contract function from outside. A function that is not
    payable refuses value; [msg.value] moves before the body runs; a revert
    leaves the world as it was. *)
Definition transact {A} (payable : bool) (env : Env) (w : World) (ctx : Ctx)
    (body : M A) : World * Outcome A :=
  let v := msg_value ctx in
  if negb payable && negb (v =? 0) then (w, ValueRefused)
  else if negb (v =? 0) && negb ((0 <? v) && (v <=? balanceOf w (msg_sender ctx)))
  then (w, NotSent)
  else
    match run env (this ctx) (move_eth w (msg_sender ctx) (this ctx) v)
              [] [] (body (storage w)) with
    | inr r => (world r, Success (returned r) (events r) (transfers r))
    | inl err => (w, Reverted err)
    end.

(** The sender can afford the value attached to the call. *)
Definition affordable (w : World) (ctx : Ctx) : Prop :=
  msg_value ctx = 0 \/ 0 < msg_value ctx <= balanceOf w (msg_sender ctx).

Definition is_terminal (st : EscrowStatus) : bool :=
  match st with
  | RELEASED | REFUNDED | CANCELLED => true
  | _ => false
  end.

(** [onlyArbitrator]'s condition. *)
Definition may_arbitrate (s : Storage) (escrowId : Z) (a : address) : bool :=
  isAuthorized s a || (arbitrator (escrowAt s escrowId) =? a).

(** ** What holds at every external call of a run

    [CallsIn R P e]: every [Call] node that [e] can reach carries a storage
    and a call satisfying [P], whatever the callees answer, as long as each
    callee hands back a storage related by [R] to the one it was given. *)
Inductive CallsIn {A} (R : Storage -> Storage -> Prop)
    (P : Storage -> ExtCall -> Prop) : Exec A -> Prop :=
| CallsIn_Ret a : CallsIn R P (Ret a)
| CallsIn_Revert err : CallsIn R P (Revert err)
| CallsIn_Emit ev k : CallsIn R P k -> CallsIn R P (Emit ev k)
| CallsIn_Call s c k :
    P s c ->
    (forall s' ok, R s s' -> CallsIn R P (k s' ok)) ->
    CallsIn R P (Call s c k).

(** A callee leaves record [escrowId] and the reentrancy flag as they were. *)
Definition keeps_record (escrowId : Z) (s s' : Storage) : Prop :=
  escrowAt s' escrowId = escrowAt s escrowId /\ _entered s' = _entered s.

(** [Leaves R Q e]: every storage [e] can return satisfies [Q], under the
    same assumption [R] on what callees hand back. *)
Inductive Leaves {A} (R : Storage -> Storage -> Prop) (Q : Storage -> Prop)
    : Exec (A * Storage) -> Prop :=
| Leaves_Ret a s : Q s -> Leaves R Q (Ret (a, s))
| Leaves_Revert err : Leaves R Q (Revert err)
| Leaves_Emit ev k : Leaves R Q k -> Leaves R Q (Emit ev k)
| Leaves_Call s c k :
    (forall s' ok, R s s' -> Leaves R Q (k s' ok)) ->
    Leaves R Q (Call s c k).

(** The state-changing functions of the contract, as one can call them. *)
Inductive Entry :=
| CreateEscrow (provider_ arbitrator_ token_ : address) (amount_ deadline_ : Z)
               (description_ : string)
| FundEscrow (escrowId : Z)
| ReleaseToProvider (escrowId : Z)
| RefundToClient (escrowId : Z)
| OpenDispute (escrowId : Z)
| ResolveDispute (escrowId : Z) (inFavorOfClient : bool)
| CancelEscrow (escrowId : Z)
| AddArbitrator (arbitrator_ : address)
| RemoveArbitrator (arbitrator_ : address)
| SetFeeCollector (newFeeCollector : address)
| SetDefaultFee (newFee : Z)
| EmergencyWithdraw (token_ : address) (amount_ : Z).

Definition enter (ctx : Ctx) (f : Entry) : M unit :=
  match f with
  | CreateEscrow p a t amt d desc =>
      let* _ := createEscrow ctx p a t amt d desc in mret tt
  | FundEscrow i => fundEscrow ctx i
  | ReleaseToProvider i => releaseToProvider ctx i
  | RefundToClient i => refundToClient ctx i
  | OpenDispute i => openDispute ctx i
  | ResolveDispute i b => resolveDispute ctx i b
  | CancelEscrow i => cancelEscrow ctx i
  | AddArbitrator a => addArbitrator ctx a
  | RemoveArbitrator a => removeArbitrator ctx a
  | SetFeeCollector a => setFeeCollector ctx a
  | SetDefaultFee n => setDefaultFee ctx n
  | EmergencyWithdraw t amt => emergencyWithdraw ctx t amt
  end.

(** [keeps_record], and no identifier handed out is taken back. *)
Definition keeps_record_and_ids (escrowId : Z) (s s' : Storage) : Prop :=
  keeps_record escrowId s s' /\ _escrowIdCounter s <= _escrowIdCounter s'.

(** The result of a call, with one more event logged before all others;
    a call that fails leaves the world [w] it started from. *)
Definition announced {A} (ev : Event) (w : World) (r : World * Outcome A)
    : World * Outcome A :=
  match r with
  | (w', Success a evs cs) => (w', Success a (ev :: evs) cs)
  | (_, out) => (w, out)
  end.

(** ** The cast and the scenario of the test-suite *)

Definition owner_ : address := 1.
Definition client_ : address := 10.
Definition provider_ : address := 20.
Definition arbitrator_ : address := 30.
Definition other_ : address := 40.
Definition collector_ : address := 99.
Definition escrow_address : address := 1000.

(** Every recipient takes what it is sent. *)
Definition everyone : Env := passive (fun _ => true).

Definition by_ (who : address) (value : Z) : Ctx :=
  mkCtx escrow_address who value 1700000000.

Definition after {A} (payable : bool) (w : World) (ctx : Ctx) (body : M A) : World :=
  fst (transact payable everyone w ctx body).

(** Deployed with [collector_] as fee collector; the client owns 5000000. *)
Definition genesis : World :=
  mkWorld (mkStorage 0 ∅ ∅ 250 collector_ ∅ owner_ false)
          {[ client_ := 5000000 ]} ∅ ∅.

Definition w_ready : World :=
  after false genesis (by_ owner_ 0) (addArbitrator (by_ owner_ 0) arbitrator_).
Definition w_created : World :=
  after false w_ready (by_ client_ 0)
        (createEscrow (by_ client_ 0) provider_ 0 0 1000000 0 "x").
Definition w_funded : World :=
  after true w_created (by_ client_ 1000000) (fundEscrow (by_ client_ 1000000) 0).
Definition w_released : World :=
  after false w_funded (by_ client_ 0) (releaseToProvider (by_ client_ 0) 0).
Definition w_disputed : World :=
  after false w_funded (by_ provider_ 0) (openDispute (by_ provider_ 0) 0).

(** A provider that is also a registered arbitrator and whose code, on
    receiving value, calls [releaseToProvider] for the record again. A
    nested call that reverts is undone and the provider carries on. *)
Definition w_funded_attacker : World :=
  after false w_funded (by_ owner_ 0) (addArbitrator (by_ owner_ 0) provider_).

Definition reentrant_provider : Env :=
  mkEnv (fun a w =>
    if a =? provider_
    then Some (after false w (by_ provider_ 0) (releaseToProvider (by_ provider_ 0) 0))
    else Some w).

End Ledger.

(* ===================================================================== *)
(** * The indexer: event-listener.service.ts                              *)
(* ===================================================================== *)

Module Indexer.

(** ** JavaScript values *)

(** The double nearest to a non-negative integer (ties to even). *)
Definition to_double (x : Z) : Z :=
  if x <? 2 ^ 53 then x
  else
    let e := Z.log2 x - 52 in
    let q := x / 2 ^ e in
    let r := x mod 2 ^ e in
    let half := 2 ^ (e - 1) in
    let q' := if r <? half then q
              else if half <? r then q + 1
              else if Z.even q then q else q + 1 in
    q' * 2 ^ e.

(** [Number(x)] for a [bigint] [x] *)
Definition Number_ (x : Z) : Z := to_double x.

(** [x.toString()] for a [bigint] [x] *)
Definition toString (x : Z) : string := pretty x.

Definition lower_ascii (c : ascii) : ascii :=
  let n := N_of_ascii c in
  if ((65 <=? n) && (n <=? 90))%N then ascii_of_N (n + 32) else c.

(** [s.toLowerCase()], on the ASCII strings that addresses are *)
Fixpoint toLowerCase (s : string) : string :=
  match s with
  | EmptyString => EmptyString
  | String c r => String (lower_ascii c) (toLowerCase r)
  end.

(** [new Date(ms)]: a time value, or an invalid date out of range. *)
Inductive JSDate := ValidDate (ms : Z) | InvalidDate.
Definition newDate (ms : Z) : JSDate :=
  if Z.abs ms <=? 8640000000000000 then ValidDate ms else InvalidDate.

(** ** blockchain.service.ts *)

Record EscrowData := mkEscrowData {
  data_client : string;
  data_provider : string;
  data_arbitrator : string;
  data_token : string;
  data_amount : Z;
  data_fee : Z;
  data_status : Z;
  data_createdAt : Z;
  data_deadline : Z;
  data_description : string
}.

(** The two kinds of log entries the listener queries, as ethers decodes
    them: [event.args], [event.transactionHash], [event.blockNumber]. *)
Record CreatedEvent := mkCreatedEvent {
  ce_escrowId : Z;
  ce_client : string;
  ce_provider : string;
  ce_token : string;
  ce_amount : Z;
  ce_deadline : Z;
  ce_transactionHash : string;
  ce_blockNumber : Z
}.

Record FundedEvent := mkFundedEvent {
  fe_escrowId : Z;
  fe_funder : string;
  fe_amount : Z;
  fe_transactionHash : string;
  fe_blockNumber : Z
}.

Inductive Log :=
| LogCreated (ev : CreatedEvent)
| LogFunded (ev : FundedEvent)
| LogOther (blockNumber : Z).   (* the other five events of the ABI *)

(** The deployed contract as seen through the node: its logs in chain
    order, and its [getEscrow] view ([None] when the call fails). *)
Record Contract := mkContract {
  logs : list Log;
  contract_getEscrow : Z -> option EscrowData
}.

(** A configured chain: the provider's [getBlockNumber()] ([None] when the
    node does not answer) and the contract behind it. *)
Record Chain := mkChain {
  provider_getBlockNumber : option Z;
  contract : Contract
}.

(** The [providers] and [contracts] maps, filled together, in insertion
    order. *)
Definition BlockchainService := list (Z * Chain).

Inductive Exn :=
| ProviderNotFound (chainId : Z)   (* Provider not found for chain ID *)
| ContractNotFound (chainId : Z)   (* Contract not found for chain ID *)
| RpcError                         (* a call to the node failed *)
| UniqueViolation                  (* index (chainId, escrowId) *)
| DataException.                   (* a value its column does not take *)

Definition lookupChain (bs : BlockchainService) (chainId : Z) : option Chain :=
  snd <$> List.find (fun p => fst p =? chainId) bs.

Definition getProvider (bs : BlockchainService) (chainId : Z) : Exn + Chain :=
  match lookupChain bs chainId with
  | Some c => inr c
  | None => inl (ProviderNotFound chainId)
  end.

Definition getContract (bs : BlockchainService) (chainId : Z) : Exn + Contract :=
  match lookupChain bs chainId with
  | Some c => inr (contract c)
  | None => inl (ContractNotFound chainId)
  end.

Definition getEscrow (bs : BlockchainService) (chainId escrowId : Z) : Exn + EscrowData :=
  match getContract bs chainId with
  | inl e => inl e
  | inr c =>
      match contract_getEscrow c escrowId with
      | Some d => inr d
      | None => inl RpcError
      end
  end.

Definition getBlockNumber (bs : BlockchainService) (chainId : Z) : Exn + Z :=
  match getProvider bs chainId with
  | inl e => inl e
  | inr c =>
      match provider_getBlockNumber c with
      | Some n => inr n
      | None => inl RpcError
      end
  end.

Definition getSupportedChainIds (bs : BlockchainService) : list Z := map fst bs.

(** [contract.queryFilter(contract.filters.EscrowCreated(), from, to)]:
    the matching logs of the blocks [from..to], both ends included. *)
Definition queryFilterCreated (c : Contract) (fromBlock toBlock : Z) : list CreatedEvent :=
  omap (fun l => match l with
                 | LogCreated ev =>
                     if (fromBlock <=? ce_blockNumber ev) && (ce_blockNumber ev <=? toBlock)
                     then Some ev else None
                 | _ => None
                 end) (logs c).

Definition queryFilterFunded (c : Contract) (fromBlock toBlock : Z) : list FundedEvent :=
  omap (fun l => match l with
                 | LogFunded ev =>
                     if (fromBlock <=? fe_blockNumber ev) && (fe_blockNumber ev <=? toBlock)
                     then Some ev else None
                 | _ => None
                 end) (logs c).

(** ** escrow.entity.ts and its repository *)

(** A row of [escrows]; [id] is the generated primary key, absent on an
    entity that was built but not saved. The two timestamp columns that the
    database fills in are left out. *)
Record Escrow := mkEscrow {
  id : option nat;
  chainId : Z;
  escrowId : Z;
  client : string;
  provider : string;
  arbitrator : string;
  token : string;
  amount : string;
  fee : string;
  status : Z;
  deadline : option JSDate;
  description : string;
  transactionHash : string;
  blockNumber : Z
}.

Definition with_status (e : Escrow) (st : Z) : Escrow :=
  mkEscrow (id e) (chainId e) (escrowId e) (client e) (provider e)
           (arbitrator e) (token e) (amount e) (fee e) st (deadline e)
           (description e) (transactionHash e) (blockNumber e).

Definition with_id (e : Escrow) (i : nat) : Escrow :=
  mkEscrow (Some i) (chainId e) (escrowId e) (client e) (provider e)
           (arbitrator e) (token e) (amount e) (fee e) (status e) (deadline e)
           (description e) (transactionHash e) (blockNumber e).

(** The table in insertion order, and the next key to hand out. *)
Record Repository := mkRepository {
  rows : list Escrow;
  nextId : nat
}.

Definition has_key (c i : Z) (r : Escrow) : bool :=
  (chainId r =? c) && (escrowId r =? i).

Definition has_id (i : nat) (r : Escrow) : bool :=
  match id r with Some j => Nat.eqb i j | None => false end.

(** [findOne({ where: { chainId, escrowId } })] *)
Definition findOne (repo : Repository) (c i : Z) : option Escrow :=
  List.find (has_key c i) (rows repo).

(** ** The columns of [escrows], as PostgreSQL types them

    What a column makes of a value written to it; [None] when it refuses
    the value, and the statement fails with it. *)

(** [int]: four bytes. *)
Definition int (x : Z) : option Z :=
  if (- 2 ^ 31 <=? x) && (x <? 2 ^ 31) then Some x else None.

(** No character text holds the character of code 0. *)
Fixpoint no_nul (s : string) : bool :=
  match s with
  | EmptyString => true
  | String c r => negb (Ascii.eqb c Ascii.zero) && no_nul r
  end.

Fixpoint blank (s : string) : bool :=
  match s with
  | EmptyString => true
  | String c r => Ascii.eqb c " " && blank r
  end.

(** [character varying(n)]: a longer text is refused, unless what is beyond
    [n] characters is blanks, which are cut off. *)
Definition varchar (n : nat) (s : string) : option string :=
  if negb (no_nul s) then None
  else if (String.length s <=? n)%nat then Some s
  else if blank (String.substring n (String.length s - n) s)
  then Some (String.substring 0 n s)
  else None.

Definition text (s : string) : option string :=
  if no_nul s then Some s else None.

(** [timestamp], nullable: a date from 4713 BC on (every later date of
    JavaScript is in range). An invalid [Date] has no text the server
    reads as a date. *)
Definition timestamp (d : option JSDate) : option (option JSDate) :=
  match d with
  | None => Some None
  | Some (ValidDate ms) => if - 210866803200000 <=? ms then Some d else None
  | Some InvalidDate => None
  end.

Definition date_eqb (a b : option JSDate) : bool :=
  match a, b with
  | None, None => true
  | Some (ValidDate x), Some (ValidDate y) => x =? y
  | Some InvalidDate, Some InvalidDate => true
  | _, _ => false
  end.

(** One column of a row that is written: an INSERT writes every column, an
    UPDATE only those whose value differs from the stored one. *)
Definition written {A} (same : A -> A -> bool) (column : A -> option A)
    (stored : option A) (value : A) : option A :=
  match stored with
  | Some v => if same v value then Some v else column value
  | None => column value
  end.

(** The row the table holds once entity [e] is written, over the row
    [stored] under its primary key when there is one. The status column is
    the enumeration of the contract's six codes, which is where every status
    written comes from; it is taken as it is. *)
Definition stored_row (stored : option Escrow) (e : Escrow) : option Escrow :=
  _ ← written Z.eqb int (chainId <$> stored) (chainId e);
  _ ← written Z.eqb int (escrowId <$> stored) (escrowId e);
  client_ ← written String.eqb (varchar 42) (client <$> stored) (client e);
  provider_ ← written String.eqb (varchar 42) (provider <$> stored) (provider e);
  arbitrator_ ← written String.eqb (varchar 42) (arbitrator <$> stored) (arbitrator e);
  token_ ← written String.eqb (varchar 42) (token <$> stored) (token e);
  amount_ ← written String.eqb (varchar 78) (amount <$> stored) (amount e);
  fee_ ← written String.eqb (varchar 78) (fee <$> stored) (fee e);
  deadline_ ← written date_eqb timestamp (deadline <$> stored) (deadline e);
  description_ ← written String.eqb text (description <$> stored) (description e);
  transactionHash_ ← written String.eqb (varchar 66) (transactionHash <$> stored)
                       (transactionHash e);
  _ ← written Z.eqb int (blockNumber <$> stored) (blockNumber e);
  Some (mkEscrow (id e) (chainId e) (escrowId e) client_ provider_ arbitrator_
                 token_ amount_ fee_ (status e) deadline_ description_
                 transactionHash_ (blockNumber e)).

(** [save(entity)]: an entity whose key is in the table replaces that row,
    any other is inserted, under a fresh key if it has none. A value that
    its column refuses fails the statement, and so does a second row for
    the same (chainId, escrowId), which the unique index refuses; nothing
    is written then. *)
Definition save (repo : Repository) (e : Escrow) : Exn + Repository :=
  let stored := match id e with
                | Some i => List.find (has_id i) (rows repo)
                | None => None
                end in
  match stored_row stored e with
  | None => inl DataException
  | Some r =>
      if existsb (fun x => has_key (chainId e) (escrowId e) x
                           && negb (match id e with Some i => has_id i x | None => false end))
                 (rows repo)
      then inl UniqueViolation
      else
        match id e with
        | Some i =>
            if existsb (has_id i) (rows repo)
            then inr (mkRepository (map (fun x => if has_id i x then r else x) (rows repo))
                                   (nextId repo))
            else inr (mkRepository (rows repo ++ [r]) (nextId repo))
        | None =>
            inr (mkRepository (rows repo ++ [with_id r (nextId repo)]) (S (nextId repo)))
        end
  end.

(** ** event-listener.service.ts *)

Record State := mkState {
  lastSyncedBlocks : gmap Z Z;
  escrowRepository : Repository
}.

(** The entity [handleEscrowCreated] builds with
    [this.escrowRepository.create({ ... })]. *)
Definition create (chainId_ : Z) (event : CreatedEvent) (escrowData : EscrowData)
    : Escrow :=
  mkEscrow None chainId_ (Number_ (ce_escrowId event))
    (toLowerCase (ce_client event))
    (toLowerCase (ce_provider event))
    (toLowerCase (data_arbitrator escrowData))
    (toLowerCase (ce_token event))
    (toString (ce_amount event))
    (toString (data_fee escrowData))
    (data_status escrowData)
    (if 0 <? ce_deadline event
     then Some (newDate (to_double (Number_ (ce_deadline event) * 1000)))
     else None)
    (data_description escrowData)
    (ce_transactionHash event)
    (ce_blockNumber event).

Definition handleEscrowCreated (bs : BlockchainService) (chainId_ : Z)
    (event : CreatedEvent) (repo : Repository) : Exn + Repository :=
  (* Check if already exists *)
  match findOne repo chainId_ (Number_ (ce_escrowId event)) with
  | Some existing => inr repo
  | None =>
      (* Fetch full escrow data from contract *)
      match getEscrow bs chainId_ (Number_ (ce_escrowId event)) with
      | inl e => inl e
      | inr escrowData =>
          let escrow := create chainId_ event escrowData in
          save repo escrow
      end
  end.

Definition handleEscrowFunded (chainId_ : Z) (event : FundedEvent)
    (repo : Repository) : Exn + Repository :=
  match findOne repo chainId_ (Number_ (fe_escrowId event)) with
  | Some escrow => save repo (with_status escrow 1) (* FUNDED *)
  | None => inr repo
  end.

(** [for (const event of events) await handler(event)]: the first throw
    ends the loop; what was saved before it stays saved. *)
Fixpoint forEach {E} (handler : E -> Repository -> Exn + Repository)
    (events : list E) (repo : Repository) : Repository * option Exn :=
  match events with
  | [] => (repo, None)
  | ev :: rest =>
      match handler ev repo with
      | inl e => (repo, Some e)
      | inr repo' => forEach handler rest repo'
      end
  end.

Definition syncChainEvents (bs : BlockchainService) (st : State) (chainId_ : Z)
    : State * option Exn :=
  match getContract bs chainId_ with
  | inl e => (st, Some e)
  | inr contract_ =>
  match getBlockNumber bs chainId_ with
  | inl e => (st, Some e)
  | inr currentBlock =>
      let fromBlock := default 0 (lastSyncedBlocks st !! chainId_) in
      if currentBlock <=? fromBlock then (st, None)
      else
        let createdEvents := queryFilterCreated contract_ fromBlock currentBlock in
        match forEach (handleEscrowCreated bs chainId_) createdEvents
                      (escrowRepository st) with
        | (repo1, Some e) => (mkState (lastSyncedBlocks st) repo1, Some e)
        | (repo1, None) =>
            let fundedEvents := queryFilterFunded contract_ fromBlock currentBlock in
            match forEach (handleEscrowFunded chainId_) fundedEvents repo1 with
            | (repo2, Some e) => (mkState (lastSyncedBlocks st) repo2, Some e)
            | (repo2, None) =>
                (mkState (<[chainId_ := currentBlock]> (lastSyncedBlocks st)) repo2,
                 None)
            end
        end
  end
  end.

(** The cron job: every chain in turn, an error on one chain is caught. *)
Definition syncBlockchainEvents (bs : BlockchainService) (st : State) : State :=
  fold_left (fun st' chainId_ => fst (syncChainEvents bs st' chainId_))
            (getSupportedChainIds bs) st.

(** Every chain's cursor at [startBlock]. *)
Definition initialState (bs : BlockchainService) (startBlock : Z)
    (repo : Repository) : State :=
  mkState (fold_left (fun m chainId_ => <[chainId_ := startBlock]> m)
                     (getSupportedChainIds bs) ∅) repo.

(** [onModuleInit]. [ConfigService] hands over START_BLOCK as the text of
    the environment variable. When it is not set, or empty, every chain's
    cursor is the number 0 and the first cycle runs. When it is set, every
    cursor starts as that text and not as a number: the listener is then
    in none of the states of [State], whose cursors are numbers, and is not
    followed here ([None]). With a decimal text such as 5, [queryFilter]
    refuses the cursor as a block and no cycle gets past it. *)
Definition onModuleInit (bs : BlockchainService) (START_BLOCK : option string)
    (repo : Repository) : option State :=
  match START_BLOCK with
  | None | Some EmptyString => Some (syncBlockchainEvents bs (initialState bs 0 repo))
  | Some _ => None
  end.

(** ** The poll window as the specification words it *)

(** "Determine from = cursor + 1, to = currentConfirmedHeight." *)
Definition spec_window (cursor currentConfirmedHeight : Z) : Z * Z :=
  (cursor + 1, currentConfirmedHeight).

(** The records of the table for one (chain, id). *)
Definition records_for (repo : Repository) (c i : Z) : list Escrow :=
  List.filter (has_key c i) (rows repo).

(** What the database guarantees of the table: every row has its primary
    key, no key is used twice, and the unique index holds. *)
Record well_keyed (repo : Repository) : Prop := mkWellKeyed {
  keyed : Forall (fun r => is_Some (id r)) (rows repo);
  primary_key : NoDup (id <$> rows repo);
  unique_index : NoDup ((fun r => (chainId r, escrowId r)) <$> rows repo)
}.

(** ** A small chain to run the listener on *)

(** Record 0 was created in block 5 and funded in block 7; it has since
    been released (status 3). The node is at block 10. *)
Definition created0 : CreatedEvent :=
  mkCreatedEvent 0 "0xAlice" "0xBob" "0x0" 1000000 0 "0xtx1" 5.
Definition funded0 : FundedEvent :=
  mkFundedEvent 0 "0xAlice" 1000000 "0xtx2" 7.
Definition canonical0 : EscrowData :=
  mkEscrowData "0xAlice" "0xBob" "0x0" "0x0" 1000000 250 3 1700000000 0 "x".
Definition chain1 : Chain :=
  mkChain (Some 10)
          (mkContract [LogCreated created0; LogFunded funded0; LogOther 9]
                      (fun i => if i =? 0 then Some canonical0 else None)).
Definition service1 : BlockchainService := [(1, chain1)].

Definition empty_repository : Repository := mkRepository [] 0.

(** A listener whose cursor is at block 5 and whose table is empty. *)
Definition state5 : State := initialState service1 5 empty_repository.

(** The row the listener builds for [created0]. *)
Definition row0 : Escrow :=
  mkEscrow (Some 0%nat) 1 0 "0xalice" "0xbob" "0x0" "0x0" "1000000" "250" 3
           None "x" "0xtx1" 5.

(** Record 1 of another contract was created in block 6 with a deadline of
    10^13 seconds, which [createEscrow] takes like any time to come. *)
Definition created_far : CreatedEvent :=
  mkCreatedEvent 1 "0xAlice" "0xBob" "0x0" 1000000 10000000000000 "0xtx3" 6.
Definition canonical_far : EscrowData :=
  mkEscrowData "0xAlice" "0xBob" "0x0" "0x0" 1000000 250 0 1700000000
               10000000000000 "x".
Definition chain_far : Chain :=
  mkChain (Some 10)
          (mkContract [LogCreated created_far]
                      (fun i => if i =? 1 then Some canonical_far else None)).
Definition service_far : BlockchainService := [(1, chain_far)].

End Indexer.


(* ===================================================================== *)
(** * The contract as a transition system                                 *)
(* ===================================================================== *)

Module Lifecycle.
Import Ledger.

(** [fundEscrow] is the one payable function. *)
Definition is_payable (f : Entry) : bool :=
  match f with FundEscrow _ => true | _ => false end.

(** The status writes of the source, one per function:
    fund, cancel, release, openDispute, refund (from two statuses) and
    resolveDispute (to two statuses). *)
Definition moves (a b : EscrowStatus) : bool :=
  match a, b with
  | CREATED, FUNDED | CREATED, CANCELLED
  | FUNDED, RELEASED | FUNDED, DISPUTED | FUNDED, REFUNDED
  | DISPUTED, REFUNDED | DISPUTED, RELEASED => true
  | _, _ => false
  end.

(** The fee of a release: [(escrow.amount * escrow.fee) / FEE_DENOMINATOR]. *)
Definition feeOf (e : EscrowData) : Z := amount e * fee e / FEE_DENOMINATOR.

(** A payout in the asset of a record. *)
Definition payout (e : EscrowData) (to : address) (v : Z) : ExtCall :=
  if token e =? 0 then SendValue to v else TokenTransfer (token e) to v.

Definition release_payments (s : Storage) (e : EscrowData) : list ExtCall :=
  payout e (provider e) (amount e - feeOf e) ::
  (if 0 <? feeOf e then [payout e (feeCollector s) (feeOf e)] else []).

(** The storage a release leaves, from a record [e] at [i] already put to
    FUNDED or found so. *)
Definition released (s : Storage) (i : Z) : Storage :=
  let e := escrowAt s i in
  let s1 := store_status s i RELEASED in
  if 0 <? feeOf e
  then set_collectedFees s1
         (<[token e := collectedFeesAt s (token e) + feeOf e]> (collectedFees s))
  else s1.

(** What a call that goes through has checked. *)
Definition passed (ctx : Ctx) (f : Entry) (s : Storage) : Prop :=
  match f with
  | CreateEscrow p a t amt d desc =>
      p <> 0 /\ p <> msg_sender ctx /\ 0 < amt /\
      (0 < d -> block_timestamp ctx < d) /\
      0 <= _escrowIdCounter s + 1 <= MAX_UINT256
  | FundEscrow i =>
      _entered s = false /\ client (escrowAt s i) <> 0 /\
      status (escrowAt s i) = CREATED /\
      client (escrowAt s i) = msg_sender ctx /\
      (if token (escrowAt s i) =? 0
       then msg_value ctx = amount (escrowAt s i) else msg_value ctx = 0)
  | ReleaseToProvider i =>
      _entered s = false /\ client (escrowAt s i) <> 0 /\
      status (escrowAt s i) = FUNDED /\
      (msg_sender ctx =? client (escrowAt s i))
      || (msg_sender ctx =? arbitrator (escrowAt s i))
      || isAuthorized s (msg_sender ctx) = true /\
      0 <= amount (escrowAt s i) * fee (escrowAt s i) <= MAX_UINT256 /\
      0 <= amount (escrowAt s i) - feeOf (escrowAt s i) <= MAX_UINT256
  | RefundToClient i =>
      _entered s = false /\ client (escrowAt s i) <> 0 /\
      may_arbitrate s i (msg_sender ctx) = true /\
      (status (escrowAt s i) = FUNDED \/ status (escrowAt s i) = DISPUTED)
  | OpenDispute i =>
      client (escrowAt s i) <> 0 /\ status (escrowAt s i) = FUNDED /\
      (msg_sender ctx = client (escrowAt s i) \/
       msg_sender ctx = provider (escrowAt s i))
  | ResolveDispute i b =>
      _entered s = false /\ client (escrowAt s i) <> 0 /\
      status (escrowAt s i) = DISPUTED /\
      may_arbitrate s i (msg_sender ctx) = true /\
      (b = false ->
       0 <= amount (escrowAt s i) * fee (escrowAt s i) <= MAX_UINT256 /\
       0 <= amount (escrowAt s i) - feeOf (escrowAt s i) <= MAX_UINT256)
  | CancelEscrow i =>
      client (escrowAt s i) <> 0 /\ status (escrowAt s i) = CREATED /\
      client (escrowAt s i) = msg_sender ctx
  | AddArbitrator a => _owner s = msg_sender ctx /\ a <> 0
  | RemoveArbitrator a => _owner s = msg_sender ctx
  | SetFeeCollector a => _owner s = msg_sender ctx /\ a <> 0
  | SetDefaultFee n => _owner s = msg_sender ctx /\ n <= MAX_FEE
  | EmergencyWithdraw t amt => _owner s = msg_sender ctx
  end.

(** The storage a call that goes through leaves, when the recipients of
    its transfers leave the storage alone. *)
Definition outcome (ctx : Ctx) (f : Entry) (s : Storage) : Storage :=
  match f with
  | CreateEscrow p a t amt d desc =>
      set_escrows (set_counter s (_escrowIdCounter s + 1))
        (<[_escrowIdCounter s :=
             mkEscrowData (msg_sender ctx) p a t amt (defaultFee s) CREATED
                          (block_timestamp ctx) d desc]> (escrows s))
  | FundEscrow i => store_status s i FUNDED
  | ReleaseToProvider i => released s i
  | RefundToClient i => store_status s i REFUNDED
  | OpenDispute i => store_status s i DISPUTED
  | ResolveDispute i true => store_status s i REFUNDED
  | ResolveDispute i false => released s i
  | CancelEscrow i => store_status s i CANCELLED
  | AddArbitrator a => set_authorized s (<[a := true]> (authorizedArbitrators s))
  | RemoveArbitrator a => set_authorized s (<[a := false]> (authorizedArbitrators s))
  | SetFeeCollector a => set_feeCollector s a
  | SetDefaultFee n => set_defaultFee s n
  | EmergencyWithdraw _ _ => s
  end.

(** The external calls it makes, in order. *)
Definition payments (ctx : Ctx) (f : Entry) (s : Storage) : list ExtCall :=
  match f with
  | FundEscrow i =>
      let e := escrowAt s i in
      if token e =? 0 then []
      else [TokenTransferFrom (token e) (msg_sender ctx) (this ctx) (amount e)]
  | ReleaseToProvider i | ResolveDispute i false =>
      release_payments s (escrowAt s i)
  | RefundToClient i | ResolveDispute i true =>
      let e := escrowAt s i in [payout e (client e) (amount e)]
  | EmergencyWithdraw t amt =>
      [if t =? 0 then SendValue (_owner s) amt else TokenTransfer t (_owner s) amt]
  | _ => []
  end.

(** Arguments of type [uint256] that the ABI decoder accepts. *)
Definition uint_args (f : Entry) : Prop :=
  match f with
  | CreateEscrow _ _ _ amt d _ => 0 <= amt <= MAX_UINT256 /\ 0 <= d <= MAX_UINT256
  | SetDefaultFee n => 0 <= n <= MAX_UINT256
  | EmergencyWithdraw _ amt => 0 <= amt <= MAX_UINT256
  | _ => True
  end.

(** What the constructor establishes and every function keeps. *)
Record sound (s : Storage) : Prop := {
  counter_nonneg : 0 <= _escrowIdCounter s;
  ids_below_counter :
    forall i, client (escrowAt s i) <> 0 -> 0 <= i < _escrowIdCounter s;
  fee_capped : forall i, 0 <= fee (escrowAt s i) <= MAX_FEE;
  defaultFee_capped : 0 <= defaultFee s <= MAX_FEE;
  amount_nonneg : forall i, 0 <= amount (escrowAt s i);
  provider_set :
    forall i, client (escrowAt s i) <> 0 -> provider (escrowAt s i) <> 0;
  collector_set : feeCollector s <> 0;
  guard_down : _entered s = false
}.

(** Calls made to the contract at [self], one after the other, whether
    they go through or not; [allowed] says which calls are considered. *)
Inductive history (allowed : Ctx -> Entry -> Prop) (env : Env) (self : address)
    : World -> World -> Prop :=
| history_start w : history allowed env self w w
| history_call w w1 w2 ctx f out :
    history allowed env self w w1 ->
    this ctx = self ->
    allowed ctx f ->
    transact (is_payable f) env w1 ctx (enter ctx f) = (w2, out) ->
    history allowed env self w w2.

(** Any call by anyone. *)
Definition any_call (ctx : Ctx) (f : Entry) : Prop := uint_args f.

(** Any call but [emergencyWithdraw], from another address than the
    contract's own. *)
Definition ordinary_call (ctx : Ctx) (f : Entry) : Prop :=
  uint_args f /\ msg_sender ctx <> this ctx /\
  match f with EmergencyWithdraw _ _ => False | _ => True end.

(** Who may take a record from one status to another: the sender checks of
    the functions that make the moves of [moves]. *)
Definition may_move (s : Storage) (i : Z) (who : address) (a b : EscrowStatus) : bool :=
  let e := escrowAt s i in
  match a, b with
  | CREATED, FUNDED | CREATED, CANCELLED => who =? client e
  | FUNDED, RELEASED =>
      (who =? client e) || (who =? arbitrator e) || isAuthorized s who
  | FUNDED, DISPUTED => (who =? client e) || (who =? provider e)
  | FUNDED, REFUNDED | DISPUTED, REFUNDED | DISPUTED, RELEASED =>
      may_arbitrate s i who
  | _, _ => false
  end.

(** ** Custody *)

(** The statuses in which the contract holds the amount of a record. *)
Definition holds_funds (st : EscrowStatus) : bool :=
  match st with FUNDED | DISPUTED => true | _ => false end.

(** What the contract holds for record [e] in asset [tok]
    ([address(0)] is the native asset). *)
Definition held (tok : address) (e : EscrowData) : Z :=
  if (token e =? tok) && holds_funds (status e) then amount e else 0.

(** The sum over all records. *)
Definition owed (s : Storage) (tok : address) : Z :=
  map_fold (fun (_ : Z) e acc => held tok e + acc) 0 (escrows s).

Definition asset_balance (w : World) (tok a : address) : Z :=
  if tok =? 0 then balanceOf w a else tokenBalanceOf w tok a.

(** What the contract holds beyond what its records account for. *)
Definition surplus (w : World) (self tok : address) : Z :=
  asset_balance w tok self - owed (storage w) tok.

Definition backed (w : World) (self : address) : Prop :=
  forall tok, 0 <= surplus w self tok.

(** What an external call that went through adds to the holdings of
    [self] in asset [tok]. *)
Definition flow (tok self : address) (c : ExtCall) : Z :=
  match c with
  | SendValue to v =>
      if (tok =? 0) && negb (to =? self) then - v else 0
  | TokenTransfer t to v =>
      if negb (tok =? 0) && (t =? tok) && negb (to =? self) then - v else 0
  | TokenTransferFrom t from to v =>
      if negb (tok =? 0) && (t =? tok) && negb (from =? to)
      then (if to =? self then v else 0) - (if from =? self then v else 0)
      else 0
  end.

Definition net_flow (tok self : address) (cs : list ExtCall) : Z :=
  foldr (fun c acc => flow tok self c + acc) 0 cs.

(** ** A token record for the scenario

    The client owns 3000000 of the token at [usdc_] and has approved the
    contract for 1000000 of it; record 0 is for 1000000 of that token. *)
Definition usdc_ : address := 500.

Definition genesis_token : World :=
  mkWorld (storage genesis) (balances genesis)
          {[ (usdc_, client_) := 3000000 ]}
          {[ (usdc_, client_, escrow_address) := 1000000 ]}.

Definition w_token_created : World :=
  after false genesis_token (by_ client_ 0)
        (createEscrow (by_ client_ 0) provider_ arbitrator_ usdc_ 1000000 0 "t").

End Lifecycle.

(* ===================================================================== *)
(** * The replica: escrow.service.ts and the table over time              *)
(* ===================================================================== *)

Module Replica.
Import Indexer.

(** ** escrow.service.ts *)

Inductive ServiceExn :=
| NotFoundException (id : nat)        (* Escrow with ID ... not found *)
| NotFoundOnChain (chainId escrowId : Z)
| Thrown (e : Exn).                   (* what the calls made throw *)

(** [findOne(id)]: [findOne({ where: { id } })], or the exception. *)
Definition findOne (repo : Repository) (id_ : nat) : ServiceExn + Escrow :=
  match List.find (has_id id_) (rows repo) with
  | Some escrow => inr escrow
  | None => inl (NotFoundException id_)
  end.

Definition findByChainAndEscrowId (repo : Repository) (chainId_ escrowId_ : Z)
    : ServiceExn + Escrow :=
  match Indexer.findOne repo chainId_ escrowId_ with
  | Some escrow => inr escrow
  | None => inl (NotFoundOnChain chainId_ escrowId_)
  end.

(** [syncEscrowStatus(id)]; the two statuses are compared as the numbers
    their declared types say they are. *)
Definition syncEscrowStatus (bs : BlockchainService) (repo : Repository) (id_ : nat)
    : ServiceExn + (Repository * Escrow) :=
  match findOne repo id_ with
  | inl e => inl e
  | inr escrow =>
      (* Fetch latest data from blockchain *)
      match getEscrow bs (chainId escrow) (escrowId escrow) with
      | inl e => inl (Thrown e)
      | inr onChainData =>
          (* Update status if changed *)
          if negb (status escrow =? data_status onChainData) then
            let escrow' := with_status escrow (data_status onChainData) in
            match save repo escrow' with
            | inl e => inl (Thrown e)
            | inr repo' => inr (repo', escrow')
            end
          else inr (repo, escrow)
      end
  end.

(** ** The table over time *)

(** Every primary key in the table was handed out before [nextId]. *)
Definition fresh_keys (repo : Repository) : Prop :=
  Forall (fun r => forall i, id r = Some i -> (i < nextId repo)%nat) (rows repo).

Definition consistent (repo : Repository) : Prop :=
  well_keyed repo /\ fresh_keys repo.

(** The rows of [l] with the status of the row of key [j] set to [st]. *)
Definition set_status_of (j : nat) (st : Z) (l : list Escrow) : list Escrow :=
  map (fun r => if has_id j r then with_status r st else r) l.

(** [r'] is [r] but for its status, which is as it was or FUNDED. *)
Definition same_or_funded (r r' : Escrow) : Prop :=
  r' = with_status r (status r') /\ (status r' = status r \/ status r' = 1).

(** The table [repo'] holds the rows of [repo], in order, each the same
    but for a status that may have been put to FUNDED, and then new rows. *)
Definition grows (repo repo' : Repository) : Prop :=
  exists old added,
    rows repo' = (old ++ added)%list /\ Forall2 same_or_funded (rows repo) old.

(** What the creation handler throws: what reading the contract throws, or
    the refusal of the table to take the row. *)
Definition thrown_by_creation (bs : BlockchainService) (c : Z) (ev : CreatedEvent)
    (e : Exn) : Prop :=
  getEscrow bs c (Number_ (ce_escrowId ev)) = inl e \/
  exists d, getEscrow bs c (Number_ (ce_escrowId ev)) = inr d /\
            stored_row None (create c ev d) = None.

(** A chain, configured as [chainId_], whose node answers and whose
    contract can be read for every record created in the blocks from
    [fromBlock] on, each read giving a row that the columns of the table
    take. *)
Definition healthy (chainId_ : Z) (c : Chain) (fromBlock : Z) : Prop :=
  exists head,
    provider_getBlockNumber c = Some head /\
    forall ev, ev ∈ queryFilterCreated (contract c) fromBlock head ->
      exists d,
        contract_getEscrow (contract c) (Number_ (ce_escrowId ev)) = Some d /\
        is_Some (stored_row None (create chainId_ ev d)).

(** No chain is configured. *)
Definition chain_down : BlockchainService := [].

(** A second chain for the scenario, whose node does not answer. *)
Definition chain2 : Chain := mkChain None (mkContract [] (fun _ => None)).
Definition service2 : BlockchainService := [(2, chain2); (1, chain1)].

End Replica.

(* ===================================================================== *)
(** * Notifications: notification.service.ts, notification.gateway.ts     *)
(* ===================================================================== *)

Module Notifications.
Import Indexer.

Inductive NotificationType :=
| ESCROW_CREATED | ESCROW_FUNDED | ESCROW_RELEASED | ESCROW_REFUNDED
| DISPUTE_OPENED | DISPUTE_RESOLVED.

Record Notification := mkNotification {
  type : NotificationType;
  escrowId : string;
  message : string;
  timestamp : Z;
  data : option string
}.

(** ** notification.service.ts *)

(** The service is its map, [notifications: Map<string, Notification[]>]:
    [gmap string (list Notification)]. *)

(** The array is pushed to, stored, and then shifted when it has grown
    past 50: the map holds the array itself, so it sees the shift. *)
Definition addNotification (address : string) (notification : Notification)
    (notifications : gmap string (list Notification))
    : gmap string (list Notification) :=
  let userNotifications :=
    (default [] (notifications !! toLowerCase address) ++ [notification])%list in
  <[toLowerCase address :=
      (* Keep only last 50 notifications per user *)
      if (50 <? length userNotifications)%nat
      then tail userNotifications else userNotifications]> notifications.

Definition getNotifications (address : string) (notifications : gmap string (list Notification))
    : list Notification :=
  default [] (notifications !! toLowerCase address).

Definition clearNotifications (address : string) (notifications : gmap string (list Notification))
    : gmap string (list Notification) :=
  delete (toLowerCase address) notifications.

(** ** notification.gateway.ts *)

(** A socket, known by its [id]. *)
Record Socket := mkSocket { socket_id : string }.

(** What the gateway sends. *)
Inductive Emission :=
| EmitNotifications (to : Socket) (backlog : list Notification)
    (* client.emit('notifications', ...) *)
| EmitNotification (to : Socket) (notification : Notification)
    (* client.emit('notification', ...) *)
| Broadcast (notification : Notification).
    (* server.emit('notification', ...) *)

(** [connectedClients: Map<string, Socket>], in insertion order as a
    JavaScript [Map] iterates it. *)
Definition Clients := list (string * Socket).

Definition clients_get (k : string) (m : Clients) : option Socket :=
  snd <$> List.find (fun p => String.eqb (fst p) k) m.

Definition clients_delete (k : string) (m : Clients) : Clients :=
  List.filter (fun p => negb (String.eqb (fst p) k)) m.

(** [Map.set]: a key that is present keeps its place. *)
Definition clients_set (k : string) (v : Socket) (m : Clients) : Clients :=
  if existsb (fun p => String.eqb (fst p) k) m
  then map (fun p => if String.eqb (fst p) k then (k, v) else p) m
  else (m ++ [(k, v)])%list.

Record Gateway := mkGateway {
  connectedClients : Clients;
  notificationService : gmap string (list Notification);
  sent : list Emission           (* oldest first *)
}.

(** The loop stops at the first entry whose socket has the id. *)
Fixpoint remove_first_of (client : Socket) (m : Clients) : Clients :=
  match m with
  | [] => []
  | (address, socket) :: rest =>
      if String.eqb (socket_id socket) (socket_id client)
      then rest
      else (address, socket) :: remove_first_of client rest
  end.

Definition handleDisconnect (client : Socket) (g : Gateway) : Gateway :=
  mkGateway (remove_first_of client (connectedClients g))
            (notificationService g) (sent g).

Definition handleSubscribe (client : Socket) (address : string) (g : Gateway) : Gateway :=
  let normalizedAddress := toLowerCase address in
  (* Send existing notifications *)
  let notifications := getNotifications normalizedAddress (notificationService g) in
  mkGateway (clients_set normalizedAddress client (connectedClients g))
            (notificationService g)
            (sent g ++ [EmitNotifications client notifications])%list.

Definition handleUnsubscribe (client : Socket) (address : string) (g : Gateway) : Gateway :=
  let normalizedAddress := toLowerCase address in
  mkGateway (clients_delete normalizedAddress (connectedClients g))
            (notificationService g) (sent g).

Definition sendNotification (address : string) (notification : Notification)
    (g : Gateway) : Gateway :=
  let normalizedAddress := toLowerCase address in
  let sent' :=
    match clients_get normalizedAddress (connectedClients g) with
    | Some client => (sent g ++ [EmitNotification client notification])%list
    | None => sent g
    end in
  (* Store notification *)
  mkGateway (connectedClients g)
            (addNotification normalizedAddress notification (notificationService g))
            sent'.

Definition broadcastNotification (notification : Notification) (g : Gateway) : Gateway :=
  mkGateway (connectedClients g) (notificationService g)
            (sent g ++ [Broadcast notification])%list.

(** The subscriptions the gateway holds for a socket. *)
Definition subscriptions_of (client : Socket) (m : Clients) : Clients :=
  List.filter (fun p => String.eqb (socket_id (snd p)) (socket_id client)) m.

Definition subscriptions_of_others (client : Socket) (m : Clients) : Clients :=
  List.filter (fun p => negb (String.eqb (socket_id (snd p)) (socket_id client))) m.

(** No user has more than fifty notifications stored. *)
Definition capped (s : gmap string (list Notification)) : Prop :=
  forall a, (length (getNotifications a s) <= 50)%nat.

(** Notifications sent one after the other. *)
Definition addAll (msgs : list (string * Notification)) (s : gmap string (list Notification))
    : gmap string (list Notification) :=
  fold_left (fun s' m => addNotification (fst m) (snd m) s') msgs s.

(** The notifications of [msgs] addressed to [address], whatever the case
    of the letters. *)
Definition addressed_to (address : string) (msgs : list (string * Notification))
    : list Notification :=
  snd <$> List.filter (fun m => String.eqb (toLowerCase (fst m)) (toLowerCase address)) msgs.

(** The last [n] elements of a list. *)
Definition last_n {A} (n : nat) (l : list A) : list A := drop (length l - n) l.

Definition note (i : Z) : Notification :=
  mkNotification ESCROW_FUNDED (toString i) "funded" i None.

End Notifications.

(* ===================================================================== *)
(** * Disputes off the chain: dispute.service.ts                          *)
(* ===================================================================== *)

Module Disputes.
Import Indexer.

Inductive DisputeStatus := OPEN | RESOLVED.

(** A row of [disputes]; the two timestamp columns that the database
    fills in are left out. *)
Record Dispute := mkDispute {
  dispute_id : option nat;
  dispute_escrowId : nat;
  opener : string;
  reason : string;
  dispute_status : DisputeStatus;
  resolver : option string;
  inFavorOfClient : option bool;
  resolution : option string;
  resolvedAt : option Z
}.

Record DisputeRepository := mkDisputeRepository {
  disputes : list Dispute;
  nextDisputeId : nat
}.

Inductive DisputeExn :=
| FromEscrowService (e : Replica.ServiceExn)
| DisputeNotFound (id : nat)             (* Dispute with ID ... not found *)
| BadRequestException (message : string).

Definition has_dispute_id (i : nat) (d : Dispute) : bool :=
  match dispute_id d with Some j => Nat.eqb i j | None => false end.

Definition with_dispute_id (d : Dispute) (i : nat) : Dispute :=
  mkDispute (Some i) (dispute_escrowId d) (opener d) (reason d) (dispute_status d)
            (resolver d) (inFavorOfClient d) (resolution d) (resolvedAt d).

(** [save(entity)]: what is returned is the entity as saved. *)
Definition save (repo : DisputeRepository) (d : Dispute) : DisputeRepository * Dispute :=
  match dispute_id d with
  | Some i =>
      if existsb (has_dispute_id i) (disputes repo)
      then (mkDisputeRepository
              (map (fun r => if has_dispute_id i r then d else r) (disputes repo))
              (nextDisputeId repo), d)
      else (mkDisputeRepository (disputes repo ++ [d])%list (nextDisputeId repo), d)
  | None =>
      let d' := with_dispute_id d (nextDisputeId repo) in
      (mkDisputeRepository (disputes repo ++ [d'])%list (S (nextDisputeId repo)), d')
  end.

Definition create (escrows : Repository) (repo : DisputeRepository)
    (escrowId_ : nat) (opener_ reason_ : string)
    : DisputeExn + (DisputeRepository * Dispute) :=
  match Replica.findOne escrows escrowId_ with
  | inl e => inl (FromEscrowService e)
  | inr escrow =>
      if negb (status escrow =? 1) (* EscrowStatus.FUNDED *) then
        inl (BadRequestException "Escrow must be in FUNDED status to open a dispute")
      else
        let normalizedOpener := toLowerCase opener_ in
        if negb (String.eqb normalizedOpener (toLowerCase (client escrow)))
           && negb (String.eqb normalizedOpener (toLowerCase (provider escrow)))
        then inl (BadRequestException "Only client or provider can open a dispute")
        else
          inr (save repo (mkDispute None escrowId_ normalizedOpener reason_ OPEN
                                    None None None None))
  end.

Definition findOne (repo : DisputeRepository) (id_ : nat) : DisputeExn + Dispute :=
  match List.find (has_dispute_id id_) (disputes repo) with
  | Some d => inr d
  | None => inl (DisputeNotFound id_)
  end.


(** The open disputes of the table for one escrow. *)
Definition open_disputes_of (repo : DisputeRepository) (escrowId_ : nat) : list Dispute :=
  List.filter (fun d => Nat.eqb (dispute_escrowId d) escrowId_
                        && match dispute_status d with OPEN => true | RESOLVED => false end)
              (disputes repo).

(** A funded escrow in the table, under key 0. *)
Definition funded_row : Escrow := with_status row0 1.
Definition escrows1 : Repository := mkRepository [funded_row] 1.
Definition no_disputes : DisputeRepository := mkDisputeRepository [] 0.

End Disputes.

(* ===================================================================== *)
(** * The pages of the client: app/escrows                                *)
(* ===================================================================== *)

Module Client.
Import Indexer.

(** [STATUS_MAP[status]?.label], the same table in the list page and in
    the page of one escrow. *)
Definition STATUS_MAP (status_ : Z) : option string :=
  match status_ with
  | 0 => Some "Created"
  | 1 => Some "Funded"
  | 2 => Some "Released"
  | 3 => Some "Refunded"
  | 4 => Some "Disputed"
  | 5 => Some "Resolved"
  | 6 => Some "Cancelled"
  | _ => None
  end.

(** The contract's name for a status, written as the pages write labels. *)
Definition status_name (st : Ledger.EscrowStatus) : string :=
  match st with
  | Ledger.CREATED => "Created"
  | Ledger.FUNDED => "Funded"
  | Ledger.DISPUTED => "Disputed"
  | Ledger.RELEASED => "Released"
  | Ledger.REFUNDED => "Refunded"
  | Ledger.CANCELLED => "Cancelled"
  end.

(** The text under the actions, for the statuses that have one. *)
Definition status_message (status_ : Z) : option string :=
  if status_ =? 2 then Some "Funds have been released to the provider."
  else if status_ =? 3 then Some "Funds have been refunded to the client."
  else None.

(** [address && escrow.client.toLowerCase() === address.toLowerCase()];
    [address] is absent when no wallet is connected. *)
Definition isClient (address : option string) (escrow : Escrow) : bool :=
  match address with
  | Some a => String.eqb (toLowerCase (client escrow)) (toLowerCase a)
  | None => false
  end.

Definition isProvider (address : option string) (escrow : Escrow) : bool :=
  match address with
  | Some a => String.eqb (toLowerCase (provider escrow)) (toLowerCase a)
  | None => false
  end.

Inductive Button := FundEscrowButton | ReleaseFunds | RefundClient | OpenDisputeButton.

(** The buttons of the Actions card, top to bottom. *)
Definition actions (address : option string) (escrow : Escrow) : list Button :=
  ((if isClient address escrow && (status escrow =? 0) then [FundEscrowButton] else []) ++
   (if isClient address escrow && (status escrow =? 1) then [ReleaseFunds] else []) ++
   (if isProvider address escrow && (status escrow =? 1) then [RefundClient] else []) ++
   (if (isClient address escrow || isProvider address escrow)
       && ((status escrow =? 1) || (status escrow =? 0))
    then [OpenDisputeButton] else []))%list.

(** The function a button calls, by its name in the client's ABI. *)
Definition functionName (b : Button) : string :=
  match b with
  | FundEscrowButton => "fundEscrow"
  | ReleaseFunds => "releaseToProvider"
  | RefundClient => "refundToClient"
  | OpenDisputeButton => "openDispute"
  end.

(** ** lib/contracts.ts *)

(** The function entries of [ESCROW_ABI]: name and input types. *)
Definition ESCROW_ABI : list (string * list string) :=
  [ ("createEscrow", ["address"; "address"; "uint256"; "uint256"; "string"]);
    ("fundEscrow", ["uint256"]);
    ("releaseToProvider", ["uint256"]);
    ("refundToClient", ["uint256"]);
    ("openDispute", ["uint256"; "string"]);
    ("resolveDispute", ["uint256"; "uint8"]);
    ("getEscrow", ["uint256"]) ].

(** The functions the contract answers to, name and parameter types: the
    external functions Escrow.sol declares, the getters of its public state
    variables, and those of [Ownable]. *)
Definition contract_functions : list (string * list string) :=
  [ ("createEscrow", ["address"; "address"; "address"; "uint256"; "uint256"; "string"]);
    ("fundEscrow", ["uint256"]);
    ("releaseToProvider", ["uint256"]);
    ("refundToClient", ["uint256"]);
    ("openDispute", ["uint256"]);
    ("resolveDispute", ["uint256"; "bool"]);
    ("cancelEscrow", ["uint256"]);
    ("addArbitrator", ["address"]);
    ("removeArbitrator", ["address"]);
    ("setFeeCollector", ["address"]);
    ("setDefaultFee", ["uint256"]);
    ("getEscrow", ["uint256"]);
    ("getEscrowCount", []);
    ("isArbitrator", ["address"]);
    ("emergencyWithdraw", ["address"; "uint256"]);
    ("escrows", ["uint256"]);
    ("authorizedArbitrators", ["address"]);
    ("defaultFee", []);
    ("MAX_FEE", []);
    ("FEE_DENOMINATOR", []);
    ("feeCollector", []);
    ("collectedFees", ["address"]);
    ("owner", []);
    ("transferOwnership", ["address"]);
    ("renounceOwnership", []) ].

Fixpoint join (sep : string) (l : list string) : string :=
  match l with
  | [] => ""
  | [x] => x
  | x :: rest => x ++ sep ++ join sep rest
  end.

(** The signature a call is dispatched on: the selector is the first four
    bytes of its hash. *)
Definition signature (f : string * list string) : string :=
  fst f ++ "(" ++ join "," (snd f) ++ ")".

(** A call encoded for [f] reaches a function of the contract. *)
Definition dispatches (f : string * list string) : bool :=
  existsb (fun g => String.eqb (signature g) (signature f)) contract_functions.

Definition abi_entry (name : string) : option (string * list string) :=
  List.find (fun f => String.eqb (fst f) name) ESCROW_ABI.

End Client.

(* ===================================================================== *)
(** * Facts about the contract                                            *)
(* ===================================================================== *)

Module LedgerFacts.
Import Ledger.

(** ** Reading the storage after a write *)

Create Rewrite HintDb storage.

Lemma escrowAt_set_entered s b i : escrowAt (set_entered s b) i = escrowAt s i.
Proof. reflexivity. Qed.
Lemma escrowAt_set_collectedFees s m i :
  escrowAt (set_collectedFees s m) i = escrowAt s i.
Proof. reflexivity. Qed.
Lemma escrowAt_store_status s i st :
  escrowAt (store_status s i st) i = with_status (escrowAt s i) st.
Proof. unfold escrowAt, store_status; cbn. by rewrite lookup_insert_eq. Qed.
Lemma escrowAt_store_status_ne s i j st :
  i <> j -> escrowAt (store_status s i st) j = escrowAt s j.
Proof. intros Hne. unfold escrowAt, store_status; cbn. by rewrite lookup_insert_ne. Qed.
Lemma isAuthorized_set_entered s b a :
  isAuthorized (set_entered s b) a = isAuthorized s a.
Proof. reflexivity. Qed.
Lemma isAuthorized_store_status s i st a :
  isAuthorized (store_status s i st) a = isAuthorized s a.
Proof. reflexivity. Qed.
Lemma entered_store_status s i st : _entered (store_status s i st) = _entered s.
Proof. reflexivity. Qed.
Lemma entered_set_entered s b : _entered (set_entered s b) = b.
Proof. reflexivity. Qed.
Lemma entered_set_collectedFees s m : _entered (set_collectedFees s m) = _entered s.
Proof. reflexivity. Qed.
Lemma feeCollector_set_entered s b : feeCollector (set_entered s b) = feeCollector s.
Proof. reflexivity. Qed.
Lemma feeCollector_store_status s i st :
  feeCollector (store_status s i st) = feeCollector s.
Proof. reflexivity. Qed.
Lemma collectedFeesAt_set_entered s b a :
  collectedFeesAt (set_entered s b) a = collectedFeesAt s a.
Proof. reflexivity. Qed.
Lemma collectedFeesAt_store_status s i st a :
  collectedFeesAt (store_status s i st) a = collectedFeesAt s a.
Proof. reflexivity. Qed.
Lemma collectedFeesAt_set_collectedFees s m a v :
  collectedFeesAt (set_collectedFees s (<[a := v]> m)) a = v.
Proof. unfold collectedFeesAt; cbn. by rewrite lookup_insert_eq. Qed.
Lemma storage_set_storage w s : storage (set_storage w s) = s.
Proof. reflexivity. Qed.

#[global] Hint Rewrite escrowAt_set_entered escrowAt_set_collectedFees
  escrowAt_store_status isAuthorized_set_entered isAuthorized_store_status
  entered_store_status entered_set_entered entered_set_collectedFees
  feeCollector_set_entered feeCollector_store_status collectedFeesAt_set_entered
  collectedFeesAt_store_status collectedFeesAt_set_collectedFees
  storage_set_storage : storage.

#[global] Arguments escrowAt : simpl never.
#[global] Arguments isAuthorized : simpl never.
#[global] Arguments collectedFeesAt : simpl never.
#[global] Arguments store_status : simpl never.
#[global] Arguments set_entered : simpl never.
#[global] Arguments set_collectedFees : simpl never.
#[global] Arguments set_storage : simpl never.
#[global] Arguments ext_call : simpl never.
#[global] Arguments move_eth : simpl never.
#[global] Opaque MAX_UINT256.

(** The flag raised and lowered around a body leaves the storage it found. *)
Lemma leave_after_store s i st :
  _entered s = false ->
  set_entered (store_status (set_entered s true) i st) false = store_status s i st.
Proof. destruct s; cbn; intros ->; reflexivity. Qed.

Lemma set_storage_storage w : set_storage w (storage w) = w.
Proof. by destruct w. Qed.

Lemma move_eth_zero w a b : move_eth w a b 0 = w.
Proof. reflexivity. Qed.

Lemma storage_move_eth w a b v : storage (move_eth w a b v) = storage w.
Proof. unfold move_eth. by destruct (v =? 0). Qed.
Lemma storage_move_token w t a b v : storage (move_token w t a b v) = storage w.
Proof. unfold move_token. by destruct (v =? 0). Qed.
Lemma storage_spend_allowance w t a b v :
  storage (spend_allowance w t a b v) = storage w.
Proof. unfold spend_allowance. by case_match. Qed.

Lemma passive_quiet accepts : quiet (passive accepts).
Proof. intros a w w'; cbn. destruct (accepts a); congruence. Qed.

Lemma ext_call_quiet env self w c w' :
  quiet env -> ext_call env self w c = Some w' -> storage w' = storage w.
Proof.
  intros Hq. unfold ext_call. destruct c; case_match; try discriminate.
  - intros Hr%Hq. by rewrite Hr, storage_move_eth.
  - intros [= <-]. by rewrite storage_move_token.
  - intros [= <-]. by rewrite storage_move_token, storage_spend_allowance.
Qed.

(** ** Running a function symbolically *)

Ltac exec :=
  repeat (progress (cbn -[Z.mul Z.div Z.sub Z.add Z.leb Z.ltb Z.eqb];
                    autorewrite with storage)).

Ltac head_if t :=
  lazymatch t with
  | ebind ?e _ => head_if e
  | mbind ?m _ _ => head_if m
  | mbind ?m _ => head_if m
  | require ?c _ _ => c
  | require ?c _ => c
  | (if ?c then _ else _) _ => c
  | (if ?c then _ else _) => c
  end.

Ltac branch :=
  lazymatch goal with
  | |- context [run _ _ _ _ _ ?t] => let c := head_if t in destruct c eqn:?
  end.

Ltac call_split Hq :=
  lazymatch goal with
  | |- context [ext_call ?e ?s ?w ?c] =>
      let Hcall := fresh "Hcall" in
      let Hs := fresh "Hs" in
      destruct (ext_call e s w c) eqn:Hcall;
      [ pose proof (ext_call_quiet _ _ _ _ _ Hq Hcall) as Hs;
        autorewrite with storage in Hs; rewrite ?Hs | ]
  end.

Ltac bool_hyps :=
  repeat match goal with
  | H : _ && _ = true |- _ => apply andb_prop in H as [? ?]
  | H : (_ <=? _) = true |- _ => apply Z.leb_le in H
  | H : (_ <=? _) = false |- _ => apply Z.leb_gt in H
  | H : (_ <? _) = true |- _ => apply Z.ltb_lt in H
  | H : (_ <? _) = false |- _ => apply Z.ltb_ge in H
  | H : (_ =? _) = true |- _ => apply Z.eqb_eq in H
  | H : (_ =? _) = false |- _ => apply Z.eqb_neq in H
  end.

Ltac unfold_contract :=
  unfold fundEscrow, releaseToProvider, refundToClient, openDispute,
    resolveDispute, cancelEscrow, nonReentrant, escrowExists, inStatus,
    onlyClient, onlyArbitrator, escrow_field, checked_mul, checked_sub,
    checked_add, checked, safeTransfer, safeTransferFrom.

(** A call without value runs the body on the world as it is. *)
Lemma transact_no_value {A} payable env w ctx (body : M A) :
  msg_value ctx = 0 ->
  transact payable env w ctx body =
  match run env (this ctx) w [] [] (body (storage w)) with
  | inr r => (world r, Success (returned r) (events r) (transfers r))
  | inl err => (w, Reverted err)
  end.
Proof.
  intros Hv. unfold transact. rewrite Hv. cbn [Z.eqb negb andb].
  rewrite andb_false_r. reflexivity.
Qed.

(** ** The scenario of the specification, run *)

Example genesis_is_deployed : deploy owner_ collector_ = inr (storage genesis).
Proof. reflexivity. Qed.

Example scenario_create :
  transact false everyone w_ready (by_ client_ 0)
           (createEscrow (by_ client_ 0) provider_ 0 0 1000000 0 "x")
  = (w_created, Success 0 [EscrowCreated 0 client_ provider_ 0 1000000 0] []) /\
  status (escrowAt (storage w_created) 0) = CREATED /\
  fee (escrowAt (storage w_created) 0) = 250.
Proof. vm_compute. repeat split; reflexivity. Qed.

Example scenario_fund :
  transact true everyone w_created (by_ client_ 1000000)
           (fundEscrow (by_ client_ 1000000) 0)
  = (w_funded, Success tt [EscrowFunded 0 client_ 1000000] []) /\
  status (escrowAt (storage w_funded) 0) = FUNDED /\
  balanceOf w_funded escrow_address = 1000000 /\
  balanceOf w_funded client_ = 4000000.
Proof. vm_compute. repeat split; reflexivity. Qed.

Example scenario_release :
  transact false everyone w_funded (by_ client_ 0)
           (releaseToProvider (by_ client_ 0) 0)
  = (w_released,
     Success tt [EscrowReleased 0 provider_ 975000 25000]
                [SendValue provider_ 975000; SendValue collector_ 25000]) /\
  status (escrowAt (storage w_released) 0) = RELEASED /\
  balanceOf w_released provider_ = 975000 /\
  balanceOf w_released collector_ = 25000 /\
  balanceOf w_released escrow_address = 0.
Proof. vm_compute. repeat split; reflexivity. Qed.

Example scenario_second_release :
  transact false everyone w_released (by_ client_ 0)
           (releaseToProvider (by_ client_ 0) 0)
  = (w_released, Reverted (Error_ "Invalid escrow status")).
Proof. vm_compute. reflexivity. Qed.

Example scenario_dispute_unfunded :
  transact false everyone w_created (by_ client_ 0) (openDispute (by_ client_ 0) 0)
  = (w_created, Reverted (Error_ "Invalid escrow status")).
Proof. vm_compute. reflexivity. Qed.

Example scenario_fee_too_high :
  transact false everyone w_ready (by_ owner_ 0) (setDefaultFee (by_ owner_ 0) 1001)
  = (w_ready, Reverted (Error_ "Fee exceeds maximum")).
Proof. vm_compute. reflexivity. Qed.

(** ** C2: the fee split *)

(** What a run of [releaseToProvider] that returns has done. *)
Lemma release_run env self w0 ctx id s r :
  quiet env ->
  status (escrowAt s id) = FUNDED ->
  run env self w0 [] [] (releaseToProvider ctx id s) = inr r ->
  let e := escrowAt s id in
  let feeAmount := amount e * fee e / FEE_DENOMINATOR in
  let providerAmount := amount e - feeAmount in
  let pay to v :=
    if token e =? 0 then SendValue to v else TokenTransfer (token e) to v in
  transfers r = pay (provider e) providerAmount ::
                (if 0 <? feeAmount then [pay (feeCollector s) feeAmount] else []) /\
  events r = [EscrowReleased id (provider e) providerAmount feeAmount] /\
  0 <= feeAmount /\ 0 <= providerAmount /\
  status (escrowAt (storage (world r)) id) = RELEASED /\
  collectedFeesAt (storage (world r)) (token e) = collectedFeesAt s (token e) + feeAmount.
Proof.
  intros Hq Hst. unfold_contract. exec.
  destruct (_entered s) eqn:Hg; exec; [discriminate|].
  destruct (client (escrowAt s id) =? 0) eqn:Hc; exec; [discriminate|].
  rewrite Hst. exec.
  branch; exec; [|discriminate].
  branch; exec; [|discriminate].
  branch; exec; [|discriminate].
  bool_hyps.
  match goal with H : 0 <= ?a * ?b |- _ =>
    pose proof (Z.div_pos (a * b) FEE_DENOMINATOR H eq_refl) end.
  branch; exec.
  - call_split Hq; exec; [|discriminate].
    branch; exec.
    + call_split Hq; exec; [|discriminate].
      branch; exec; [|discriminate].
      intros [= <-]. exec. bool_hyps.
      match goal with H : token _ = 0 |- _ => rewrite !H end.
      exec. repeat split; try reflexivity; try lia.
    + intros [= <-]. exec. bool_hyps.
      repeat split; try reflexivity; try lia.
  - call_split Hq; exec; [|discriminate].
    branch; exec.
    + call_split Hq; exec; [|discriminate].
      branch; exec; [|discriminate].
      intros [= <-]. exec. bool_hyps.
      repeat split; try reflexivity; try lia.
    + intros [= <-]. exec. bool_hyps.
      repeat split; try reflexivity; try lia.
Qed.

(** A call without value that succeeds is a run that returns. *)
Lemma transact_success {A} env w w' ctx (body : M A) a evs cs :
  transact false env w ctx body = (w', Success a evs cs) ->
  exists r, run env (this ctx) w [] [] (body (storage w)) = inr r /\
            world r = w' /\ returned r = a /\ events r = evs /\ transfers r = cs.
Proof.
  unfold transact.
  destruct (negb false && negb (msg_value ctx =? 0)) eqn:Hv; [discriminate|].
  cbn [negb andb] in Hv. apply negb_false_iff, Z.eqb_eq in Hv. rewrite Hv.
  cbn [Z.eqb negb andb]. rewrite move_eth_zero.
  destruct (run env (this ctx) w [] [] (body (storage w))) as [err | r];
    [discriminate|].
  intros [= <- <- <- <-]. exists r. auto.
Qed.

(** C2. A release of a FUNDED record with amount A and fee rate F that goes
    through makes exactly these transfers: A - floor(A*F/10000) to the
    provider and, when it is not zero, floor(A*F/10000) to the fee collector;
    the event carries the same two amounts, they sum to A, and the fee is
    added to the collected fees of the asset. *)
Theorem release_pays_exact_split env w w' ctx id evs cs :
  quiet env ->
  status (escrowAt (storage w) id) = FUNDED ->
  transact false env w ctx (releaseToProvider ctx id) = (w', Success tt evs cs) ->
  let e := escrowAt (storage w) id in
  let feeAmount := amount e * fee e / FEE_DENOMINATOR in
  let providerAmount := amount e - feeAmount in
  let pay to v :=
    if token e =? 0 then SendValue to v else TokenTransfer (token e) to v in
  cs = pay (provider e) providerAmount ::
       (if 0 <? feeAmount then [pay (feeCollector (storage w)) feeAmount] else []) /\
  evs = [EscrowReleased id (provider e) providerAmount feeAmount] /\
  providerAmount + feeAmount = amount e /\
  0 <= feeAmount /\ 0 <= providerAmount /\
  status (escrowAt (storage w') id) = RELEASED /\
  collectedFeesAt (storage w') (token e) =
    collectedFeesAt (storage w) (token e) + feeAmount.
Proof.
  intros Hq Hst Hrun e feeAmount providerAmount pay.
  apply transact_success in Hrun as (r & Hrun & <- & _ & <- & <-).
  destruct (release_run _ _ _ _ _ _ _ Hq Hst Hrun)
    as (Hcs & Hevs & Hfee & Hprov & Hfin & Hcol).
  split; [exact Hcs|]. split; [exact Hevs|].
  split; [subst providerAmount; lia|].
  split; [exact Hfee|]. split; [exact Hprov|].
  split; [exact Hfin | exact Hcol].
Qed.

(** The scenario of the specification: 1000000 at 250 basis points. *)
Lemma release_pays_exact_split_witness :
  status (escrowAt (storage w_funded) 0) = FUNDED /\
  transact false everyone w_funded (by_ client_ 0)
           (releaseToProvider (by_ client_ 0) 0)
  = (w_released,
     Success tt [EscrowReleased 0 provider_ 975000 25000]
                [SendValue provider_ 975000; SendValue collector_ 25000]) /\
  975000 + 25000 = 1000000 /\
  status (escrowAt (storage w_released) 0) = RELEASED /\
  collectedFeesAt (storage w_released) 0 = 25000.
Proof.
  assert (Hst : status (escrowAt (storage w_funded) 0) = FUNDED)
    by (vm_compute; reflexivity).
  assert (Hrun : transact false everyone w_funded (by_ client_ 0)
                          (releaseToProvider (by_ client_ 0) 0)
                 = (w_released,
                    Success tt [EscrowReleased 0 provider_ 975000 25000]
                      [SendValue provider_ 975000; SendValue collector_ 25000]))
    by (vm_compute; reflexivity).
  pose proof (release_pays_exact_split everyone w_funded w_released
                (by_ client_ 0) 0 _ _ (passive_quiet _) Hst Hrun) as H.
  cbv zeta in H. destruct H as (_ & _ & _ & _ & _ & Hfin & Hfees).
  split; [exact Hst|]. split; [exact Hrun|].
  split; [vm_compute; reflexivity|]. split; [exact Hfin|].
  replace (token (escrowAt (storage w_funded) 0)) with 0 in Hfees
    by (vm_compute; reflexivity).
  rewrite Hfees. vm_compute. reflexivity.
Defined.

(** ** C1: terminal records *)

Lemma transact_revert {A} payable env w ctx (body : M A) err :
  body (storage w) = Revert err ->
  affordable w ctx ->
  payable = true \/ msg_value ctx = 0 ->
  transact payable env w ctx body = (w, Reverted err).
Proof.
  intros Hbody Hv Hp. unfold transact. rewrite Hbody.
  destruct (msg_value ctx =? 0) eqn:Hz.
  - cbn. by rewrite andb_false_r.
  - apply Z.eqb_neq in Hz. destruct Hp as [-> | ?]; [|done].
    destruct Hv as [? | [H1 H2]]; [done|].
    apply Z.ltb_lt in H1. apply Z.leb_le in H2. cbn. by rewrite H1, H2.
Qed.

Section Terminal.
Variables (ctx : Ctx) (id : Z) (s : Storage).
Hypothesis Hexists : client (escrowAt s id) <> 0.
Hypothesis Hterminal : is_terminal (status (escrowAt s id)) = true.

Ltac wrong_status :=
  unfold_contract; exec;
  rewrite ?(proj2 (Z.eqb_neq _ _) Hexists); exec;
  destruct (status (escrowAt s id)); try discriminate Hterminal; reflexivity.

Lemma fundEscrow_terminal :
  _entered s = false ->
  fundEscrow ctx id s = Revert (Error_ "Invalid escrow status").
Proof. intros Hg. unfold_contract. exec. rewrite Hg. wrong_status. Qed.

Lemma releaseToProvider_terminal :
  _entered s = false ->
  releaseToProvider ctx id s = Revert (Error_ "Invalid escrow status").
Proof. intros Hg. unfold_contract. exec. rewrite Hg. wrong_status. Qed.

Lemma openDispute_terminal :
  openDispute ctx id s = Revert (Error_ "Invalid escrow status").
Proof. wrong_status. Qed.

Lemma resolveDispute_terminal b :
  resolveDispute ctx id b s = Revert (Error_ "Invalid escrow status").
Proof. wrong_status. Qed.

Lemma cancelEscrow_terminal :
  cancelEscrow ctx id s = Revert (Error_ "Invalid escrow status").
Proof. wrong_status. Qed.

Lemma refundToClient_terminal :
  _entered s = false ->
  refundToClient ctx id s =
  Revert (if may_arbitrate s id (msg_sender ctx)
          then Error_ "Invalid status for refund"
          else Error_ "Not an authorized arbitrator").
Proof.
  intros Hg. unfold_contract. exec. rewrite Hg. exec.
  rewrite (proj2 (Z.eqb_neq _ _) Hexists). exec.
  unfold may_arbitrate.
  destruct (isAuthorized s (msg_sender ctx) || _); exec; [|reflexivity].
  destruct (status (escrowAt s id)); try discriminate Hterminal; reflexivity.
Qed.
End Terminal.

(** C1, as the code has it. On a record that is RELEASED, REFUNDED or
    CANCELLED every state-changing function reverts and the world stays as
    it was: with the invalid-status message for fund, release, openDispute,
    resolveDispute and cancel, whoever calls; for refund with its own
    invalid-status message when the caller may arbitrate the record, and
    with the arbitrator check's message when not (that check comes first). *)
Theorem terminal_record_is_final env w ctx id :
  _entered (storage w) = false ->
  client (escrowAt (storage w) id) <> 0 ->
  is_terminal (status (escrowAt (storage w) id)) = true ->
  affordable w ctx ->
  transact true env w ctx (fundEscrow ctx id)
    = (w, Reverted (Error_ "Invalid escrow status")) /\
  (msg_value ctx = 0 ->
   transact false env w ctx (releaseToProvider ctx id)
     = (w, Reverted (Error_ "Invalid escrow status")) /\
   transact false env w ctx (openDispute ctx id)
     = (w, Reverted (Error_ "Invalid escrow status")) /\
   (forall b, transact false env w ctx (resolveDispute ctx id b)
     = (w, Reverted (Error_ "Invalid escrow status"))) /\
   transact false env w ctx (cancelEscrow ctx id)
     = (w, Reverted (Error_ "Invalid escrow status")) /\
   transact false env w ctx (refundToClient ctx id)
     = (w, Reverted (if may_arbitrate (storage w) id (msg_sender ctx)
                     then Error_ "Invalid status for refund"
                     else Error_ "Not an authorized arbitrator"))).
Proof.
  intros Hg Hex Hterm Hv. split.
  - apply transact_revert; auto using fundEscrow_terminal.
  - intros Hz. repeat split; intros; apply transact_revert;
      auto using releaseToProvider_terminal, openDispute_terminal,
        resolveDispute_terminal, cancelEscrow_terminal, refundToClient_terminal.
Qed.

(** After the release of the scenario: the client tries each function. *)
Lemma terminal_record_is_final_witness :
  status (escrowAt (storage w_released) 0) = RELEASED /\
  transact true everyone w_released (by_ client_ 0) (fundEscrow (by_ client_ 0) 0)
    = (w_released, Reverted (Error_ "Invalid escrow status")) /\
  transact false everyone w_released (by_ client_ 0)
           (releaseToProvider (by_ client_ 0) 0)
    = (w_released, Reverted (Error_ "Invalid escrow status")) /\
  transact false everyone w_released (by_ client_ 0)
           (refundToClient (by_ client_ 0) 0)
    = (w_released, Reverted (Error_ "Not an authorized arbitrator")).
Proof.
  assert (Hg : _entered (storage w_released) = false) by (vm_compute; reflexivity).
  assert (Hex : client (escrowAt (storage w_released) 0) <> 0)
    by (vm_compute; discriminate).
  assert (Hterm : is_terminal (status (escrowAt (storage w_released) 0)) = true)
    by (vm_compute; reflexivity).
  assert (Hv : affordable w_released (by_ client_ 0)) by (left; reflexivity).
  destruct (terminal_record_is_final everyone w_released (by_ client_ 0) 0
              Hg Hex Hterm Hv) as [Hfund Hrest].
  destruct (Hrest eq_refl) as (Hrel & _ & _ & _ & Href).
  split; [vm_compute; reflexivity|].
  split; [exact Hfund | split; [exact Hrel | exact Href]].
Defined.

(** C1 as worded fails for refund: called by someone who may not arbitrate,
    here the client, it is refused by the arbitrator check, not with an
    invalid-status message. *)
Lemma terminal_refund_not_invalid_state :
  status (escrowAt (storage w_released) 0) = RELEASED /\
  exists err,
    transact false everyone w_released (by_ client_ 0)
             (refundToClient (by_ client_ 0) 0)
    = (w_released, Reverted err) /\
    ~ invalid_state err.
Proof.
  split; [vm_compute; reflexivity|].
  exists (Error_ "Not an authorized arbitrator"). split.
  - vm_compute; reflexivity.
  - intros [H | H]; discriminate H.
Qed.

(** ** C4: funding a native-asset record *)

(** C4. On a CREATED native-asset record the client's fund goes through
    exactly when the value sent equals the amount: it then leaves the record
    FUNDED with the value in the contract; any other value is refused with
    the wrong-amount message and the world stays as it was. *)
Theorem fund_native_exact env w ctx id :
  _entered (storage w) = false ->
  client (escrowAt (storage w) id) <> 0 ->
  status (escrowAt (storage w) id) = CREATED ->
  token (escrowAt (storage w) id) = 0 ->
  msg_sender ctx = client (escrowAt (storage w) id) ->
  affordable w ctx ->
  (msg_value ctx = amount (escrowAt (storage w) id) ->
   exists w',
     transact true env w ctx (fundEscrow ctx id)
       = (w', Success tt [EscrowFunded id (msg_sender ctx) (msg_value ctx)] []) /\
     w' = set_storage (move_eth w (msg_sender ctx) (this ctx) (msg_value ctx))
                      (store_status (storage w) id FUNDED) /\
     status (escrowAt (storage w') id) = FUNDED) /\
  (msg_value ctx <> amount (escrowAt (storage w) id) ->
   transact true env w ctx (fundEscrow ctx id)
     = (w, Reverted (Error_ "Incorrect ETH amount"))).
Proof.
  intros Hg Hex Hst Htok Hsender Hv.
  assert (Hbody : fundEscrow ctx id (storage w) =
            if msg_value ctx =? amount (escrowAt (storage w) id)
            then Emit (EscrowFunded id (msg_sender ctx) (amount (escrowAt (storage w) id)))
                      (Ret (tt, store_status (storage w) id FUNDED))
            else Revert (Error_ "Incorrect ETH amount")).
  { unfold_contract. exec. rewrite Hg. exec.
    rewrite (proj2 (Z.eqb_neq _ _) Hex). exec. rewrite Hst. exec.
    rewrite Hsender, Z.eqb_refl. exec. rewrite Htok.
    change (0 =? 0) with true. exec.
    destruct (msg_value ctx =? amount _); exec; [|reflexivity].
    by rewrite leave_after_store. }
  split.
  - intros Heq. eexists. split; [|split; [reflexivity|]].
    + unfold transact. rewrite Hbody, Heq, Z.eqb_refl. rewrite <- Heq.
      cbn [negb andb].
      destruct Hv as [Hz | [H1 H2]].
      * rewrite Hz. reflexivity.
      * apply Z.ltb_lt in H1. apply Z.leb_le in H2. rewrite H1, H2.
        rewrite andb_false_r. reflexivity.
    + exec. reflexivity.
  - intros Hne. apply transact_revert; [|assumption|by left].
    rewrite Hbody. by rewrite (proj2 (Z.eqb_neq _ _) Hne).
Qed.

Lemma fund_native_exact_witness :
  (exists w',
     transact true everyone w_created (by_ client_ 1000000)
              (fundEscrow (by_ client_ 1000000) 0)
       = (w', Success tt [EscrowFunded 0 client_ 1000000] []) /\
     status (escrowAt (storage w') 0) = FUNDED) /\
  transact true everyone w_created (by_ client_ 999999)
           (fundEscrow (by_ client_ 999999) 0)
    = (w_created, Reverted (Error_ "Incorrect ETH amount")) /\
  transact true everyone w_created (by_ client_ 1000001)
           (fundEscrow (by_ client_ 1000001) 0)
    = (w_created, Reverted (Error_ "Incorrect ETH amount")).
Proof.
  assert (Hg : _entered (storage w_created) = false) by (vm_compute; reflexivity).
  assert (Hex : client (escrowAt (storage w_created) 0) <> 0)
    by (vm_compute; discriminate).
  assert (Hst : status (escrowAt (storage w_created) 0) = CREATED)
    by (vm_compute; reflexivity).
  assert (Htok : token (escrowAt (storage w_created) 0) = 0)
    by (vm_compute; reflexivity).
  assert (Hbal : balanceOf w_created client_ = 5000000) by (vm_compute; reflexivity).
  assert (Hv : forall v, 0 < v <= 5000000 -> affordable w_created (by_ client_ v)).
  { intros v Hr. right. cbn. rewrite Hbal. exact Hr. }
  split; [|split].
  - destruct (fund_native_exact everyone w_created (by_ client_ 1000000) 0
                Hg Hex Hst Htok eq_refl (Hv 1000000 ltac:(lia))) as [Hok _].
    destruct (Hok eq_refl) as (w' & Hrun & _ & Hfin).
    exists w'. split; assumption.
  - apply (fund_native_exact everyone w_created (by_ client_ 999999) 0
             Hg Hex Hst Htok eq_refl (Hv 999999 ltac:(lia))).
    vm_compute; discriminate.
  - apply (fund_native_exact everyone w_created (by_ client_ 1000001) 0
             Hg Hex Hst Htok eq_refl (Hv 1000001 ltac:(lia))).
    vm_compute; discriminate.
Defined.

(** ** C5: refund *)

(** C5. Called by someone who may arbitrate the record, refund on a
    FUNDED or DISPUTED record stores REFUNDED and then makes one transfer:
    the whole amount to the client. When the transfer goes through that is
    all that happens (no fee is taken or recorded); when it does not, the
    call reverts and the world stays as it was. In any other status the call
    reverts with the invalid-status message. *)
Theorem refund_returns_full_amount env w ctx id :
  quiet env ->
  _entered (storage w) = false ->
  client (escrowAt (storage w) id) <> 0 ->
  may_arbitrate (storage w) id (msg_sender ctx) = true ->
  msg_value ctx = 0 ->
  let e := escrowAt (storage w) id in
  let pay := if token e =? 0 then SendValue (client e) (amount e)
             else TokenTransfer (token e) (client e) (amount e) in
  let at_call :=
    set_storage w (store_status (set_entered (storage w) true) id REFUNDED) in
  (status e = FUNDED \/ status e = DISPUTED ->
   (forall w1, ext_call env (this ctx) at_call pay = Some w1 ->
      transact false env w ctx (refundToClient ctx id)
        = (set_storage w1 (store_status (storage w) id REFUNDED),
           Success tt [EscrowRefunded id (client e) (amount e)] [pay]) /\
      status (escrowAt (store_status (storage w) id REFUNDED) id) = REFUNDED /\
      collectedFees (store_status (storage w) id REFUNDED) = collectedFees (storage w)) /\
   (ext_call env (this ctx) at_call pay = None ->
      transact false env w ctx (refundToClient ctx id)
        = (w, Reverted (if token e =? 0 then Error_ "Refund transfer failed"
                        else TokenCallFailed (token e))))) /\
  (status e <> FUNDED -> status e <> DISPUTED ->
   transact false env w ctx (refundToClient ctx id)
     = (w, Reverted (Error_ "Invalid status for refund"))).
Proof.
  intros Hq Hg Hex Harb Hv e pay at_call. subst e pay at_call.
  unfold may_arbitrate in Harb.
  rewrite transact_no_value by assumption.
  unfold_contract. exec. rewrite Hg. exec.
  rewrite (proj2 (Z.eqb_neq _ _) Hex). exec. rewrite Harb. exec.
  split.
  - intros Hst.
    assert (Hok : status_eqb (status (escrowAt (storage w) id)) FUNDED
                  || status_eqb (status (escrowAt (storage w) id)) DISPUTED = true)
      by (destruct Hst as [-> | ->]; reflexivity).
    rewrite Hok. exec.
    destruct (token (escrowAt (storage w) id) =? 0) eqn:Htok; exec.
    + split.
      * intros w1 Hcall. rewrite Hcall.
        pose proof (ext_call_quiet _ _ _ _ _ Hq Hcall) as Hs.
        autorewrite with storage in Hs. rewrite Hs. exec.
        rewrite leave_after_store by assumption. auto.
      * intros Hcall. rewrite Hcall. exec. reflexivity.
    + split.
      * intros w1 Hcall. rewrite Hcall.
        pose proof (ext_call_quiet _ _ _ _ _ Hq Hcall) as Hs.
        autorewrite with storage in Hs. rewrite Hs. exec.
        rewrite leave_after_store by assumption. auto.
      * intros Hcall. rewrite Hcall. exec. reflexivity.
  - intros H1 H2.
    destruct (status (escrowAt (storage w) id)); try congruence; reflexivity.
Qed.

(** The arbitrator of the test-suite refunds the funded and the disputed
    record of the scenario, and is refused on the released one. *)
Lemma refund_returns_full_amount_witness :
  (exists w',
     transact false everyone w_funded (by_ arbitrator_ 0)
              (refundToClient (by_ arbitrator_ 0) 0)
     = (w', Success tt [EscrowRefunded 0 client_ 1000000]
                       [SendValue client_ 1000000])) /\
  (exists w',
     transact false everyone w_disputed (by_ arbitrator_ 0)
              (refundToClient (by_ arbitrator_ 0) 0)
     = (w', Success tt [EscrowRefunded 0 client_ 1000000]
                       [SendValue client_ 1000000])) /\
  transact false everyone w_released (by_ arbitrator_ 0)
           (refundToClient (by_ arbitrator_ 0) 0)
  = (w_released, Reverted (Error_ "Invalid status for refund")).
Proof.
  pose proof (passive_quiet (fun _ => true)) as Hq.
  split; [|split].
  - edestruct (refund_returns_full_amount everyone w_funded (by_ arbitrator_ 0) 0)
      as [Hok _]; [exact Hq | vm_compute; reflexivity | vm_compute; discriminate
                  | vm_compute; reflexivity | reflexivity |].
    destruct (Hok ltac:(left; vm_compute; reflexivity)) as [Hsome _].
    eexists. eapply Hsome. vm_compute. reflexivity.
  - edestruct (refund_returns_full_amount everyone w_disputed (by_ arbitrator_ 0) 0)
      as [Hok _]; [exact Hq | vm_compute; reflexivity | vm_compute; discriminate
                  | vm_compute; reflexivity | reflexivity |].
    destruct (Hok ltac:(right; vm_compute; reflexivity)) as [Hsome _].
    eexists. eapply Hsome. vm_compute. reflexivity.
  - eapply (refund_returns_full_amount everyone w_released (by_ arbitrator_ 0) 0);
      [exact Hq | vm_compute; reflexivity | vm_compute; discriminate
      | vm_compute; reflexivity | reflexivity
      | vm_compute; discriminate | vm_compute; discriminate].
Defined.

(** ** C3: resolving a dispute *)

Lemma set_storage_twice w s1 s2 : set_storage (set_storage w s1) s2 = set_storage w s2.
Proof. reflexivity. Qed.

(** A run does not look at the storage of the world it is given: the tree
    carries its own. *)
Lemma run_set_storage {A} env self w s (e : Exec (A * Storage)) :
  forall evs cs,
    run env self (set_storage w s) evs cs e = run env self w evs cs e.
Proof.
  induction e as [r | err | ev k IH | s' c k _]; intros evs cs; cbn.
  - reflexivity.
  - reflexivity.
  - apply IH.
  - rewrite set_storage_twice. reflexivity.
Qed.

(** Events logged before a run stay in front of those of the run. *)
Lemma run_events_before {A} env self (e : Exec (A * Storage)) :
  forall w pre evs cs,
    run env self w (pre ++ evs) cs e =
    match run env self w evs cs e with
    | inr r => inr (mkReceipt (returned r) (world r) (pre ++ events r) (transfers r))
    | inl err => inl err
    end.
Proof.
  induction e as [r | err | ev k IH | s c k IH]; intros w pre evs cs; cbn.
  - reflexivity.
  - reflexivity.
  - rewrite <- app_assoc. apply IH.
  - destruct (ext_call env self (set_storage w s) c); apply IH.
Qed.

Section Resolve.
Variables (ctx : Ctx) (id : Z) (s : Storage).
Hypothesis Hexists : client (escrowAt s id) <> 0.
Hypothesis Hdisputed : status (escrowAt s id) = DISPUTED.
Hypothesis Harbitrator : may_arbitrate s id (msg_sender ctx) = true.

Ltac enter_resolve :=
  unfold resolveDispute, escrowExists, inStatus, onlyArbitrator, escrow_field;
  cbn -[refundToClient releaseToProvider];
  rewrite (proj2 (Z.eqb_neq _ _) Hexists);
  cbn -[refundToClient releaseToProvider];
  rewrite Hdisputed;
  cbn -[refundToClient releaseToProvider];
  unfold may_arbitrate in Harbitrator; rewrite Harbitrator;
  cbn -[refundToClient releaseToProvider].

(** In favour of the client: the decision is logged, then [refundToClient]
    runs on the storage as it is. *)
Lemma resolveDispute_client :
  resolveDispute ctx id true s =
  Emit (DisputeResolved id (msg_sender ctx) true) (refundToClient ctx id s).
Proof. enter_resolve. reflexivity. Qed.

(** In favour of the provider: the decision is logged, the status is put
    back to FUNDED, then [releaseToProvider] runs. *)
Lemma resolveDispute_provider :
  resolveDispute ctx id false s =
  Emit (DisputeResolved id (msg_sender ctx) false)
       (releaseToProvider ctx id (store_status s id FUNDED)).
Proof. enter_resolve. reflexivity. Qed.
End Resolve.

Lemma transact_emit_first {A} env w w0 ctx ev (t : Exec (A * Storage)) (body body' : M A) :
  body (storage w) = Emit ev t ->
  body' (storage w0) = t ->
  w0 = set_storage w (storage w0) ->
  transact false env w ctx body = announced ev w (transact false env w0 ctx body').
Proof.
  intros Hbody Hbody' Hw0. unfold transact.
  destruct (negb false && negb (msg_value ctx =? 0)) eqn:Hv; [reflexivity|].
  cbn [negb andb] in Hv. apply negb_false_iff, Z.eqb_eq in Hv. rewrite Hv.
  cbn [Z.eqb negb andb]. rewrite !move_eth_zero, Hbody, Hbody'.
  cbn [run]. rewrite Hw0 at 1. rewrite run_set_storage.
  change (@nil Event ++ [ev])%list with ([ev] ++ @nil Event)%list.
  rewrite run_events_before.
  destruct (run env (this ctx) w [] [] t); reflexivity.
Qed.

(** What a run of [refundToClient] that returns has done. *)
Lemma refund_run env self w0 ctx id s r :
  quiet env ->
  run env self w0 [] [] (refundToClient ctx id s) = inr r ->
  let e := escrowAt s id in
  let pay := if token e =? 0 then SendValue (client e) (amount e)
             else TokenTransfer (token e) (client e) (amount e) in
  transfers r = [pay] /\
  events r = [EscrowRefunded id (client e) (amount e)] /\
  status (escrowAt (storage (world r)) id) = REFUNDED /\
  collectedFees (storage (world r)) = collectedFees s.
Proof.
  intros Hq. unfold_contract. exec.
  destruct (_entered s) eqn:Hg; exec; [discriminate|].
  destruct (client (escrowAt s id) =? 0) eqn:Hc; exec; [discriminate|].
  branch; exec; [|discriminate].
  branch; exec; [|discriminate].
  branch; exec.
  - call_split Hq; exec; [|discriminate].
    intros [= <-]. exec. repeat split; reflexivity.
  - call_split Hq; exec; [|discriminate].
    intros [= <-]. exec. repeat split; reflexivity.
Qed.

Lemma announced_success {A} ev w (r : World * Outcome A) w' a evs cs :
  announced ev w r = (w', Success a evs cs) ->
  exists evs', r = (w', Success a evs' cs) /\ evs = ev :: evs'.
Proof.
  destruct r as [w1 [a1 evs1 cs1 | err | |]]; cbn; try discriminate.
  intros [= <- <- <- <-]. eauto.
Qed.

(** C3, as the code has it. On a DISPUTED record, for a caller who may
    arbitrate it, in every environment: resolving in favour of the client is
    [refundToClient] on the same world, and resolving in favour of the
    provider is [releaseToProvider] on the same world with the record put
    back to FUNDED, each with the decision logged first. When the delegated
    call goes through, the final world (statuses, balances, collected fees)
    and the transfers are its own; when it reverts, so does the resolution,
    with the same error, and the record stays DISPUTED. With recipients that
    leave the contract's storage alone, a resolution for the client pays the
    client the whole amount and records no fee, and a resolution for the
    provider pays the provider the amount less the fee and the fee collector
    the fee. *)
Theorem resolveDispute_is_refund_or_release env w ctx id :
  client (escrowAt (storage w) id) <> 0 ->
  status (escrowAt (storage w) id) = DISPUTED ->
  may_arbitrate (storage w) id (msg_sender ctx) = true ->
  let e := escrowAt (storage w) id in
  let feeAmount := amount e * fee e / FEE_DENOMINATOR in
  let pay to v :=
    if token e =? 0 then SendValue to v else TokenTransfer (token e) to v in
  transact false env w ctx (resolveDispute ctx id true)
    = announced (DisputeResolved id (msg_sender ctx) true) w
        (transact false env w ctx (refundToClient ctx id)) /\
  transact false env w ctx (resolveDispute ctx id false)
    = announced (DisputeResolved id (msg_sender ctx) false) w
        (transact false env (set_storage w (store_status (storage w) id FUNDED)) ctx
                  (releaseToProvider ctx id)) /\
  (quiet env ->
   forall w' evs cs,
     transact false env w ctx (resolveDispute ctx id true) = (w', Success tt evs cs) ->
     cs = [pay (client e) (amount e)] /\
     status (escrowAt (storage w') id) = REFUNDED /\
     collectedFees (storage w') = collectedFees (storage w)) /\
  (quiet env ->
   forall w' evs cs,
     transact false env w ctx (resolveDispute ctx id false) = (w', Success tt evs cs) ->
     cs = pay (provider e) (amount e - feeAmount) ::
          (if 0 <? feeAmount then [pay (feeCollector (storage w)) feeAmount] else []) /\
     status (escrowAt (storage w') id) = RELEASED /\
     collectedFeesAt (storage w') (token e)
       = collectedFeesAt (storage w) (token e) + feeAmount).
Proof.
  intros Hex Hst Harb e feeAmount pay.
  assert (Hclient : transact false env w ctx (resolveDispute ctx id true)
            = announced (DisputeResolved id (msg_sender ctx) true) w
                (transact false env w ctx (refundToClient ctx id))).
  { eapply transact_emit_first.
    - by apply resolveDispute_client.
    - reflexivity.
    - by rewrite set_storage_storage. }
  assert (Hprovider : transact false env w ctx (resolveDispute ctx id false)
            = announced (DisputeResolved id (msg_sender ctx) false) w
                (transact false env (set_storage w (store_status (storage w) id FUNDED))
                          ctx (releaseToProvider ctx id))).
  { eapply transact_emit_first.
    - by apply resolveDispute_provider.
    - reflexivity.
    - reflexivity. }
  split; [exact Hclient|]. split; [exact Hprovider|]. split.
  - intros Hq w' evs cs Hrun. rewrite Hclient in Hrun.
    apply announced_success in Hrun as (evs' & Hrun & _).
    apply transact_success in Hrun as (r & Hrun & <- & _ & _ & <-).
    destruct (refund_run _ _ _ _ _ _ _ Hq Hrun) as (Hcs & _ & Hfin & Hcol).
    subst e pay. rewrite Hcs.
    split; [by destruct (token _ =? 0)|]. split; assumption.
  - intros Hq w' evs cs Hrun. rewrite Hprovider in Hrun.
    apply announced_success in Hrun as (evs' & Hrun & _).
    apply transact_success in Hrun as (r & Hrun & <- & _ & _ & <-).
    autorewrite with storage in Hrun.
    eapply release_run in Hrun; [|exact Hq|exec; reflexivity].
    autorewrite with storage in Hrun. cbn in Hrun.
    destruct Hrun as (Hcs & _ & _ & _ & Hfin & Hcol).
    split; [exact Hcs|]. split; assumption.
Qed.

(** The arbitrator of the test-suite resolves the dispute of the scenario
    either way. *)
Lemma resolveDispute_is_refund_or_release_witness :
  transact false everyone w_disputed (by_ arbitrator_ 0)
           (resolveDispute (by_ arbitrator_ 0) 0 true)
  = (fst (transact false everyone w_disputed (by_ arbitrator_ 0)
                   (refundToClient (by_ arbitrator_ 0) 0)),
     Success tt [DisputeResolved 0 arbitrator_ true;
                 EscrowRefunded 0 client_ 1000000]
                [SendValue client_ 1000000]) /\
  transact false everyone w_disputed (by_ arbitrator_ 0)
           (resolveDispute (by_ arbitrator_ 0) 0 false)
  = (w_released,
     Success tt [DisputeResolved 0 arbitrator_ false;
                 EscrowReleased 0 provider_ 975000 25000]
                [SendValue provider_ 975000; SendValue collector_ 25000]).
Proof.
  destruct (resolveDispute_is_refund_or_release everyone w_disputed
              (by_ arbitrator_ 0) 0) as (Hclient & Hprovider & _);
    [vm_compute; discriminate | vm_compute; reflexivity | vm_compute; reflexivity |].
  split.
  - rewrite Hclient. vm_compute. reflexivity.
  - rewrite Hprovider. vm_compute. reflexivity.
Defined.

(** C3 as worded fails for the release half: on the DISPUTED record of the
    scenario the arbitrator's [releaseToProvider] is refused and the record
    stays DISPUTED, while the arbitrator's [resolveDispute] for the provider
    goes through and leaves it RELEASED. *)
Lemma release_refuses_disputed_record :
  status (escrowAt (storage w_disputed) 0) = DISPUTED /\
  may_arbitrate (storage w_disputed) 0 arbitrator_ = true /\
  transact false everyone w_disputed (by_ arbitrator_ 0)
           (releaseToProvider (by_ arbitrator_ 0) 0)
  = (w_disputed, Reverted (Error_ "Invalid escrow status")) /\
  exists w' evs cs,
    transact false everyone w_disputed (by_ arbitrator_ 0)
             (resolveDispute (by_ arbitrator_ 0) 0 false)
    = (w', Success tt evs cs) /\
    status (escrowAt (storage w') 0) = RELEASED /\
    balanceOf w' provider_ <> balanceOf w_disputed provider_.
Proof.
  split; [vm_compute; reflexivity|]. split; [vm_compute; reflexivity|].
  split; [vm_compute; reflexivity|].
  do 3 eexists. split; [vm_compute; reflexivity|].
  split; [vm_compute; reflexivity | vm_compute; discriminate].
Qed.

(** ** C6: the status is final before any transfer *)

Lemma releaseToProvider_reentered ctx id s :
  _entered s = true ->
  releaseToProvider ctx id s = Revert ReentrancyGuardReentrantCall.
Proof. intros Hg. unfold releaseToProvider, nonReentrant. cbn. by rewrite Hg. Qed.

Ltac branch_tree :=
  lazymatch goal with
  | |- CallsIn _ _ ?t => let c := head_if t in destruct c eqn:?
  end.

Ltac callee_returns id :=
  let s' := fresh "s'" in
  let ok := fresh "ok" in
  let Hrec := fresh "Hrec" in
  let Hent := fresh "Hent" in
  intros s' ok [Hrec Hent];
  autorewrite with storage in Hrec, Hent;
  destruct ok; exec; rewrite ?Hrec; exec.

(** At every external call of a release the record is already RELEASED and
    the guard is up, whatever the storage the release started from. *)
Lemma releaseToProvider_calls ctx id s :
  CallsIn (keeps_record id)
    (fun s' _ => status (escrowAt s' id) = RELEASED /\ _entered s' = true)
    (releaseToProvider ctx id s).
Proof.
  unfold_contract. exec.
  destruct (_entered s) eqn:Hg; exec; [constructor|].
  destruct (client (escrowAt s id) =? 0) eqn:Hc; exec; [constructor|].
  destruct (status (escrowAt s id)) eqn:Hst; exec; try constructor.
  branch_tree; exec; [|constructor].
  branch_tree; exec; [|constructor].
  branch_tree; exec; [|constructor].
  branch_tree; exec.
  - apply CallsIn_Call; [exec; auto|]. callee_returns id; [|constructor].
    branch_tree; exec.
    + apply CallsIn_Call; [rewrite Hrec; exec; auto|].
      callee_returns id; [|constructor].
      branch_tree; exec; repeat constructor.
    + repeat constructor.
  - apply CallsIn_Call; [exec; auto|]. callee_returns id; [|constructor].
    branch_tree; exec.
    + apply CallsIn_Call; [rewrite Hrec; exec; auto|].
      callee_returns id; [|constructor].
      branch_tree; exec; repeat constructor.
    + repeat constructor.
Qed.

Lemma CallsIn_impl {A} R (P Q : Storage -> ExtCall -> Prop) (e : Exec A) :
  (forall s c, P s c -> Q s c) -> CallsIn R P e -> CallsIn R Q e.
Proof.
  intros HPQ H. induction H; constructor; auto.
Qed.

(** C6. A release that passes its checks first stores RELEASED and only then
    makes its first external call, the payment to the provider. At every
    external call the release can reach, the record is RELEASED and a
    release entered from there reverts at once, as long as the code called
    hands back the record and the guard as they were. *)
Theorem release_is_final_before_any_transfer ctx id s :
  _entered s = false ->
  client (escrowAt s id) <> 0 ->
  status (escrowAt s id) = FUNDED ->
  (msg_sender ctx =? client (escrowAt s id))
  || (msg_sender ctx =? arbitrator (escrowAt s id))
  || isAuthorized s (msg_sender ctx) = true ->
  0 <= amount (escrowAt s id) <= MAX_UINT256 ->
  0 <= fee (escrowAt s id) <= FEE_DENOMINATOR ->
  amount (escrowAt s id) * fee (escrowAt s id) <= MAX_UINT256 ->
  let e := escrowAt s id in
  let providerAmount := amount e - amount e * fee e / FEE_DENOMINATOR in
  let first_call := if token e =? 0 then SendValue (provider e) providerAmount
                    else TokenTransfer (token e) (provider e) providerAmount in
  let at_call := store_status (set_entered s true) id RELEASED in
  (exists k, releaseToProvider ctx id s = Call at_call first_call k) /\
  status (escrowAt at_call id) = RELEASED /\
  CallsIn (keeps_record id)
    (fun s' _ => status (escrowAt s' id) = RELEASED /\
                 forall ctx', releaseToProvider ctx' id s'
                              = Revert ReentrancyGuardReentrantCall)
    (releaseToProvider ctx id s).
Proof.
  intros Hg Hex Hst Hauth Hamt Hfee Hmul e providerAmount first_call at_call.
  subst e providerAmount first_call at_call.
  split; [|split].
  - assert (Hdiv : 0 <= amount (escrowAt s id) * fee (escrowAt s id) / FEE_DENOMINATOR
                   <= amount (escrowAt s id)).
    { split.
      - apply Z.div_pos; [nia | reflexivity].
      - apply Z.div_le_upper_bound; [reflexivity|].
        unfold FEE_DENOMINATOR in *. nia. }
    unfold_contract. exec. rewrite Hg. exec.
    rewrite (proj2 (Z.eqb_neq _ _) Hex). exec. rewrite Hst. exec.
    rewrite Hauth. exec.
    assert (H1 : (0 <=? amount (escrowAt s id) * fee (escrowAt s id))
                 && (amount (escrowAt s id) * fee (escrowAt s id) <=? MAX_UINT256)
                 = true).
    { apply andb_true_intro; split; apply Z.leb_le; nia. }
    rewrite H1. exec.
    assert (H2 : (0 <=? amount (escrowAt s id)
                        - amount (escrowAt s id) * fee (escrowAt s id) / FEE_DENOMINATOR)
                 && (amount (escrowAt s id)
                     - amount (escrowAt s id) * fee (escrowAt s id) / FEE_DENOMINATOR
                     <=? MAX_UINT256) = true).
    { apply andb_true_intro; split; apply Z.leb_le; lia. }
    rewrite H2. exec.
    destruct (token (escrowAt s id) =? 0); exec; eexists; reflexivity.
  - exec. reflexivity.
  - eapply CallsIn_impl; [|apply releaseToProvider_calls].
    intros s' _ [Hrel Hent]. split; [assumption|].
    intros ctx'. by apply releaseToProvider_reentered.
Qed.

Lemma release_is_final_before_any_transfer_witness :
  (exists k, releaseToProvider (by_ client_ 0) 0 (storage w_funded)
             = Call (store_status (set_entered (storage w_funded) true) 0 RELEASED)
                    (SendValue provider_ 975000) k) /\
  CallsIn (keeps_record 0)
    (fun s' _ => status (escrowAt s' 0) = RELEASED /\
                 forall ctx', releaseToProvider ctx' 0 s'
                              = Revert ReentrancyGuardReentrantCall)
    (releaseToProvider (by_ client_ 0) 0 (storage w_funded)).
Proof.
  edestruct (release_is_final_before_any_transfer (by_ client_ 0) 0 (storage w_funded))
    as (Hfirst & _ & Hall).
  - vm_compute; reflexivity.
  - vm_compute; discriminate.
  - vm_compute; reflexivity.
  - vm_compute; reflexivity.
  - vm_compute. split; discriminate.
  - vm_compute. split; discriminate.
  - vm_compute. discriminate.
  - split; [exact Hfirst | exact Hall].
Defined.

(** A provider that calls release again while it is being paid: the nested
    call is refused, and the provider is paid once. *)
Example reentrant_release_pays_once :
  exists w',
    transact false reentrant_provider w_funded_attacker (by_ client_ 0)
             (releaseToProvider (by_ client_ 0) 0)
    = (w', Success tt [EscrowReleased 0 provider_ 975000 25000]
                      [SendValue provider_ 975000; SendValue collector_ 25000]) /\
    balanceOf w' provider_ = 975000 /\
    balanceOf w' collector_ = 25000 /\
    balanceOf w' escrow_address = 0.
Proof. eexists. vm_compute. repeat split; reflexivity. Qed.

(** ** What a callee can do to a record while a release is running

    C6 assumes that the code called during a release hands back the record
    and the guard as they were. That code can only reach the storage through
    the contract's own functions, and none of them, entered while the guard
    is up, touches a record that exists and is terminal. *)

Lemma escrowAt_set_escrows_ne s0 s i j e :
  i <> j -> escrowAt (set_escrows s0 (<[i := e]> (escrows s))) j = escrowAt s j.
Proof. intros Hne. unfold escrowAt; cbn. by rewrite lookup_insert_ne. Qed.

Ltac branch_leaves :=
  lazymatch goal with
  | |- Leaves _ _ ?t => let c := head_if t in destruct c eqn:?
  end.

Ltac leaf :=
  unfold mret; apply Leaves_Ret; split; [split|]; cbn;
  rewrite ?escrowAt_set_escrows_ne by lia; try reflexivity; try lia.

Section Nested.
Variables (id : Z) (ctx : Ctx) (s : Storage).
Hypothesis Hup : _entered s = true.
Hypothesis Hexists : client (escrowAt s id) <> 0.
Hypothesis Hterminal : is_terminal (status (escrowAt s id)) = true.
Hypothesis Hold : id < _escrowIdCounter s.

Ltac wrong_status_here :=
  rewrite ?(proj2 (Z.eqb_neq _ _) Hexists); exec;
  destruct (status (escrowAt s id)); try discriminate Hterminal; constructor.

Lemma nested_call_keeps_record f :
  Leaves (keeps_record_and_ids id) (keeps_record_and_ids id s) (enter ctx f s).
Proof.
  destruct f; cbn [enter].
  - (* createEscrow writes at the counter, above [id] *)
    unfold createEscrow, checked_add, checked. exec.
    repeat (branch_leaves; exec; try constructor); leaf.
  - (* the three guarded functions *)
    unfold fundEscrow, nonReentrant. exec. rewrite Hup. constructor.
  - unfold releaseToProvider, nonReentrant. exec. rewrite Hup. constructor.
  - unfold refundToClient, nonReentrant. exec. rewrite Hup. constructor.
  - (* openDispute *)
    destruct (decide (escrowId = id)) as [-> | Hne].
    + unfold_contract. exec. wrong_status_here.
    + unfold_contract. exec.
      repeat (branch_leaves; exec; try constructor).
      apply Leaves_Ret. split; [split|]; exec; try reflexivity; try lia.
      by apply escrowAt_store_status_ne.
  - (* resolveDispute: what it delegates to is guarded *)
    destruct (decide (escrowId = id)) as [-> | Hne].
    + unfold_contract. exec. wrong_status_here.
    + unfold resolveDispute, escrowExists, inStatus, onlyArbitrator, escrow_field.
      cbn -[refundToClient releaseToProvider Z.eqb].
      repeat (branch_leaves; cbn -[refundToClient releaseToProvider Z.eqb];
              try constructor);
        destruct inFavorOfClient;
        unfold refundToClient, releaseToProvider, nonReentrant; exec;
        rewrite Hup; constructor.
  - (* cancelEscrow *)
    destruct (decide (escrowId = id)) as [-> | Hne].
    + unfold_contract. exec. wrong_status_here.
    + unfold_contract. exec.
      repeat (branch_leaves; exec; try constructor).
      apply Leaves_Ret. split; [split|]; exec; try reflexivity; try lia.
      by apply escrowAt_store_status_ne.
  - unfold addArbitrator, onlyOwner. exec.
    repeat (branch_leaves; exec; try constructor); leaf.
  - unfold removeArbitrator, onlyOwner. exec.
    repeat (branch_leaves; exec; try constructor); leaf.
  - unfold setFeeCollector, onlyOwner. exec.
    repeat (branch_leaves; exec; try constructor); leaf.
  - unfold setDefaultFee, onlyOwner. exec.
    repeat (branch_leaves; exec; try constructor); leaf.
  - (* emergencyWithdraw: one call, nothing written *)
    unfold emergencyWithdraw, onlyOwner, safeTransfer. exec.
    branch_leaves; exec; [|constructor].
    branch_leaves; exec.
    + apply Leaves_Call. intros s' ok Hs'. destruct ok; exec; constructor. exact Hs'.
    + apply Leaves_Call. intros s' ok Hs'. destruct ok; exec; constructor. exact Hs'.
Qed.
End Nested.

(** ** Balances after a transfer to a passive recipient *)

Lemma balanceOf_move_eth w from to v a :
  from <> to ->
  balanceOf (move_eth w from to v) a
  = balanceOf w a + (if a =? to then v else 0) - (if a =? from then v else 0).
Proof.
  intros Hne. unfold move_eth.
  destruct (Z.eqb_spec v 0) as [-> | _].
  - destruct (a =? to), (a =? from); lia.
  - unfold balanceOf. cbn.
    destruct (Z.eqb_spec a to) as [-> | Hto].
    + rewrite lookup_insert_eq, lookup_insert_ne by done. cbn.
      destruct (Z.eqb_spec to from); [congruence | lia].
    + rewrite lookup_insert_ne by done.
      destruct (Z.eqb_spec a from) as [-> | Hfrom].
      * rewrite lookup_insert_eq. cbn. lia.
      * rewrite lookup_insert_ne by done. lia.
Qed.

Lemma send_value_balances accepts self w to v w' a :
  self <> to ->
  ext_call (passive accepts) self w (SendValue to v) = Some w' ->
  accepts to = true /\ 0 <= v <= balanceOf w self /\
  balanceOf w' a
  = balanceOf w a + (if a =? to then v else 0) - (if a =? self then v else 0).
Proof.
  intros Hne. unfold ext_call. destruct (_ && _) eqn:Hr; [|discriminate].
  apply andb_prop in Hr as [H1%Z.leb_le H2%Z.leb_le]. cbn.
  destruct (accepts to); [|discriminate]. intros [= <-].
  rewrite balanceOf_move_eth by assumption. auto.
Qed.

(** ** When a release goes through

    C2 speaks of a release that succeeds. A release of a native-asset record
    does succeed when its checks pass, the arithmetic stays in range, the
    contract holds the amount and both recipients take their payment. *)

Lemma balanceOf_set_storage w s a : balanceOf (set_storage w s) a = balanceOf w a.
Proof. reflexivity. Qed.
#[global] Hint Rewrite storage_move_eth balanceOf_set_storage : storage.

Lemma native_release_goes_through accepts w ctx id :
  let e := escrowAt (storage w) id in
  let feeAmount := amount e * fee e / FEE_DENOMINATOR in
  _entered (storage w) = false ->
  client e <> 0 ->
  status e = FUNDED ->
  token e = 0 ->
  (msg_sender ctx =? client e) || (msg_sender ctx =? arbitrator e)
  || isAuthorized (storage w) (msg_sender ctx) = true ->
  msg_value ctx = 0 ->
  0 <= amount e <= MAX_UINT256 ->
  0 <= fee e <= FEE_DENOMINATOR ->
  amount e * fee e <= MAX_UINT256 ->
  collectedFeesAt (storage w) 0 + feeAmount <= MAX_UINT256 ->
  0 <= collectedFeesAt (storage w) 0 ->
  amount e <= balanceOf w (this ctx) ->
  provider e <> this ctx ->
  accepts (provider e) = true ->
  accepts (feeCollector (storage w)) = true ->
  exists w',
    transact false (passive accepts) w ctx (releaseToProvider ctx id)
    = (w', Success tt [EscrowReleased id (provider e) (amount e - feeAmount) feeAmount]
             (SendValue (provider e) (amount e - feeAmount) ::
              if 0 <? feeAmount then [SendValue (feeCollector (storage w)) feeAmount]
              else [])).
Proof.
  intros e feeAmount Hg Hex Hst Htok Hauth Hv Hamt Hfee Hmul Hcol Hcol0 Hbal Hself Hp Hc.
  subst e feeAmount.
  assert (Hdiv : 0 <= amount (escrowAt (storage w) id) * fee (escrowAt (storage w) id)
                      / FEE_DENOMINATOR <= amount (escrowAt (storage w) id)).
  { split.
    - apply Z.div_pos; [nia | reflexivity].
    - apply Z.div_le_upper_bound; [reflexivity|]. unfold FEE_DENOMINATOR in *. nia. }
  rewrite transact_no_value by assumption.
  unfold_contract. exec. rewrite Hg. exec.
  rewrite (proj2 (Z.eqb_neq _ _) Hex). exec. rewrite Hst. exec. rewrite Hauth. exec.
  rewrite (proj2 (andb_true_iff _ _)) by (split; apply Z.leb_le; nia). exec.
  rewrite (proj2 (andb_true_iff _ _)) by (split; apply Z.leb_le; lia). exec.
  rewrite Htok. change (0 =? 0) with true. exec.
  unfold ext_call at 1. cbn [receive passive]. exec.
  rewrite (proj2 (andb_true_iff _ _)) by (split; apply Z.leb_le; lia).
  rewrite Hp. exec.
  destruct (0 <? _) eqn:Hpos; exec.
  - unfold ext_call at 1. cbn [receive passive]. exec.
    rewrite balanceOf_move_eth by congruence. exec.
    rewrite Z.eqb_refl.
    rewrite (proj2 (Z.eqb_neq _ _)) by congruence.
    rewrite (proj2 (andb_true_iff _ _)) by (split; apply Z.leb_le; lia).
    rewrite Hc. exec.
    rewrite (proj2 (andb_true_iff _ _)) by (split; apply Z.leb_le; lia). exec.
    eexists. reflexivity.
  - eexists. reflexivity.
Qed.

End LedgerFacts.

(* ===================================================================== *)
(** * Facts about the indexer                                             *)
(* ===================================================================== *)

Module IndexerFacts.
Import Indexer.
Local Open Scope list_scope.

(** ** Lists *)

Lemma find_split {A} (p : A -> bool) (l : list A) (x : A) :
  List.find p l = Some x ->
  exists l1 l2, l = l1 ++ x :: l2 /\ p x = true /\ Forall (fun y => p y = false) l1.
Proof.
  induction l as [|a l IH]; cbn; [discriminate|].
  destruct (p a) eqn:Hpa.
  - intros [= ->]. exists [], l. auto.
  - intros (l1 & l2 & -> & Hx & Hl1)%IH. exists (a :: l1), l2. auto.
Qed.

Lemma find_none_forall {A} (p : A -> bool) (l : list A) :
  List.find p l = None -> Forall (fun y => p y = false) l.
Proof.
  induction l as [|a l IH]; cbn; [constructor|].
  destruct (p a) eqn:Hpa; [discriminate|]. auto.
Qed.

Lemma find_app_none {A} (p : A -> bool) (l1 l2 : list A) :
  Forall (fun y => p y = false) l1 ->
  List.find p (l1 ++ l2) = List.find p l2.
Proof.
  induction 1 as [|a l Ha _ IH]; cbn; [reflexivity|]. by rewrite Ha.
Qed.

Lemma filter_none {A} (p : A -> bool) (l : list A) :
  Forall (fun y => p y = false) l -> List.filter p l = [].
Proof.
  induction 1 as [|a l Ha _ IH]; cbn; [reflexivity|]. by rewrite Ha.
Qed.

Lemma existsb_none {A} (p : A -> bool) (l : list A) :
  Forall (fun y => p y = false) l -> existsb p l = false.
Proof.
  induction 1 as [|a l Ha _ IH]; cbn; [reflexivity|]. by rewrite Ha.
Qed.

(** ** JavaScript numbers *)

Example Number_exact : Number_ 9007199254740991 = 9007199254740991.
Proof. reflexivity. Qed.

Example Number_rounds :
  Number_ (2 ^ 53 + 1) = 2 ^ 53 /\ Number_ (2 ^ 53 + 3) = 2 ^ 53 + 4 /\
  Number_ (2 ^ 64 - 1) = 2 ^ 64.
Proof. vm_compute. repeat split; reflexivity. Qed.

Lemma Number_small x : x < 2 ^ 53 -> Number_ x = x.
Proof.
  intros Hx. unfold Number_, to_double.
  destruct (Z.ltb_spec x (2 ^ 53)); [reflexivity | lia].
Qed.

Example toLowerCase_address : toLowerCase "0xAbCdEf0123" = "0xabcdef0123".
Proof. reflexivity. Qed.

Lemma to_double_large x : 2 ^ 53 <= x -> 2 ^ 53 <= to_double x.
Proof.
  intros Hx. unfold to_double.
  destruct (Z.ltb_spec x (2 ^ 53)) as [Hlt | _]; [lia|].
  assert (Hpos : 0 < x) by lia.
  destruct (Z.log2_spec x Hpos) as [Hlo Hhi].
  assert (Hlog : 53 <= Z.log2 x) by (apply Z.log2_le_pow2; lia).
  set (e := Z.log2 x - 52). assert (He : 1 <= e) by lia.
  assert (Hpe : 0 < 2 ^ e) by (apply Z.pow_pos_nonneg; lia).
  assert (Hsplit : 2 ^ Z.log2 x = 2 ^ 52 * 2 ^ e).
  { rewrite <- Z.pow_add_r by lia. f_equal. lia. }
  assert (Hq : 2 ^ 52 <= x / 2 ^ e).
  { apply Z.div_le_lower_bound; [assumption|]. lia. }
  assert (Hq' : x / 2 ^ e <=
                (if x mod 2 ^ e <? 2 ^ (e - 1) then x / 2 ^ e
                 else if 2 ^ (e - 1) <? x mod 2 ^ e then x / 2 ^ e + 1
                 else if Z.even (x / 2 ^ e) then x / 2 ^ e else x / 2 ^ e + 1)).
  { repeat (destruct (_ : bool)); lia. }
  cbv zeta.
  assert (H2e : 2 <= 2 ^ e).
  { change 2 with (2 ^ 1) at 1. apply Z.pow_le_mono_r; lia. }
  change (2 ^ 53) with (2 ^ 52 * 2). nia.
Qed.

(** ** What the table takes *)

Example int_range :
  int 2147483647 = Some 2147483647 /\ int 2147483648 = None /\
  int (- 2147483648) = Some (- 2147483648) /\ int (Number_ (2 ^ 64)) = None.
Proof. repeat split; reflexivity. Qed.

Example varchar_length :
  varchar 42 "0x70997970c51812dc3a010c7d01b50e0d17dc79c8"
    = Some "0x70997970c51812dc3a010c7d01b50e0d17dc79c8" /\
  varchar 42 "0x70997970c51812dc3a010c7d01b50e0d17dc79c8f" = None /\
  varchar 3 "abc  " = Some "abc" /\
  text (String Ascii.zero "x") = None.
Proof. repeat split; reflexivity. Qed.

Example timestamp_range :
  timestamp None = Some None /\
  timestamp (Some (newDate (8640000000000 * 1000)))
    = Some (Some (ValidDate 8640000000000000)) /\
  newDate (8640000000001 * 1000) = InvalidDate /\
  timestamp (Some InvalidDate) = None.
Proof. repeat split; reflexivity. Qed.

(** The deadline of a creation event gives a date the [deadline] column
    takes exactly when it is at most 8 640 000 000 000 seconds, the last
    day JavaScript has a date for. *)
Lemma deadline_of_event_is_a_date d :
  0 < d ->
  is_Some (timestamp (Some (newDate (to_double (Number_ d * 1000)))))
  <-> d <= 8640000000000.
Proof.
  intros Hd.
  assert (Hbig : forall x, 8640000000000000 < x -> 8640000000000000 < to_double x).
  { intros x Hx. destruct (Z.lt_ge_cases x (2 ^ 53)) as [Hlt | Hge].
    - unfold to_double. destruct (Z.ltb_spec x (2 ^ 53)); lia.
    - pose proof (to_double_large x Hge) as H.
      assert (8640000000000000 < 2 ^ 53) by reflexivity. lia. }
  split.
  - intros Hsome. destruct (Z.le_gt_cases d 8640000000000) as [Hle | Hgt]; [assumption|].
    exfalso.
    assert (Hn : 8640000000000 < Number_ d).
    { destruct (Z.lt_ge_cases d (2 ^ 53)) as [Hlt | Hge].
      - by rewrite Number_small.
      - pose proof (to_double_large d Hge) as H. unfold Number_.
        assert (8640000000000 < 2 ^ 53) by reflexivity. lia. }
    specialize (Hbig (Number_ d * 1000) ltac:(lia)).
    unfold newDate in Hsome.
    destruct (Z.leb_spec (Z.abs (to_double (Number_ d * 1000))) 8640000000000000)
      as [Habs | _]; [lia|].
    destruct Hsome as [x Hx]. discriminate Hx.
  - intros Hle.
    assert (Hlt : d < 2 ^ 53).
    { assert (8640000000000 < 2 ^ 53) by reflexivity. lia. }
    rewrite (Number_small d Hlt). unfold to_double.
    assert (Hms : d * 1000 <= 8640000000000000) by lia.
    destruct (Z.ltb_spec (d * 1000) (2 ^ 53)) as [_ | Hge];
      [|assert (8640000000000000 < 2 ^ 53) by reflexivity; lia].
    unfold newDate.
    destruct (Z.leb_spec (Z.abs (d * 1000)) 8640000000000000) as [_ | Habs]; [|lia].
    cbn. destruct (Z.leb_spec (- 210866803200000) (d * 1000)); [by eexists | lia].
Qed.

Lemma date_eqb_refl d : date_eqb d d = true.
Proof. destruct d as [[ms|]|]; cbn; [apply Z.eqb_refl | reflexivity | reflexivity]. Qed.

(** Writing a row back with another status writes the status only. *)
Lemma stored_row_with_status row st :
  stored_row (Some row) (with_status row st) = Some (with_status row st).
Proof.
  unfold stored_row, written. cbn.
  rewrite !Z.eqb_refl, !String.eqb_refl, date_eqb_refl. reflexivity.
Qed.

(** The row the table holds has the keys and the status of the entity. *)
Lemma stored_row_keys stored e r :
  stored_row stored e = Some r ->
  id r = id e /\ chainId r = chainId e /\ escrowId r = escrowId e /\
  status r = status e.
Proof.
  unfold stored_row. intros H.
  repeat match type of H with
         | (mbind _ ?m = Some _) => destruct m; cbn in H; [|discriminate H]
         end.
  injection H as <-. auto.
Qed.

(** Saving an entity that has no primary key and whose (chain, id) the table
    does not hold. *)
Lemma save_insert repo e r :
  id e = None ->
  findOne repo (chainId e) (escrowId e) = None ->
  stored_row None e = Some r ->
  save repo e
  = inr (mkRepository (rows repo ++ [with_id r (nextId repo)]) (S (nextId repo))).
Proof.
  intros Hid Hnone Hrow. unfold save. rewrite Hid, Hrow.
  rewrite existsb_none; [reflexivity|].
  eapply Forall_impl; [apply find_none_forall; exact Hnone|].
  cbn. intros x ->. reflexivity.
Qed.

Lemma save_refused repo e :
  id e = None -> stored_row None e = None -> save repo e = inl DataException.
Proof. intros Hid Hrow. unfold save. by rewrite Hid, Hrow. Qed.

Lemma has_key_with_id c i r j : has_key c i (with_id r j) = has_key c i r.
Proof. reflexivity. Qed.

(** The creation handler, when the table has no row for the event. *)
Lemma handleEscrowCreated_new bs chainId_ event repo :
  findOne repo chainId_ (Number_ (ce_escrowId event)) = None ->
  handleEscrowCreated bs chainId_ event repo =
  match getEscrow bs chainId_ (Number_ (ce_escrowId event)) with
  | inl e => inl e
  | inr escrowData =>
      match stored_row None (create chainId_ event escrowData) with
      | Some row =>
          inr (mkRepository (rows repo ++ [with_id row (nextId repo)])
                            (S (nextId repo)))
      | None => inl DataException
      end
  end.
Proof.
  intros Hnone. unfold handleEscrowCreated. rewrite Hnone.
  destruct (getEscrow bs chainId_ (Number_ (ce_escrowId event))) as [e|d];
    [reflexivity|].
  cbv zeta. destruct (stored_row None (create chainId_ event d)) as [row|] eqn:Hrow.
  - by apply save_insert.
  - by apply save_refused.
Qed.

Lemma created_row_key chainId_ event escrowData row j :
  stored_row None (create chainId_ event escrowData) = Some row ->
  has_key chainId_ (Number_ (ce_escrowId event)) (with_id row j) = true.
Proof.
  intros (_ & Hc & Hi & _)%stored_row_keys. rewrite has_key_with_id.
  unfold has_key. rewrite Hc, Hi. cbn. by rewrite !Z.eqb_refl.
Qed.

(** A row the table takes has a deadline its column takes. *)
Lemma stored_row_deadline e r :
  stored_row None e = Some r -> is_Some (timestamp (deadline e)).
Proof.
  intros Hrow. destruct (timestamp (deadline e)) as [t|] eqn:Ht; [by eexists|].
  exfalso. unfold stored_row, written in Hrow. cbn [fmap option_fmap option_map] in Hrow.
  rewrite Ht in Hrow.
  repeat match type of Hrow with
         | (mbind _ ?m = Some _) =>
             destruct m; cbn [mbind option_bind] in Hrow; [|discriminate Hrow]
         end.
  discriminate Hrow.
Qed.

(** A creation event whose row the table takes has no deadline, or one of
    at most 8 640 000 000 000 seconds. *)
Lemma created_row_deadline chainId_ event escrowData row :
  stored_row None (create chainId_ event escrowData) = Some row ->
  ce_deadline event <= 8640000000000.
Proof.
  intros Hrow%stored_row_deadline.
  destruct (Z.ltb_spec 0 (ce_deadline event)) as [Hpos | Hle]; [|lia].
  apply (deadline_of_event_is_a_date _ Hpos).
  cbn [create deadline] in Hrow. apply Z.ltb_lt in Hpos. by rewrite Hpos in Hrow.
Qed.

(** ** C8: a creation event delivered twice *)




(** ** C7: a funded event for a record the table does not hold *)

(** C7, as the code has it. A funded event whose (chain, id) has no row is
    passed over: the handler returns normally, reads nothing from the
    contract and leaves the table as it was. *)
Theorem funded_event_for_unknown_record_is_skipped chainId_ event repo :
  findOne repo chainId_ (Number_ (fe_escrowId event)) = None ->
  handleEscrowFunded chainId_ event repo = inr repo /\
  records_for repo chainId_ (Number_ (fe_escrowId event)) = [].
Proof.
  intros Hnone. split.
  - unfold handleEscrowFunded. by rewrite Hnone.
  - unfold records_for. apply filter_none. by apply find_none_forall.
Qed.

Lemma funded_event_for_unknown_record_is_skipped_witness :
  handleEscrowFunded 1 funded0 empty_repository = inr empty_repository /\
  records_for empty_repository 1 (Number_ (fe_escrowId funded0)) = [].
Proof.
  apply (funded_event_for_unknown_record_is_skipped 1 funded0 empty_repository).
  reflexivity.
Defined.

(** C7 as worded fails: the contract holds record 0, the table does not;
    after the funded event of record 0 the table still has no row for it. *)
Lemma funded_event_does_not_backfill :
  getEscrow service1 1 (Number_ (fe_escrowId funded0)) = inr canonical0 /\
  findOne empty_repository 1 (Number_ (fe_escrowId funded0)) = None /\
  exists repo',
    handleEscrowFunded 1 funded0 empty_repository = inr repo' /\
    findOne repo' 1 (Number_ (fe_escrowId funded0)) = None /\
    rows repo' = [].
Proof.
  split; [reflexivity|]. split; [reflexivity|].
  exists empty_repository. repeat split; reflexivity.
Qed.

(** ** C10: a funded event for a record the table holds *)

Section FundedOverwrites.
Variables (c i : Z) (row : Escrow) (j : nat) (l1 l2 : list Escrow).
Hypothesis Hid : id row = Some j.
Hypothesis Hkey : has_key c i row = true.
Hypothesis Hbefore : Forall (fun r => has_key c i r = false) l1.
Hypothesis Hids : NoDup (id <$> l1 ++ row :: l2).
Hypothesis Hkeys : NoDup ((fun r => (chainId r, escrowId r)) <$> l1 ++ row :: l2).

Lemma row_key : chainId row = c /\ escrowId row = i.
Proof.
  unfold has_key in Hkey. apply andb_prop in Hkey as [H1 H2].
  split; by apply Z.eqb_eq.
Qed.

(** No other row has the primary key of [row]. *)
Lemma other_ids r : r ∈ l1 ++ l2 -> has_id j r = false.
Proof.
  intros Hin. unfold has_id. destruct (id r) as [k|] eqn:Hk; [|reflexivity].
  apply Nat.eqb_neq. intros ->.
  rewrite fmap_app, fmap_cons in Hids.
  apply NoDup_app in Hids as (_ & Hl1 & [Hl2 _]%NoDup_cons).
  apply elem_of_app in Hin as [Hin | Hin].
  - apply (Hl1 (id r)); [by apply list_elem_of_fmap_2|].
    rewrite Hk, <- Hid. by left.
  - apply Hl2. rewrite Hid, <- Hk. by apply list_elem_of_fmap_2.
Qed.

(** No later row has the (chain, id) of [row]. *)
Lemma other_keys r : r ∈ l2 -> has_key c i r = false.
Proof.
  intros Hin. destruct (has_key c i r) eqn:Hr; [|reflexivity]. exfalso.
  unfold has_key in Hr. apply andb_prop in Hr as [H1%Z.eqb_eq H2%Z.eqb_eq].
  destruct row_key as [Hc Hi].
  rewrite fmap_app, fmap_cons in Hkeys.
  apply NoDup_app in Hkeys as (_ & _ & [Hl2 _]%NoDup_cons).
  apply Hl2. rewrite Hc, Hi, <- H1, <- H2.
  by apply (list_elem_of_fmap_2 (fun r => (chainId r, escrowId r))).
Qed.

Lemma replace_row :
  map (fun r => if has_id j r then with_status row 1 else r) (l1 ++ row :: l2)
  = l1 ++ with_status row 1 :: l2.
Proof.
  rewrite map_app. cbn [map].
  assert (Hrow : has_id j row = true) by (unfold has_id; rewrite Hid; apply Nat.eqb_refl).
  rewrite Hrow. f_equal; [|f_equal].
  - rewrite <- (map_id l1) at 2. apply map_ext_in. intros r Hin.
    rewrite other_ids; [reflexivity|].
    apply elem_of_app. left. by apply list_elem_of_In.
  - rewrite <- (map_id l2) at 2. apply map_ext_in. intros r Hin.
    rewrite other_ids; [reflexivity|].
    apply elem_of_app. right. by apply list_elem_of_In.
Qed.

(** The row found under the primary key of [row] is [row]. *)
Lemma find_row : List.find (has_id j) (l1 ++ row :: l2) = Some row.
Proof.
  rewrite find_app_none.
  - cbn [List.find]. unfold has_id at 1. by rewrite Hid, Nat.eqb_refl.
  - apply List.Forall_forall. intros r Hin%list_elem_of_In.
    apply other_ids, elem_of_app. by left.
Qed.

Lemma save_funded nxt :
  save (mkRepository (l1 ++ row :: l2) nxt) (with_status row 1)
  = inr (mkRepository (l1 ++ with_status row 1 :: l2) nxt).
Proof.
  unfold save. cbn [rows nextId id with_status].
  rewrite Hid, find_row, stored_row_with_status.
  cbn [chainId escrowId with_status]. destruct row_key as [-> ->].
  assert (Hrow : has_id j row = true) by (unfold has_id; rewrite Hid; apply Nat.eqb_refl).
  rewrite existsb_app. cbn [existsb]. rewrite Hrow.
  rewrite (existsb_none _ l1); cycle 1.
  { eapply Forall_impl; [exact Hbefore|]. cbn. intros r ->. reflexivity. }
  rewrite (existsb_none _ l2); cycle 1.
  { apply List.Forall_forall. intros r Hin%list_elem_of_In.
    by rewrite other_keys. }
  cbn. rewrite andb_false_r. cbn.
  rewrite existsb_app. cbn [existsb]. rewrite Hrow, orb_true_r. cbn.
  by rewrite replace_row.
Qed.
End FundedOverwrites.

(** C10. When the table holds a row for the event's (chain, id), the funded
    handler saves that row with status 1 (FUNDED), whatever its status was:
    the table then answers with the row so changed, and every other row is
    as before. *)
Theorem funded_event_overwrites_status chainId_ event repo row :
  well_keyed repo ->
  findOne repo chainId_ (Number_ (fe_escrowId event)) = Some row ->
  exists repo',
    handleEscrowFunded chainId_ event repo = inr repo' /\
    findOne repo' chainId_ (Number_ (fe_escrowId event)) = Some (with_status row 1) /\
    status (with_status row 1) = 1 /\
    exists l1 l2, rows repo = l1 ++ row :: l2 /\
                  rows repo' = l1 ++ with_status row 1 :: l2.
Proof.
  intros [Hkeyed Hids Hkeys] Hfind.
  unfold handleEscrowFunded. rewrite Hfind.
  destruct repo as [rs nxt]. unfold findOne in *. cbn [rows] in *.
  destruct (find_split _ _ _ Hfind) as (l1 & l2 & -> & Hkey & Hbefore).
  assert (Hsome : is_Some (id row)).
  { rewrite List.Forall_forall in Hkeyed. apply Hkeyed.
    rewrite in_app_iff. right. by left. }
  destruct Hsome as [j Hid].
  exists (mkRepository (l1 ++ with_status row 1 :: l2) nxt).
  split; [|split; [|split]].
  - by apply (save_funded chainId_ (Number_ (fe_escrowId event)) row j).
  - cbn [rows]. rewrite find_app_none by exact Hbefore. cbn [List.find].
    unfold has_key in *. cbn [chainId escrowId with_status]. by rewrite Hkey.
  - reflexivity.
  - exists l1, l2. split; reflexivity.
Qed.

(** A late funded event for record 0, whose row says RELEASED (3), puts
    the row back to FUNDED (1). *)
Lemma funded_event_overwrites_status_witness :
  status row0 = 3 /\
  handleEscrowFunded 1 funded0 (mkRepository [row0] 1)
    = inr (mkRepository [with_status row0 1] 1) /\
  findOne (mkRepository [with_status row0 1] 1) 1 0 = Some (with_status row0 1).
Proof.
  assert (Hwk : well_keyed (mkRepository [row0] 1)).
  { split; cbn.
    - repeat constructor. by exists 0%nat.
    - repeat constructor. set_solver.
    - repeat constructor. set_solver. }
  destruct (funded_event_overwrites_status 1 funded0 (mkRepository [row0] 1) row0 Hwk)
    as (repo' & Hrun & Hfound & _ & _); [reflexivity|].
  assert (Hrepo : repo' = mkRepository [with_status row0 1] 1).
  { assert (Hc : handleEscrowFunded 1 funded0 (mkRepository [row0] 1)
                 = inr (mkRepository [with_status row0 1] 1))
      by (vm_compute; reflexivity).
    congruence. }
  subst repo'. split; [reflexivity|]. split; [exact Hrun | exact Hfound].
Defined.

(** ** C9: the window of a poll cycle *)

Lemma queryFilterCreated_spec c fromBlock toBlock ev :
  ev ∈ queryFilterCreated c fromBlock toBlock <->
  LogCreated ev ∈ logs c /\ fromBlock <= ce_blockNumber ev <= toBlock.
Proof.
  unfold queryFilterCreated. rewrite list_elem_of_omap. split.
  - intros (l & Hin & Hl). destruct l as [ev' | |]; try discriminate.
    destruct (_ && _) eqn:Hr; [|discriminate]. injection Hl as ->.
    apply andb_prop in Hr as [H1%Z.leb_le H2%Z.leb_le]. auto.
  - intros (Hin & H1 & H2). exists (LogCreated ev). split; [assumption|]. cbn.
    apply Z.leb_le in H1. apply Z.leb_le in H2. by rewrite H1, H2.
Qed.

Lemma queryFilterFunded_spec c fromBlock toBlock ev :
  ev ∈ queryFilterFunded c fromBlock toBlock <->
  LogFunded ev ∈ logs c /\ fromBlock <= fe_blockNumber ev <= toBlock.
Proof.
  unfold queryFilterFunded. rewrite list_elem_of_omap. split.
  - intros (l & Hin & Hl). destruct l as [| ev' |]; try discriminate.
    destruct (_ && _) eqn:Hr; [|discriminate]. injection Hl as ->.
    apply andb_prop in Hr as [H1%Z.leb_le H2%Z.leb_le]. auto.
  - intros (Hin & H1 & H2). exists (LogFunded ev). split; [assumption|]. cbn.
    apply Z.leb_le in H1. apply Z.leb_le in H2. by rewrite H1, H2.
Qed.

(** C9, as the code has it. With [cursor] the block stored for the chain
    (0 when none is), a poll cycle does nothing exactly when
    [cursor >= currentBlock], which is when [cursor + 1 > currentBlock].
    Otherwise it queries the blocks from [cursor] itself to [currentBlock],
    both included: the creation events of that window are handled in order,
    then its funded events, and when no handler fails the cursor becomes
    [currentBlock]; when one fails the cursor stays and what was saved
    before stays saved. *)
Theorem poll_window bs st chainId_ contract_ currentBlock :
  getContract bs chainId_ = inr contract_ ->
  getBlockNumber bs chainId_ = inr currentBlock ->
  let cursor := default 0 (lastSyncedBlocks st !! chainId_) in
  let created := forEach (handleEscrowCreated bs chainId_)
                   (queryFilterCreated contract_ cursor currentBlock)
                   (escrowRepository st) in
  let funded := forEach (handleEscrowFunded chainId_)
                  (queryFilterFunded contract_ cursor currentBlock)
                  (fst created) in
  (cursor + 1 > currentBlock -> syncChainEvents bs st chainId_ = (st, None)) /\
  (cursor + 1 <= currentBlock ->
   syncChainEvents bs st chainId_ =
     match snd created, snd funded with
     | Some e, _ => (mkState (lastSyncedBlocks st) (fst created), Some e)
     | None, Some e => (mkState (lastSyncedBlocks st) (fst funded), Some e)
     | None, None =>
         (mkState (<[chainId_ := currentBlock]> (lastSyncedBlocks st)) (fst funded),
          None)
     end /\
   syncChainEvents bs st chainId_ <> (st, None)) /\
  (forall ev, ev ∈ queryFilterCreated contract_ cursor currentBlock <->
              LogCreated ev ∈ logs contract_ /\
              cursor <= ce_blockNumber ev <= currentBlock) /\
  (forall ev, ev ∈ queryFilterFunded contract_ cursor currentBlock <->
              LogFunded ev ∈ logs contract_ /\
              cursor <= fe_blockNumber ev <= currentBlock).
Proof.
  intros Hc Hb cursor created funded.
  split; [|split; [|split]].
  - intros Hle. unfold syncChainEvents. rewrite Hc, Hb. fold cursor.
    destruct (currentBlock <=? cursor) eqn:Hcmp; [reflexivity|].
    apply Z.leb_gt in Hcmp. lia.
  - intros Hlt.
    assert (Heq : syncChainEvents bs st chainId_ =
      match snd created, snd funded with
      | Some e, _ => (mkState (lastSyncedBlocks st) (fst created), Some e)
      | None, Some e => (mkState (lastSyncedBlocks st) (fst funded), Some e)
      | None, None =>
          (mkState (<[chainId_ := currentBlock]> (lastSyncedBlocks st)) (fst funded),
           None)
      end).
    { unfold syncChainEvents. rewrite Hc, Hb. fold cursor.
      destruct (currentBlock <=? cursor) eqn:Hcmp; [apply Z.leb_le in Hcmp; lia|].
      fold created. destruct created as [repo1 [e|]]; [reflexivity|].
      cbn [fst snd] in *. fold funded.
      destruct funded as [repo2 [e|]]; reflexivity. }
    split; [exact Heq|]. rewrite Heq.
    destruct (snd created); [discriminate|].
    destruct (snd funded); [discriminate|].
    intros Hsame. apply (f_equal (fun r => lastSyncedBlocks (fst r) !! chainId_)) in Hsame.
    cbn in Hsame. rewrite lookup_insert_eq in Hsame.
    subst cursor. rewrite <- Hsame in Hlt. cbn in Hlt. lia.
  - intros ev. apply queryFilterCreated_spec.
  - intros ev. apply queryFilterFunded_spec.
Qed.

(** From block 5 with the node at block 10: the blocks 5 to 10 are read,
    record 0 is created from the event of block 5 and set to FUNDED from
    the event of block 7, and the cursor moves to 10. At block 10 the next
    cycle does nothing. *)
Lemma poll_window_witness :
  syncChainEvents service1 state5 1
    = (mkState {[ 1 := 10 ]} (mkRepository [with_status row0 1] 1), None) /\
  syncChainEvents service1 (mkState {[ 1 := 10 ]} (mkRepository [with_status row0 1] 1)) 1
    = (mkState {[ 1 := 10 ]} (mkRepository [with_status row0 1] 1), None).
Proof.
  split.
  - destruct (poll_window service1 state5 1 (contract chain1) 10 eq_refl eq_refl)
      as (_ & [Hrun _] & _); [vm_compute; discriminate|].
    rewrite Hrun. vm_compute. reflexivity.
  - apply (poll_window service1 _ 1 (contract chain1) 10 eq_refl eq_refl).
    vm_compute. reflexivity.
Defined.

(** C9 as worded fails on the lower end of the window. With the cursor at 5
    and the node at 10 the specification's window is 6 to 10, which holds no
    creation event; the cycle nevertheless handles the creation event of
    block 5. *)
Lemma poll_window_includes_cursor_block :
  lastSyncedBlocks state5 !! 1 = Some 5 /\
  getBlockNumber service1 1 = inr 10 /\
  spec_window 5 10 = (6, 10) /\
  queryFilterCreated (contract chain1) 6 10 = [] /\
  ce_blockNumber created0 = 5 /\
  findOne (escrowRepository state5) 1 0 = None /\
  findOne (escrowRepository (fst (syncChainEvents service1 state5 1))) 1 0
    = Some (with_status row0 1).
Proof. repeat split; vm_compute; reflexivity. Qed.

End IndexerFacts.

(* ===================================================================== *)
(** * Facts about the contract as a transition system                     *)
(* ===================================================================== *)

Module LifecycleFacts.
Import Ledger LedgerFacts Lifecycle.

Lemma with_status_twice e a b : with_status (with_status e a) b = with_status e b.
Proof. by destruct e. Qed.
Lemma with_status_same e : with_status e (status e) = e.
Proof. by destruct e. Qed.

Lemma store_status_twice s i a b :
  store_status (store_status s i a) i b = store_status s i b.
Proof.
  unfold store_status, escrowAt, set_escrows; cbn.
  rewrite lookup_insert_eq; cbn. rewrite insert_insert_eq, with_status_twice.
  reflexivity.
Qed.

Lemma leave_after_release s i :
  _entered s = false ->
  set_entered (released (set_entered s true) i) false = released s i.
Proof.
  intros Hg. unfold released.
  change (escrowAt (set_entered s true) i) with (escrowAt s i).
  destruct (0 <? feeOf (escrowAt s i)).
  - destruct s; cbn in *; subst; reflexivity.
  - by apply leave_after_store.
Qed.

Ltac unfold_admin :=
  unfold createEscrow, addArbitrator, removeArbitrator, setFeeCollector,
    setDefaultFee, emergencyWithdraw, onlyOwner, checked_add, checked,
    safeTransfer.

Ltac done_run :=
  first [ discriminate
        | intros [= <-]; exec; bool_hyps ].

Ltac conjuncts :=
  repeat match goal with |- _ /\ _ => split end.

Ltac side := first [assumption | reflexivity | lia | congruence].

Ltac fin_release := conjuncts; side.

Lemma release_outcome env self w0 ctx i s r :
  quiet env ->
  run env self w0 [] [] (releaseToProvider ctx i s) = inr r ->
  passed ctx (ReleaseToProvider i) s /\
  storage (world r) = released s i /\
  transfers r = release_payments s (escrowAt s i).
Proof.
  intros Hq. unfold_contract. exec.
  destruct (_entered s) eqn:Hg; exec; [discriminate|].
  destruct (client (escrowAt s i) =? 0) eqn:Hc; exec; [discriminate|].
  destruct (status (escrowAt s i)) eqn:Hst; exec; try discriminate.
  branch; exec; [|discriminate].
  branch; exec; [|discriminate].
  branch; exec; [|discriminate].
  rewrite <- (leave_after_release s i Hg).
  unfold released, release_payments, payout, feeOf. exec.
  bool_hyps.
  branch; exec.
  - call_split Hq; exec; [|discriminate].
    branch; exec.
    + call_split Hq; exec; [|discriminate].
      branch; exec; [|discriminate].
      intros [= <-]. exec. bool_hyps.
      match goal with H : token _ = 0 |- _ => rewrite !H end.
      fin_release.
    + intros [= <-]. exec. bool_hyps.
      fin_release.
  - call_split Hq; exec; [|discriminate].
    branch; exec.
    + call_split Hq; exec; [|discriminate].
      branch; exec; [|discriminate].
      intros [= <-]. exec. bool_hyps.
      fin_release.
    + intros [= <-]. exec. bool_hyps.
      fin_release.
Qed.

Lemma refund_outcome env self w0 ctx i s r :
  quiet env ->
  run env self w0 [] [] (refundToClient ctx i s) = inr r ->
  passed ctx (RefundToClient i) s /\
  storage (world r) = store_status s i REFUNDED /\
  transfers r = payments ctx (RefundToClient i) s.
Proof.
  intros Hq. unfold_contract. exec.
  destruct (_entered s) eqn:Hg; exec; [discriminate|].
  destruct (client (escrowAt s i) =? 0) eqn:Hc; exec; [discriminate|].
  branch; exec; [|discriminate].
  branch; exec; [|discriminate].
  rewrite <- (leave_after_store s i REFUNDED Hg).
  unfold may_arbitrate, payout.
  assert (status (escrowAt s i) = FUNDED \/ status (escrowAt s i) = DISPUTED)
    by (destruct (status (escrowAt s i)); try discriminate; auto).
  bool_hyps.
  branch; exec.
  - call_split Hq; exec; [|discriminate].
    intros [= <-]. exec. conjuncts; side.
  - call_split Hq; exec; [|discriminate].
    intros [= <-]. exec. conjuncts; side.
Qed.

Lemma fund_outcome env self w0 ctx i s r :
  quiet env ->
  run env self w0 [] [] (fundEscrow ctx i s) = inr r ->
  passed ctx (FundEscrow i) s /\
  storage (world r) = store_status s i FUNDED /\
  transfers r = payments ctx (FundEscrow i) s.
Proof.
  intros Hq. unfold_contract. exec.
  destruct (_entered s) eqn:Hg; exec; [discriminate|].
  destruct (client (escrowAt s i) =? 0) eqn:Hc; exec; [discriminate|].
  destruct (status (escrowAt s i)) eqn:Hst; exec; try discriminate.
  branch; exec; [|discriminate].
  rewrite <- (leave_after_store s i FUNDED Hg).
  bool_hyps.
  destruct (token (escrowAt s i) =? 0) eqn:Htok; exec.
  - branch; exec; [|discriminate].
    intros [= <-]. exec. bool_hyps. conjuncts; side.
  - branch; exec; [|discriminate].
    call_split Hq; exec; [|discriminate].
    intros [= <-]. exec. bool_hyps. conjuncts; side.
Qed.

Lemma openDispute_outcome env self w0 ctx i s r :
  run env self w0 [] [] (openDispute ctx i s) = inr r ->
  passed ctx (OpenDispute i) s /\
  storage (world r) = store_status s i DISPUTED /\
  transfers r = [].
Proof.
  unfold_contract. exec.
  destruct (client (escrowAt s i) =? 0) eqn:Hc; exec; [discriminate|].
  destruct (status (escrowAt s i)) eqn:Hst; exec; try discriminate.
  branch; exec; [|discriminate].
  intros [= <-]. exec.
  apply orb_prop in Heqb. bool_hyps.
  conjuncts; side.
Qed.

Lemma cancelEscrow_outcome env self w0 ctx i s r :
  run env self w0 [] [] (cancelEscrow ctx i s) = inr r ->
  passed ctx (CancelEscrow i) s /\
  storage (world r) = store_status s i CANCELLED /\
  transfers r = [].
Proof.
  unfold_contract. exec.
  destruct (client (escrowAt s i) =? 0) eqn:Hc; exec; [discriminate|].
  destruct (status (escrowAt s i)) eqn:Hst; exec; try discriminate.
  branch; exec; [|discriminate].
  intros [= <-]. exec. bool_hyps. conjuncts; side.
Qed.

Lemma createEscrow_outcome env self w0 ctx p a t amt d desc s r :
  run env self w0 [] [] (enter ctx (CreateEscrow p a t amt d desc) s) = inr r ->
  passed ctx (CreateEscrow p a t amt d desc) s /\
  storage (world r) = outcome ctx (CreateEscrow p a t amt d desc) s /\
  transfers r = [].
Proof.
  unfold enter. unfold_admin. exec.
  branch; exec; [|discriminate].
  branch; exec; [|discriminate].
  branch; exec; [|discriminate].
  destruct (0 <? d) eqn:Hd; exec.
  - branch; exec; [|discriminate].
    branch; exec; [|discriminate].
    intros [= <-]. exec.
    repeat match goal with H : negb _ = true |- _ => apply negb_true_iff in H end.
    bool_hyps. conjuncts; side.
  - branch; exec; [|discriminate].
    intros [= <-]. exec.
    repeat match goal with H : negb _ = true |- _ => apply negb_true_iff in H end.
    bool_hyps. conjuncts; side.
Qed.

Lemma resolveDispute_outcome env self w0 ctx i b s r :
  quiet env ->
  run env self w0 [] [] (resolveDispute ctx i b s) = inr r ->
  passed ctx (ResolveDispute i b) s /\
  storage (world r) = outcome ctx (ResolveDispute i b) s /\
  transfers r = payments ctx (ResolveDispute i b) s.
Proof.
  intros Hq.
  unfold resolveDispute, escrowExists, inStatus, onlyArbitrator, escrow_field.
  cbn -[refundToClient releaseToProvider].
  destruct (client (escrowAt s i) =? 0) eqn:Hc;
    cbn -[refundToClient releaseToProvider]; [discriminate|].
  destruct (status (escrowAt s i)) eqn:Hst;
    cbn -[refundToClient releaseToProvider]; try discriminate.
  destruct (isAuthorized s (msg_sender ctx)
            || (arbitrator (escrowAt s i) =? msg_sender ctx)) eqn:Harb;
    cbn -[refundToClient releaseToProvider]; [|discriminate].
  destruct b; cbn -[refundToClient releaseToProvider];
    match goal with |- run _ _ _ [?ev] [] ?t = _ -> _ =>
      pose proof (run_events_before env self t w0 [ev] [] []) as Hpre;
      cbn [app] in Hpre; rewrite Hpre; clear Hpre
    end.
  - destruct (run env self w0 [] [] (refundToClient ctx i s)) as [|r'] eqn:Hrun;
      [discriminate|].
    intros [= <-]. cbn [world transfers].
    destruct (refund_outcome _ _ _ _ _ _ _ Hq Hrun) as ((Hg & _) & Hs & Hcs).
    bool_hyps. split; [|split; assumption].
    cbn. conjuncts; side.
  - destruct (run env self w0 [] []
                (releaseToProvider ctx i (store_status s i FUNDED)))
      as [|r'] eqn:Hrun; [discriminate|].
    intros [= <-]. cbn [world transfers].
    destruct (release_outcome _ _ _ _ _ _ _ Hq Hrun)
      as ((Hg & _ & _ & _ & Hm & Hp) & Hs & Hcs).
    clear Hrun. autorewrite with storage in *.
    unfold feeOf in *. destruct (escrowAt s i) as [] eqn:He. cbn in *.
    bool_hyps. split; [|split].
    + unfold feeOf. cbn. conjuncts; try side.
      unfold may_arbitrate. rewrite He. exact Harb.
    + rewrite Hs. unfold released, feeOf. autorewrite with storage.
      rewrite store_status_twice. reflexivity.
    + rewrite Hcs. reflexivity.
Qed.

Lemma admin_outcome env self w0 ctx f s r :
  quiet env ->
  match f with
  | AddArbitrator _ | RemoveArbitrator _ | SetFeeCollector _ | SetDefaultFee _
  | EmergencyWithdraw _ _ => True
  | _ => False
  end ->
  run env self w0 [] [] (enter ctx f s) = inr r ->
  passed ctx f s /\ storage (world r) = outcome ctx f s /\
  transfers r = payments ctx f s.
Proof.
  intros Hq Hf.
  destruct f; try contradiction; unfold enter; unfold_admin; exec;
    (destruct (_owner s =? msg_sender ctx) eqn:Ho; exec; [|discriminate]);
    bool_hyps.
  - branch; exec; [|discriminate]. intros [= <-]. exec.
    apply negb_true_iff in Heqb. bool_hyps. conjuncts; side.
  - intros [= <-]. exec. conjuncts; side.
  - branch; exec; [|discriminate]. intros [= <-]. exec.
    apply negb_true_iff in Heqb. bool_hyps. conjuncts; side.
  - branch; exec; [|discriminate]. intros [= <-]. exec.
    bool_hyps. conjuncts; side.
  - destruct (token_ =? 0) eqn:Htok; exec.
    + call_split Hq; exec; [|discriminate].
      intros [= <-]. exec. conjuncts; side.
    + call_split Hq; exec; [|discriminate].
      intros [= <-]. exec. conjuncts; side.
Qed.

(** The contract as a transition system: with recipients that leave the
    storage alone, a call that returns has passed the checks of [passed],
    leaves the storage of [outcome] and has made the calls of [payments]. *)
Lemma run_outcome env self w0 ctx f s r :
  quiet env ->
  run env self w0 [] [] (enter ctx f s) = inr r ->
  passed ctx f s /\ storage (world r) = outcome ctx f s /\
  transfers r = payments ctx f s.
Proof.
  intros Hq Hrun. destruct f.
  - eapply createEscrow_outcome; eassumption.
  - eapply fund_outcome; eassumption.
  - eapply release_outcome; eassumption.
  - eapply refund_outcome; eassumption.
  - eapply openDispute_outcome; eassumption.
  - eapply resolveDispute_outcome; eassumption.
  - eapply cancelEscrow_outcome; eassumption.
  - eapply admin_outcome; [eassumption | exact I | eassumption].
  - eapply admin_outcome; [eassumption | exact I | eassumption].
  - eapply admin_outcome; [eassumption | exact I | eassumption].
  - eapply admin_outcome; [eassumption | exact I | eassumption].
  - eapply admin_outcome; [eassumption | exact I | eassumption].
Qed.

(** A call that succeeds is a run that returns, on the world in which the
    value has arrived. *)
Lemma transact_success_run {A} payable env w w' ctx (body : M A) a evs cs :
  transact payable env w ctx body = (w', Success a evs cs) ->
  exists r,
    run env (this ctx) (move_eth w (msg_sender ctx) (this ctx) (msg_value ctx))
        [] [] (body (storage w)) = inr r /\
    world r = w' /\ returned r = a /\ events r = evs /\ transfers r = cs /\
    (msg_value ctx = 0 \/
     payable = true /\ 0 < msg_value ctx <= balanceOf w (msg_sender ctx)).
Proof.
  unfold transact.
  destruct (negb payable && negb (msg_value ctx =? 0)) eqn:Hp; [discriminate|].
  destruct (negb (msg_value ctx =? 0) &&
            negb ((0 <? msg_value ctx) &&
                  (msg_value ctx <=? balanceOf w (msg_sender ctx)))) eqn:Hv;
    [discriminate|].
  destruct (run _ _ _ _ _ _) as [err | r]; [discriminate|].
  intros [= <- <- <- <-]. exists r.
  split; [reflexivity|]. split; [reflexivity|]. split; [reflexivity|].
  split; [reflexivity|]. split; [reflexivity|].
  destruct (msg_value ctx =? 0) eqn:H0; bool_hyps; [left; assumption|right].
  cbn in Hp, Hv. rewrite andb_true_r in Hp. apply negb_false_iff in Hp, Hv.
  bool_hyps. auto.
Qed.

Lemma transact_outcome env w w' ctx f a evs cs :
  quiet env ->
  transact (is_payable f) env w ctx (enter ctx f) = (w', Success a evs cs) ->
  passed ctx f (storage w) /\
  storage w' = outcome ctx f (storage w) /\
  cs = payments ctx f (storage w).
Proof.
  intros Hq Hrun.
  apply transact_success_run in Hrun as (r & Hrun & <- & _ & _ & <- & _).
  eapply run_outcome; eassumption.
Qed.

(** ** What a call does to the records *)

Lemma escrowAt_released s i j :
  escrowAt (released s i) j = escrowAt (store_status s i RELEASED) j.
Proof. unfold released. by destruct (0 <? feeOf (escrowAt s i)). Qed.

Lemma escrowAt_store_status_any s i j st :
  escrowAt (store_status s i st) j =
  if decide (i = j) then with_status (escrowAt s i) st else escrowAt s j.
Proof.
  destruct (decide (i = j)) as [<- | Hne].
  - apply escrowAt_store_status.
  - by apply escrowAt_store_status_ne.
Qed.

Lemma may_move_moves s i who a b : may_move s i who a b = true -> moves a b = true.
Proof. destruct a, b; cbn; congruence. Qed.

(** After a call that went through, a record is as it was, or it existed
    and has taken one step of the status graph that the sender may make,
    or it is the record just created under the identifier the counter
    gave. *)
Lemma escrowAt_outcome ctx f s j :
  passed ctx f s ->
  escrowAt (outcome ctx f s) j = escrowAt s j \/
  (client (escrowAt s j) <> 0 /\
   exists st, may_move s j (msg_sender ctx) (status (escrowAt s j)) st = true /\
              escrowAt (outcome ctx f s) j = with_status (escrowAt s j) st) \/
  (j = _escrowIdCounter s /\
   exists p a t amt d desc,
     f = CreateEscrow p a t amt d desc /\ p <> 0 /\ 0 < amt /\
     escrowAt (outcome ctx f s) j =
       mkEscrowData (msg_sender ctx) p a t amt (defaultFee s) CREATED
                    (block_timestamp ctx) d desc).
Proof.
  intros Hp.
  assert (Hstep : forall i st,
            client (escrowAt s i) <> 0 ->
            may_move s i (msg_sender ctx) (status (escrowAt s i)) st = true ->
            escrowAt (store_status s i st) j = escrowAt s j \/
            (client (escrowAt s j) <> 0 /\
             exists st', may_move s j (msg_sender ctx) (status (escrowAt s j)) st' = true /\
                escrowAt (store_status s i st) j = with_status (escrowAt s j) st')).
  { intros i st Hex Hm. rewrite escrowAt_store_status_any.
    destruct (decide (i = j)) as [<- | Hne]; [right|left; reflexivity].
    split; [assumption|]. exists st. auto. }
  destruct f; cbn in Hp |- *; try (left; reflexivity).
  - destruct (decide (j = _escrowIdCounter s)) as [-> | Hne].
    + right; right. split; [reflexivity|].
      destruct Hp as (? & ? & ? & ? & ?).
      eexists _, _, _, _, _, _. split; [reflexivity|].
      split; [assumption|]. split; [assumption|].
      unfold escrowAt; cbn. by rewrite lookup_insert_eq.
    + left. unfold escrowAt; cbn. by rewrite lookup_insert_ne.
  - destruct Hp as (_ & Hex & Hst & Hc & _).
    destruct (Hstep escrowId FUNDED Hex) as [? | ?]; auto.
    rewrite Hst. cbn. rewrite Hc. apply Z.eqb_refl.
  - destruct Hp as (_ & Hex & Hst & Hc & _). rewrite escrowAt_released.
    destruct (Hstep escrowId RELEASED Hex) as [? | ?]; auto.
    rewrite Hst. exact Hc.
  - destruct Hp as (_ & Hex & Harb & Hst).
    destruct (Hstep escrowId REFUNDED Hex) as [? | ?]; auto.
    destruct Hst as [-> | ->]; exact Harb.
  - destruct Hp as (Hex & Hst & Hc).
    destruct (Hstep escrowId DISPUTED Hex) as [? | ?]; auto.
    rewrite Hst. cbn. apply orb_true_iff.
    destruct Hc as [-> | ->]; [left | right]; apply Z.eqb_refl.
  - destruct Hp as (_ & Hex & Hst & Harb & _).
    destruct inFavorOfClient; rewrite ?escrowAt_released.
    + destruct (Hstep escrowId REFUNDED Hex) as [? | ?]; auto.
      rewrite Hst. exact Harb.
    + destruct (Hstep escrowId RELEASED Hex) as [? | ?]; auto.
      rewrite Hst. exact Harb.
  - destruct Hp as (Hex & Hst & Hc).
    destruct (Hstep escrowId CANCELLED Hex) as [? | ?]; auto.
    rewrite Hst. cbn. rewrite Hc. apply Z.eqb_refl.
Qed.

Lemma entered_outcome ctx f s : _entered (outcome ctx f s) = _entered s.
Proof.
  destruct f; try reflexivity.
  - cbn. unfold released. by destruct (0 <? _).
  - cbn. destruct inFavorOfClient; [reflexivity|].
    unfold released. by destruct (0 <? _).
Qed.

Lemma counter_outcome ctx f s :
  _escrowIdCounter (outcome ctx f s) =
  match f with
  | CreateEscrow _ _ _ _ _ _ => _escrowIdCounter s + 1
  | _ => _escrowIdCounter s
  end.
Proof.
  destruct f; try reflexivity.
  - cbn. unfold released. by destruct (0 <? _).
  - cbn. destruct inFavorOfClient; [reflexivity|].
    unfold released. by destruct (0 <? _).
Qed.

Lemma defaultFee_outcome ctx f s :
  defaultFee (outcome ctx f s) =
  match f with SetDefaultFee n => n | _ => defaultFee s end.
Proof.
  destruct f; try reflexivity.
  - cbn. unfold released. by destruct (0 <? _).
  - cbn. destruct inFavorOfClient; [reflexivity|].
    unfold released. by destruct (0 <? _).
Qed.

Lemma feeCollector_outcome ctx f s :
  feeCollector (outcome ctx f s) =
  match f with SetFeeCollector a => a | _ => feeCollector s end.
Proof.
  destruct f; try reflexivity.
  - cbn. unfold released. by destruct (0 <? _).
  - cbn. destruct inFavorOfClient; [reflexivity|].
    unfold released. by destruct (0 <? _).
Qed.

Lemma sound_outcome ctx f s :
  uint_args f -> passed ctx f s -> sound s -> sound (outcome ctx f s).
Proof.
  intros Hu Hp [Hc Hids Hfee Hdef Hamt Hprov Hcol Hg].
  assert (Hrec : forall j,
    let e' := escrowAt (outcome ctx f s) j in
    (client e' <> 0 -> 0 <= j < _escrowIdCounter (outcome ctx f s)) /\
    0 <= fee e' <= MAX_FEE /\ 0 <= amount e' /\
    (client e' <> 0 -> provider e' <> 0)).
  { intros j e'. subst e'. rewrite counter_outcome.
    destruct (escrowAt_outcome ctx f s j Hp)
      as [-> | [(Hex & st & _ & ->) | (-> & p & a & t & amt & d & desc & -> & Hp0 & Hamt0 & ->)]].
    - split; [|auto]. intros Hex. specialize (Hids j Hex). destruct f; lia.
    - specialize (Hfee j). specialize (Hamt j). specialize (Hprov j).
      specialize (Hids j Hex).
      destruct (escrowAt s j); cbn in *. split; [|auto]. intros _. destruct f; lia.
    - cbn. split; [lia|]. split; [assumption|]. split; [lia|auto]. }
  split.
  - rewrite counter_outcome. destruct f; lia.
  - intros i. apply Hrec.
  - intros i. apply Hrec.
  - rewrite defaultFee_outcome. destruct f; try assumption.
    cbn in Hu, Hp. lia.
  - intros i. apply Hrec.
  - intros i. apply Hrec.
  - rewrite feeCollector_outcome. destruct f; try assumption.
    cbn in Hp. tauto.
  - by rewrite entered_outcome.
Qed.

(** ** Custody *)

Lemma balanceOf_move_eth_any w from to v a :
  balanceOf (move_eth w from to v) a
  = if from =? to then balanceOf w a
    else balanceOf w a + (if a =? to then v else 0) - (if a =? from then v else 0).
Proof.
  destruct (Z.eqb_spec from to) as [<- | Hne].
  - unfold move_eth. destruct (Z.eqb_spec v 0); [reflexivity|].
    unfold balanceOf; cbn. rewrite lookup_insert_eq; cbn.
    destruct (decide (a = from)) as [-> | Ha].
    + rewrite lookup_insert_eq. cbn. lia.
    + rewrite !lookup_insert_ne by done. reflexivity.
  - by apply balanceOf_move_eth.
Qed.

Lemma tokenBalanceOf_move_token w tok from to v t a :
  tokenBalanceOf (move_token w tok from to v) t a
  = if (t =? tok) && negb (from =? to)
    then tokenBalanceOf w t a + (if a =? to then v else 0)
         - (if a =? from then v else 0)
    else tokenBalanceOf w t a.
Proof.
  unfold move_token.
  destruct (Z.eqb_spec v 0) as [-> | Hv].
  { destruct (_ && _); [|reflexivity]. destruct (a =? to), (a =? from); lia. }
  unfold tokenBalanceOf; cbn.
  destruct (Z.eqb_spec t tok) as [-> | Ht]; cbn.
  - destruct (Z.eqb_spec from to) as [<- | Hne]; cbn.
    + rewrite lookup_insert_eq; cbn.
      destruct (decide (a = from)) as [-> | Ha].
      * rewrite lookup_insert_eq. cbn. lia.
      * rewrite !lookup_insert_ne by congruence. reflexivity.
    + destruct (Z.eqb_spec a to) as [-> | Hto].
      * rewrite lookup_insert_eq, lookup_insert_ne by congruence. cbn.
        destruct (Z.eqb_spec to from); [congruence | lia].
      * rewrite lookup_insert_ne by congruence.
        destruct (Z.eqb_spec a from) as [-> | Hfrom].
        -- rewrite lookup_insert_eq. cbn. lia.
        -- rewrite lookup_insert_ne by congruence. lia.
  - rewrite !lookup_insert_ne by congruence. reflexivity.
Qed.

Lemma asset_balance_set_storage w s tok a :
  asset_balance (set_storage w s) tok a = asset_balance w tok a.
Proof. reflexivity. Qed.

(** An external call that goes through changes the holdings of the
    contract by its [flow], when the recipient does nothing else. *)
Lemma ext_call_flow accepts self w c w' tok :
  ext_call (passive accepts) self w c = Some w' ->
  asset_balance w' tok self = asset_balance w tok self + flow tok self c.
Proof.
  unfold ext_call, asset_balance, flow.
  destruct c as [to v | t to v | t from to v];
    (destruct (_ && _) eqn:Hc; [|discriminate]).
  - cbn. destruct (accepts to); [|discriminate]. intros [= <-].
    destruct (Z.eqb_spec tok 0) as [-> | Htok]; cbn.
    + rewrite balanceOf_move_eth_any. rewrite (Z.eqb_sym to self).
      destruct (Z.eqb_spec self to) as [<- | Hne]; cbn; [lia|].
      rewrite Z.eqb_refl. lia.
    + unfold tokenBalanceOf, move_eth. destruct (v =? 0); cbn; lia.
  - intros [= <-].
    destruct (Z.eqb_spec tok 0) as [-> | Htok]; cbn.
    + unfold balanceOf, move_token. destruct (v =? 0); cbn; lia.
    + rewrite tokenBalanceOf_move_token. rewrite (Z.eqb_sym t tok).
      destruct (Z.eqb_spec tok t) as [<- | Ht]; cbn; [|lia].
      rewrite (Z.eqb_sym to self).
      destruct (Z.eqb_spec self to) as [<- | Hne]; cbn; [lia|].
      rewrite Z.eqb_refl. lia.
  - intros [= <-].
    destruct (Z.eqb_spec tok 0) as [-> | Htok]; cbn.
    + unfold balanceOf, move_token, spend_allowance.
      destruct (v =? 0), (_ || _); cbn; lia.
    + rewrite tokenBalanceOf_move_token. rewrite (Z.eqb_sym t tok).
      destruct (Z.eqb_spec tok t) as [<- | Ht]; cbn.
      * assert (Hsp : tokenBalanceOf (spend_allowance w tok from self v) tok self
                      = tokenBalanceOf w tok self).
        { unfold spend_allowance. by destruct (_ || _). }
        rewrite Hsp. rewrite (Z.eqb_sym to self), (Z.eqb_sym from self).
        destruct (from =? to), (self =? to), (self =? from); cbn; lia.
      * unfold spend_allowance, tokenBalanceOf. destruct (_ || _); cbn; lia.
Qed.

Lemma net_flow_app tok self cs1 cs2 :
  net_flow tok self (cs1 ++ cs2) = net_flow tok self cs1 + net_flow tok self cs2.
Proof.
  unfold net_flow. induction cs1 as [|c cs1 IH]; cbn; [reflexivity|].
  rewrite IH. lia.
Qed.

(** A run changes the holdings of the contract by the flows of the
    external calls that went through. *)
Lemma run_flow {A} accepts self tok (e : Exec (A * Storage)) :
  forall w evs cs r,
    run (passive accepts) self w evs cs e = inr r ->
    asset_balance (world r) tok self - net_flow tok self (transfers r)
    = asset_balance w tok self - net_flow tok self cs.
Proof.
  induction e as [a | err | ev k IH | s c k IH]; intros w evs cs r; cbn.
  - intros [= <-]. reflexivity.
  - discriminate.
  - apply IH.
  - destruct (ext_call (passive accepts) self (set_storage w s) c) as [w2|] eqn:Hc.
    + intros Hrun. apply IH in Hrun. rewrite Hrun.
      rewrite (ext_call_flow _ _ _ _ _ tok Hc), net_flow_app.
      rewrite asset_balance_set_storage. cbn. lia.
    + intros Hrun. apply IH in Hrun. rewrite Hrun.
      rewrite asset_balance_set_storage. reflexivity.
Qed.

Lemma held_nonneg s tok i : sound s -> 0 <= held tok (escrowAt s i).
Proof.
  intros Hs. unfold held. destruct (_ && _); [|lia]. by apply amount_nonneg.
Qed.

(** Writing one record changes the sum by the difference of what is held
    for it. *)
Lemma owed_insert (m : gmap Z EscrowData) tok i e' :
  map_fold (fun (_ : Z) e acc => held tok e + acc) 0 (<[i := e']> m)
  = map_fold (fun (_ : Z) e acc => held tok e + acc) 0 m
    - held tok (default zeroEscrow (m !! i)) + held tok e'.
Proof.
  assert (H0 : held tok zeroEscrow = 0)
    by (unfold held; cbn; by destruct (_ && _)).
  destruct (m !! i) as [e|] eqn:Hi; cbn [default from_option option_rect].
  - rewrite <- (insert_delete_eq m i e').
    rewrite map_fold_insert_L; [|intros; lia|by rewrite lookup_delete_eq].
    rewrite (map_fold_delete_L _ _ i e m); [|intros; lia|assumption].
    change (id e) with e. lia.
  - rewrite map_fold_insert_L; [|intros; lia|assumption].
    change (default zeroEscrow None) with zeroEscrow. lia.
Qed.

Lemma owed_store_status s i st tok :
  owed (store_status s i st) tok
  = owed s tok - held tok (escrowAt s i) + held tok (with_status (escrowAt s i) st).
Proof. unfold owed, store_status; cbn. apply owed_insert. Qed.

Lemma owed_released s i tok :
  owed (released s i) tok = owed (store_status s i RELEASED) tok.
Proof. unfold released. by destruct (0 <? _). Qed.

Lemma feeOf_nonneg e : 0 <= amount e * fee e -> 0 <= feeOf e.
Proof. intros H. unfold feeOf. by apply Z.div_pos. Qed.

Lemma asset_balance_arrival w from self v tok :
  from <> self ->
  asset_balance (move_eth w from self v) tok self
  = asset_balance w tok self + (if tok =? 0 then v else 0).
Proof.
  intros Hne. unfold asset_balance. destruct (tok =? 0).
  - rewrite balanceOf_move_eth by assumption. rewrite Z.eqb_refl.
    destruct (Z.eqb_spec self from); [congruence|lia].
  - unfold tokenBalanceOf, move_eth. destruct (v =? 0); cbn; lia.
Qed.

Ltac eqb_cases :=
  repeat match goal with
  | |- context [?a =? ?b] => destruct (Z.eqb_spec a b); subst; cbn
  | |- context [0 <? ?b] => destruct (Z.ltb_spec 0 b); cbn
  end.

Lemma held_idle tok e : holds_funds (status e) = false -> held tok e = 0.
Proof. intros H. unfold held. rewrite H, andb_false_r. reflexivity. Qed.

Lemma held_live tok e :
  holds_funds (status e) = true ->
  held tok e = if token e =? tok then amount e else 0.
Proof. intros H. unfold held. rewrite H, andb_true_r. reflexivity. Qed.

Lemma held_with_status tok e st :
  held tok (with_status e st)
  = if holds_funds st then (if token e =? tok then amount e else 0) else 0.
Proof.
  destruct (holds_funds st) eqn:H.
  - rewrite held_live by (by destruct e). by destruct e.
  - apply held_idle. by destruct e.
Qed.

(** What a call adds to the sum owed is covered by the value it brings
    and the transfers it makes. *)
Lemma custody_step ctx f s tok :
  sound s ->
  passed ctx f s ->
  msg_sender ctx <> this ctx ->
  match f with EmergencyWithdraw _ _ => False | _ => True end ->
  (if is_payable f then True else msg_value ctx = 0) ->
  owed (outcome ctx f s) tok - owed s tok
  <= net_flow tok (this ctx) (payments ctx f s)
     + (if tok =? 0 then msg_value ctx else 0).
Proof.
  intros Hs Hp Hne Hf Hv.
  pose proof (fun i => amount_nonneg s Hs i) as Hamt.
  destruct f; cbn [outcome payments is_payable] in *; try contradiction;
    try (rewrite Hv; cbn; destruct (tok =? 0); lia).
  - unfold owed; cbn. rewrite owed_insert.
    pose proof (held_nonneg s tok (_escrowIdCounter s) Hs) as Hh.
    unfold escrowAt in Hh. rewrite Hv.
    rewrite (held_idle tok (mkEscrowData _ _ _ _ _ _ _ _ _ _)) by reflexivity.
    destruct (tok =? 0); lia.
  - destruct Hp as (_ & _ & Hst & _ & Hval).
    rewrite owed_store_status, held_with_status, held_idle by (by rewrite Hst).
    cbn [holds_funds]. specialize (Hamt escrowId).
    destruct (Z.eqb_spec (token (escrowAt s escrowId)) 0) as [Ht | Ht]; cbn.
    + rewrite Hval, Ht. eqb_cases; lia.
    + rewrite Hval. rewrite Z.eqb_refl.
      destruct (Z.eqb_spec (msg_sender ctx) (this ctx)); [contradiction|].
      eqb_cases; lia.
  - destruct Hp as (_ & _ & Hst & _ & Hm & Hpa).
    pose proof (feeOf_nonneg _ (proj1 Hm)) as Hfee.
    rewrite owed_released, owed_store_status, held_with_status, held_live
      by (by rewrite Hst).
    cbn [holds_funds]. unfold release_payments, payout. rewrite Hv.
    set (fa := feeOf _) in *. clearbody fa. specialize (Hamt escrowId).
    eqb_cases; lia.
  - destruct Hp as (_ & _ & _ & Hst).
    rewrite owed_store_status, held_with_status, held_live
      by (by destruct Hst as [-> | ->]).
    cbn [holds_funds]. unfold payout. rewrite Hv. specialize (Hamt escrowId).
    eqb_cases; lia.
  - destruct Hp as (_ & Hst & _).
    rewrite owed_store_status, held_with_status, held_live by (by rewrite Hst).
    cbn [holds_funds]. rewrite Hv. eqb_cases; lia.
  - destruct Hp as (_ & _ & Hst & _ & Hb). specialize (Hamt escrowId).
    destruct inFavorOfClient.
    + rewrite owed_store_status, held_with_status, held_live by (by rewrite Hst).
      cbn [holds_funds]. unfold payout. rewrite Hv. eqb_cases; lia.
    + destruct (Hb eq_refl) as [Hm Hpa].
      pose proof (feeOf_nonneg _ (proj1 Hm)) as Hfee.
      rewrite owed_released, owed_store_status, held_with_status, held_live
        by (by rewrite Hst).
      cbn [holds_funds]. unfold release_payments, payout. rewrite Hv.
      set (fa := feeOf _) in *. clearbody fa.
      eqb_cases; lia.
  - destruct Hp as (_ & Hst & _).
    rewrite owed_store_status, held_with_status, held_idle by (by rewrite Hst).
    cbn [holds_funds]. rewrite Hv. eqb_cases; lia.
  - unfold owed; cbn. rewrite Hv. destruct (tok =? 0); lia.
  - unfold owed; cbn. rewrite Hv. destruct (tok =? 0); lia.
  - unfold owed; cbn. rewrite Hv. destruct (tok =? 0); lia.
  - unfold owed; cbn. rewrite Hv. destruct (tok =? 0); lia.
Qed.

(** Every call that goes through, other than [emergencyWithdraw], leaves
    the contract with at least as much beyond what it owes as before. *)
Lemma surplus_step accepts w w' ctx f a evs cs tok :
  sound (storage w) ->
  ordinary_call ctx f ->
  transact (is_payable f) (passive accepts) w ctx (enter ctx f)
    = (w', Success a evs cs) ->
  surplus w (this ctx) tok <= surplus w' (this ctx) tok.
Proof.
  intros Hs (_ & Hne & Hf) Hrun.
  apply transact_success_run in Hrun as (r & Hrun & <- & _ & _ & _ & Hv).
  destruct (run_outcome _ _ _ _ _ _ _ (passive_quiet accepts) Hrun)
    as (Hp & Hst & Hcs).
  pose proof (run_flow accepts (this ctx) tok _ _ _ _ _ Hrun) as Hflow.
  rewrite asset_balance_arrival in Hflow by assumption.
  cbn [net_flow foldr] in Hflow.
  assert (Hval : if is_payable f then True else msg_value ctx = 0).
  { destruct (is_payable f); [exact I|]. destruct Hv as [? | [? _]]; congruence. }
  pose proof (custody_step ctx f (storage w) tok Hs Hp Hne Hf Hval) as Hstep.
  unfold surplus. rewrite Hst. rewrite Hcs in Hflow. lia.
Qed.

(** ** Calls one after the other *)

(** A call that does not go through leaves the world as it was. *)
Lemma transact_failed {A} payable env w w' ctx (body : M A) out :
  transact payable env w ctx body = (w', out) ->
  (exists a evs cs, out = Success a evs cs) \/ w' = w.
Proof.
  unfold transact.
  destruct (_ && _); [intros [= <- <-]; by right|].
  destruct (_ && _); [intros [= <- <-]; by right|].
  destruct (run _ _ _ _ _ _).
  - intros [= <- <-]; by right.
  - intros [= <- <-]. left. eauto.
Qed.

Lemma deploy_sound deployer fc s : deploy deployer fc = inr s -> sound s.
Proof.
  unfold deploy. destruct (Z.eqb_spec fc 0) as [|Hfc]; [discriminate|].
  intros [= <-].
  split; cbn; try done; unfold escrowAt; cbn; intros i;
    rewrite lookup_empty; cbn; try done; unfold MAX_FEE; lia.
Qed.

Lemma step_sound env w w' ctx f out :
  quiet env -> uint_args f -> sound (storage w) ->
  transact (is_payable f) env w ctx (enter ctx f) = (w', out) ->
  sound (storage w').
Proof.
  intros Hq Hu Hs Hrun.
  destruct (transact_failed _ _ _ _ _ _ _ Hrun) as [(a & evs & cs & ->) | ->];
    [|assumption].
  destruct (transact_outcome _ _ _ _ _ _ _ _ Hq Hrun) as (Hp & -> & _).
  by apply sound_outcome.
Qed.

Lemma history_sound allowed env self w1 w2 :
  quiet env ->
  (forall ctx f, allowed ctx f -> uint_args f) ->
  sound (storage w1) ->
  history allowed env self w1 w2 ->
  sound (storage w2).
Proof.
  intros Hq Ha Hs Hh. induction Hh as [|w w1 w2 ctx f out _ IH _ Hf Hrun].
  - assumption.
  - exact (step_sound env w1 w2 ctx f out Hq (Ha _ _ Hf) (IH Hs) Hrun).
Qed.

(** What one call does to a record that exists. *)
Lemma step_record env w w' ctx f out j :
  quiet env -> sound (storage w) ->
  client (escrowAt (storage w) j) <> 0 ->
  transact (is_payable f) env w ctx (enter ctx f) = (w', out) ->
  escrowAt (storage w') j = escrowAt (storage w) j \/
  exists st,
    may_move (storage w) j (msg_sender ctx) (status (escrowAt (storage w) j)) st = true /\
    escrowAt (storage w') j = with_status (escrowAt (storage w) j) st.
Proof.
  intros Hq Hs Hex Hrun.
  destruct (transact_failed _ _ _ _ _ _ _ Hrun) as [(a & evs & cs & ->) | ->];
    [|by left].
  destruct (transact_outcome _ _ _ _ _ _ _ _ Hq Hrun) as (Hp & -> & _).
  destruct (escrowAt_outcome ctx f (storage w) j Hp)
    as [? | [(_ & st & ? & ?) | (-> & _)]].
  - by left.
  - right. eauto.
  - apply (ids_below_counter _ Hs) in Hex. lia.
Qed.

Lemma terminal_no_move a b : is_terminal a = true -> moves a b = false.
Proof. by destruct a, b. Qed.

(** X1. Whatever calls are made after the constructor, by anyone and with any
    arguments: identifiers in use are below the counter, no fee rate is
    above MAX_FEE, every record has a provider, the fee collector is set and
    the reentrancy flag is down between calls. *)
Theorem invariants_hold_from_deployment env self deployer fc w0 w :
  quiet env ->
  deploy deployer fc = inr (storage w0) ->
  history any_call env self w0 w ->
  sound (storage w).
Proof.
  intros Hq Hd Hh.
  eapply history_sound; [exact Hq | | eapply deploy_sound; exact Hd | exact Hh].
  intros ctx f Hf. exact Hf.
Qed.

(** X2. As long as nothing enters the contract again while one of its calls
    is running (the recipients of its payments leave its storage alone, and
    its tokens are plain ledgers, which call nobody), and from a storage
    that has the invariants of X1: whatever calls are made, a record that
    exists keeps its parties, asset, amount, fee rate, dates and
    description; its status follows the arrows of [moves]; and once it is
    RELEASED, REFUNDED or CANCELLED the record does not change again. A
    token that calls back is outside this: X10 shows a CANCELLED record
    made FUNDED by one. *)
Theorem existing_records_only_move_forward env self w1 w2 j :
  quiet env ->
  sound (storage w1) ->
  history any_call env self w1 w2 ->
  client (escrowAt (storage w1) j) <> 0 ->
  let e1 := escrowAt (storage w1) j in
  let e2 := escrowAt (storage w2) j in
  e2 = with_status e1 (status e2) /\
  rtc (fun a b => moves a b = true) (status e1) (status e2) /\
  (is_terminal (status e1) = true -> e2 = e1).
Proof.
  intros Hq Hs Hh Hex. cbn zeta.
  assert (Hmain :
    escrowAt (storage w2) j
      = with_status (escrowAt (storage w1) j) (status (escrowAt (storage w2) j)) /\
    rtc (fun a b => moves a b = true) (status (escrowAt (storage w1) j))
        (status (escrowAt (storage w2) j))).
  { induction Hh as [|w w1 w2 ctx f out Hh IH _ Hf Hrun].
    - split; [by rewrite with_status_same | apply rtc_refl].
    - destruct (IH Hs Hex) as [Heq Hrtc].
      assert (Hs1 : sound (storage w1)).
      { eapply history_sound; [exact Hq | | exact Hs | exact Hh]. auto. }
      assert (Hex1 : client (escrowAt (storage w1) j) <> 0)
        by (rewrite Heq; by destruct (escrowAt (storage w) j)).
      destruct (step_record _ _ _ _ _ _ j Hq Hs1 Hex1 Hrun)
        as [-> | (st & Hm & ->)]; [by split|].
      apply may_move_moves in Hm. split.
      + rewrite Heq at 1. by destruct (escrowAt (storage w) j).
      + eapply rtc_r; [exact Hrtc|].
        by destruct (escrowAt (storage w1) j). }
  destruct Hmain as [Heq Hrtc]. split; [exact Heq|]. split; [exact Hrtc|].
  intros Hterm.
  apply rtc_inv in Hrtc as [Hsame | (b & Hm & _)].
  - rewrite Heq, <- Hsame. apply with_status_same.
  - rewrite terminal_no_move in Hm by assumption. discriminate.
Qed.

(** The scenario of the test-suite as a history: the owner registers the
    arbitrator, the client creates record 0, funds it and releases it. *)
Lemma scenario_to_created allowed :
  (forall ctx f, uint_args f -> msg_sender ctx <> this ctx ->
     match f with EmergencyWithdraw _ _ => False | _ => True end ->
     allowed ctx f) ->
  history allowed everyone escrow_address genesis w_created.
Proof.
  intros Ha.
  eapply (history_call _ _ _ _ w_ready w_created (by_ client_ 0)
            (CreateEscrow provider_ 0 0 1000000 0 "x")
            (Success tt [EscrowCreated 0 client_ provider_ 0 1000000 0] [])).
  - eapply (history_call _ _ _ _ genesis w_ready (by_ owner_ 0)
              (AddArbitrator arbitrator_)
              (Success tt [ArbitratorAdded arbitrator_] [])).
    + apply history_start.
    + reflexivity.
    + apply Ha; [exact I | vm_compute; discriminate | exact I].
    + vm_compute. reflexivity.
  - reflexivity.
  - apply Ha; [|vm_compute; discriminate | exact I].
    split; split; vm_compute; discriminate.
  - vm_compute. reflexivity.
Qed.

Lemma scenario_from_created allowed :
  (forall ctx f, uint_args f -> msg_sender ctx <> this ctx ->
     match f with EmergencyWithdraw _ _ => False | _ => True end ->
     allowed ctx f) ->
  history allowed everyone escrow_address w_created w_released.
Proof.
  intros Ha.
  eapply (history_call _ _ _ _ w_funded w_released (by_ client_ 0)
            (ReleaseToProvider 0)
            (Success tt [EscrowReleased 0 provider_ 975000 25000]
                        [SendValue provider_ 975000; SendValue collector_ 25000])).
  - eapply (history_call _ _ _ _ w_created w_funded (by_ client_ 1000000)
              (FundEscrow 0)
              (Success tt [EscrowFunded 0 client_ 1000000] [])).
    + apply history_start.
    + reflexivity.
    + apply Ha; [exact I | vm_compute; discriminate | exact I].
    + vm_compute. reflexivity.
  - reflexivity.
  - apply Ha; [exact I | vm_compute; discriminate | exact I].
  - vm_compute. reflexivity.
Qed.

Lemma history_trans allowed env self wa wb wc :
  history allowed env self wa wb -> history allowed env self wb wc ->
  history allowed env self wa wc.
Proof.
  intros Hab Hbc. induction Hbc as [|w w1 w2 ctx f out _ IH Hthis Hf Hrun];
    [assumption|].
  exact (history_call _ _ _ _ _ _ ctx f out (IH Hab) Hthis Hf Hrun).
Qed.

Lemma any_call_allowed ctx f :
  uint_args f -> msg_sender ctx <> this ctx ->
  match f with EmergencyWithdraw _ _ => False | _ => True end ->
  any_call ctx f.
Proof. intros Hu _ _. exact Hu. Qed.

Lemma ordinary_call_allowed ctx f :
  uint_args f -> msg_sender ctx <> this ctx ->
  match f with EmergencyWithdraw _ _ => False | _ => True end ->
  ordinary_call ctx f.
Proof. intros. split; [|split]; assumption. Qed.

Lemma sound_w_created : sound (storage w_created).
Proof.
  eapply (history_sound any_call everyone escrow_address genesis w_created).
  - apply passive_quiet.
  - intros ctx f Hf. exact Hf.
  - apply (deploy_sound owner_ collector_). reflexivity.
  - apply scenario_to_created, any_call_allowed.
Qed.

Lemma invariants_hold_from_deployment_witness : sound (storage w_released).
Proof.
  apply (invariants_hold_from_deployment everyone escrow_address owner_ collector_
           genesis w_released).
  - apply passive_quiet.
  - reflexivity.
  - eapply history_trans.
    + apply scenario_to_created, any_call_allowed.
    + apply scenario_from_created, any_call_allowed.
Defined.

Lemma existing_records_only_move_forward_witness :
  escrowAt (storage w_released) 0
    = with_status (escrowAt (storage w_created) 0) RELEASED /\
  rtc (fun a b => moves a b = true) CREATED RELEASED.
Proof.
  destruct (existing_records_only_move_forward everyone escrow_address
              w_created w_released 0) as (H1 & H2 & _).
  - apply passive_quiet.
  - exact sound_w_created.
  - apply scenario_from_created, any_call_allowed.
  - vm_compute. discriminate.
  - split; [exact H1 | exact H2].
Defined.

(** ** Who may move a record *)

(** X3. A call that goes through leaves a record that exists as it was, or
    moves its status along one arrow that its sender may take: the client
    funds and cancels, the client or the provider opens a dispute, the
    client, the record's arbitrator or a registered one releases, and only
    an arbitrator refunds or settles a dispute. Nothing else of the record
    changes. *)
Theorem record_moves_need_the_role env w w' ctx f a evs cs j :
  quiet env ->
  sound (storage w) ->
  client (escrowAt (storage w) j) <> 0 ->
  transact (is_payable f) env w ctx (enter ctx f) = (w', Success a evs cs) ->
  let e := escrowAt (storage w) j in
  let e' := escrowAt (storage w') j in
  e' = e \/
  (may_move (storage w) j (msg_sender ctx) (status e) (status e') = true /\
   e' = with_status e (status e')).
Proof.
  intros Hq Hs Hex Hrun. cbn zeta.
  destruct (step_record _ _ _ _ _ _ j Hq Hs Hex Hrun) as [-> | (st & Hm & ->)];
    [by left|right].
  destruct (escrowAt (storage w) j); cbn in *. split; [exact Hm | reflexivity].
Qed.

Lemma record_moves_need_the_role_witness :
  may_move (storage w_created) 0 client_ CREATED FUNDED = true /\
  escrowAt (storage w_funded) 0 = with_status (escrowAt (storage w_created) 0) FUNDED.
Proof.
  destruct (record_moves_need_the_role everyone w_created w_funded
              (by_ client_ 1000000) (FundEscrow 0) tt
              [EscrowFunded 0 client_ 1000000] [] 0) as [H | H].
  - apply passive_quiet.
  - exact sound_w_created.
  - vm_compute. discriminate.
  - vm_compute. reflexivity.
  - vm_compute in H. discriminate H.
  - exact H.
Defined.

(** ** Custody *)

(** X4. For the native asset and for tokens that are plain ledgers (a
    transfer moves exactly its amount; a token that keeps a fee on the way
    in would leave the contract short of what [fundEscrow] records). Calls
    other than [emergencyWithdraw], made from other addresses than the
    contract's own to recipients that only take or refuse what they are
    sent: in each asset, what the contract holds beyond the amounts of its
    FUNDED and DISPUTED records never goes down. A contract that covers
    those amounts keeps covering them. *)
Theorem contract_stays_backed accepts self w1 w2 :
  sound (storage w1) ->
  history ordinary_call (passive accepts) self w1 w2 ->
  (forall tok, surplus w1 self tok <= surplus w2 self tok) /\
  (backed w1 self -> backed w2 self).
Proof.
  intros Hs Hh.
  assert (Hmono : forall tok, surplus w1 self tok <= surplus w2 self tok).
  { intros tok. induction Hh as [|w w1 w2 ctx f out Hh IH Hthis Hf Hrun]; [lia|].
    specialize (IH Hs).
    assert (Hs1 : sound (storage w1)).
    { eapply history_sound; [apply passive_quiet | | exact Hs | exact Hh].
      intros ? ? [? _]. assumption. }
    destruct (transact_failed _ _ _ _ _ _ _ Hrun) as [(a & evs & cs & ->) | ->];
      [|assumption].
    pose proof (surplus_step _ _ _ _ _ _ _ _ tok Hs1 Hf Hrun) as Hstep.
    rewrite Hthis in Hstep. lia. }
  split; [exact Hmono|].
  intros Hb tok. specialize (Hb tok). specialize (Hmono tok). lia.
Qed.

Lemma contract_stays_backed_witness :
  surplus w_created escrow_address 0 <= surplus w_released escrow_address 0.
Proof.
  destruct (contract_stays_backed (fun _ => true) escrow_address
              w_created w_released) as [H _].
  - exact sound_w_created.
  - apply scenario_from_created, ordinary_call_allowed.
  - exact (H 0).
Defined.

(** X5. [emergencyWithdraw] is not limited to that surplus: the owner can take
    any amount up to the whole native balance of the contract, the records
    stay as they are, and what the contract holds beyond what it owes goes
    down by the amount taken. *)
Theorem emergencyWithdraw_is_not_limited_to_surplus accepts w ctx amt :
  msg_sender ctx = _owner (storage w) ->
  msg_value ctx = 0 ->
  accepts (_owner (storage w)) = true ->
  _owner (storage w) <> this ctx ->
  0 <= amt <= balanceOf w (this ctx) ->
  let w' := move_eth w (this ctx) (_owner (storage w)) amt in
  transact false (passive accepts) w ctx (emergencyWithdraw ctx 0 amt)
    = (w', Success tt [] [SendValue (_owner (storage w)) amt]) /\
  storage w' = storage w /\
  surplus w' (this ctx) 0 = surplus w (this ctx) 0 - amt.
Proof.
  intros Hsender Hv Hacc Hne Hamt. cbn zeta.
  split; [|split].
  - rewrite transact_no_value by assumption.
    unfold emergencyWithdraw, onlyOwner. exec.
    rewrite Hsender, Z.eqb_refl. exec.
    change (0 =? 0) with true. exec.
    rewrite set_storage_storage. unfold ext_call.
    destruct Hamt as [H0 H1]. apply Z.leb_le in H0, H1. rewrite H0, H1. cbn.
    rewrite Hacc. exec.
    rewrite <- (storage_move_eth w (this ctx) (_owner (storage w)) amt) at 2.
    rewrite set_storage_storage. reflexivity.
  - apply storage_move_eth.
  - unfold surplus, asset_balance. cbn.
    rewrite storage_move_eth, balanceOf_move_eth by congruence.
    rewrite Z.eqb_refl. destruct (Z.eqb_spec (this ctx) (_owner (storage w))); [congruence|lia].
Qed.

Lemma emergencyWithdraw_is_not_limited_to_surplus_witness :
  transact false everyone w_funded (by_ owner_ 0)
           (emergencyWithdraw (by_ owner_ 0) 0 1000000)
    = (move_eth w_funded escrow_address owner_ 1000000,
       Success tt [] [SendValue owner_ 1000000]) /\
  status (escrowAt (storage (move_eth w_funded escrow_address owner_ 1000000)) 0)
    = FUNDED /\
  surplus (move_eth w_funded escrow_address owner_ 1000000) escrow_address 0
    = -1000000.
Proof.
  destruct (emergencyWithdraw_is_not_limited_to_surplus (fun _ => true) w_funded
              (by_ owner_ 0) 1000000) as (H1 & H2 & H3).
  - reflexivity.
  - reflexivity.
  - reflexivity.
  - vm_compute. discriminate.
  - split; vm_compute; discriminate.
  - split; [exact H1|]. split; [vm_compute; reflexivity|].
    etransitivity; [exact H3|]. vm_compute. reflexivity.
Defined.

(** What is held for one record is part of the sum owed. *)
Lemma owed_ge_held s tok i : sound s -> held tok (escrowAt s i) <= owed s tok.
Proof.
  intros Hs.
  assert (Hpos : forall m : gmap Z EscrowData,
            (forall j e, m !! j = Some e -> 0 <= amount e) ->
            0 <= map_fold (fun (_ : Z) e acc => held tok e + acc) 0 m).
  { intros m.
    apply (map_fold_weak_ind
             (fun r (m : gmap Z EscrowData) =>
                (forall j e, m !! j = Some e -> 0 <= amount e) -> 0 <= r)).
    - intros _. lia.
    - intros j e m' r Hj IH Hall.
      assert (0 <= held tok e).
      { unfold held. destruct (_ && _); [|lia].
        apply (Hall j). by rewrite lookup_insert_eq. }
      assert (0 <= r); [|lia].
      apply IH. intros j' e' Hj'. apply (Hall j').
      rewrite lookup_insert_ne; [assumption|]. intros ->. congruence. }
  assert (Hall : forall j e, escrows s !! j = Some e -> 0 <= amount e).
  { intros j e Hj. pose proof (amount_nonneg s Hs j) as H.
    unfold escrowAt in H. by rewrite Hj in H. }
  unfold owed, escrowAt.
  destruct (escrows s !! i) as [e|] eqn:Hi; cbn [default from_option].
  - rewrite (map_fold_delete_L _ _ i e (escrows s)); [|intros; lia|assumption].
    assert (0 <= map_fold (fun (_ : Z) e acc => held tok e + acc) 0
                          (delete i (escrows s))); [|change (id e) with e; lia].
    apply Hpos. intros j e' Hj. apply (Hall j).
    apply lookup_delete_Some in Hj. tauto.
  - assert (H0 : held tok zeroEscrow = 0)
      by (unfold held; cbn; by destruct (_ && _)).
    rewrite H0. by apply Hpos.
Qed.

(** X6. A refund of a record the contract covers goes through, for a record
    in the native asset whose client takes what it is sent, and for a
    record in a token that is a plain ledger (its transfer fails only for a
    zero recipient or a balance too low, and moves exactly the amount; a
    token that pauses, blocks the client or keeps a fee is outside this):
    called by someone who may arbitrate a FUNDED or DISPUTED record, the
    refund succeeds, stores REFUNDED, and the client receives the whole
    amount. *)
Theorem backed_refund_goes_through accepts w ctx i :
  let e := escrowAt (storage w) i in
  sound (storage w) ->
  backed w (this ctx) ->
  client e <> 0 ->
  status e = FUNDED \/ status e = DISPUTED ->
  may_arbitrate (storage w) i (msg_sender ctx) = true ->
  msg_value ctx = 0 ->
  (token e = 0 -> accepts (client e) = true) ->
  exists w',
    transact false (passive accepts) w ctx (refundToClient ctx i)
      = (w', Success tt [EscrowRefunded i (client e) (amount e)]
                        [payout e (client e) (amount e)]) /\
    storage w' = store_status (storage w) i REFUNDED /\
    (client e <> this ctx ->
     asset_balance w' (token e) (client e)
       = asset_balance w (token e) (client e) + amount e).
Proof.
  intros e Hs Hb Hex Hst Harb Hv Hacc. subst e.
  pose proof (guard_down _ Hs) as Hg.
  pose proof (amount_nonneg _ Hs i) as Hamt.
  pose proof (owed_ge_held (storage w) (token (escrowAt (storage w) i)) i Hs) as Hheld.
  rewrite held_live in Hheld by (by destruct Hst as [-> | ->]).
  rewrite Z.eqb_refl in Hheld.
  specialize (Hb (token (escrowAt (storage w) i))).
  unfold surplus, asset_balance in Hb.
  unfold may_arbitrate in Harb.
  rewrite transact_no_value by assumption.
  unfold_contract. exec. rewrite Hg. exec.
  rewrite (proj2 (Z.eqb_neq _ _) Hex). exec. rewrite Harb. exec.
  assert (Hok : status_eqb (status (escrowAt (storage w) i)) FUNDED
                || status_eqb (status (escrowAt (storage w) i)) DISPUTED = true)
    by (destruct Hst as [-> | ->]; reflexivity).
  rewrite Hok. exec. unfold payout, asset_balance.
  destruct (Z.eqb_spec (token (escrowAt (storage w) i)) 0) as [Htok | Htok]; exec.
  - unfold ext_call. exec.
    rewrite (proj2 (Z.leb_le _ _) Hamt), (proj2 (Z.leb_le _ _) (ltac:(lia) :
      amount (escrowAt (storage w) i) <= balanceOf w (this ctx))).
    cbn. rewrite (Hacc Htok). exec.
    rewrite leave_after_store by assumption.
    eexists. split; [reflexivity|]. split; [reflexivity|].
    intros Hne. exec. rewrite balanceOf_move_eth by congruence.
    rewrite Z.eqb_refl, balanceOf_set_storage.
    destruct (Z.eqb_spec (client (escrowAt (storage w) i)) (this ctx)); [congruence|lia].
  - unfold ext_call.
    change (tokenBalanceOf (set_storage w ?s)) with (tokenBalanceOf w).
    rewrite (proj2 (Z.eqb_neq _ _) Hex), (proj2 (Z.leb_le _ _) Hamt),
      (proj2 (Z.leb_le _ _) (ltac:(lia) :
      amount (escrowAt (storage w) i)
      <= tokenBalanceOf w (token (escrowAt (storage w) i)) (this ctx))).
    exec. rewrite storage_move_token. exec.
    rewrite leave_after_store by assumption.
    eexists. split; [reflexivity|]. split; [reflexivity|].
    intros Hne.
    change (tokenBalanceOf (set_storage ?w' ?s)) with (tokenBalanceOf w').
    rewrite tokenBalanceOf_move_token.
    change (tokenBalanceOf (set_storage ?w' ?s)) with (tokenBalanceOf w').
    rewrite !Z.eqb_refl.
    destruct (Z.eqb_spec (this ctx) (client (escrowAt (storage w) i))); [congruence|].
    destruct (Z.eqb_spec (client (escrowAt (storage w) i)) (this ctx)); [congruence|].
    cbn. lia.
Qed.

Lemma sound_w_funded : sound (storage w_funded).
Proof.
  eapply (history_sound any_call everyone escrow_address w_created w_funded).
  - apply passive_quiet.
  - intros ctx f Hf. exact Hf.
  - exact sound_w_created.
  - eapply (history_call _ _ _ _ w_created w_funded (by_ client_ 1000000)
              (FundEscrow 0) (Success tt [EscrowFunded 0 client_ 1000000] [])).
    + apply history_start.
    + reflexivity.
    + exact I.
    + vm_compute. reflexivity.
Qed.

Lemma backed_w_funded : backed w_funded escrow_address.
Proof.
  intros tok. unfold surplus.
  assert (Ho : owed (storage w_funded) tok = if tok =? 0 then 1000000 else 0)
    by (vm_compute; destruct tok; reflexivity).
  assert (Hb : asset_balance w_funded tok escrow_address
               = if tok =? 0 then 1000000 else 0)
    by (vm_compute; destruct tok; reflexivity).
  rewrite Ho, Hb. destruct (tok =? 0); lia.
Qed.

Lemma backed_refund_goes_through_witness :
  exists w',
    transact false everyone w_funded (by_ arbitrator_ 0)
             (refundToClient (by_ arbitrator_ 0) 0)
      = (w', Success tt [EscrowRefunded 0 client_ 1000000]
                        [SendValue client_ 1000000]) /\
    status (escrowAt (storage w') 0) = REFUNDED /\
    balanceOf w' client_ = 5000000.
Proof.
  destruct (backed_refund_goes_through (fun _ => true) w_funded
              (by_ arbitrator_ 0) 0) as (w' & H1 & H2 & H3).
  - exact sound_w_funded.
  - exact backed_w_funded.
  - vm_compute. discriminate.
  - left. vm_compute. reflexivity.
  - vm_compute. reflexivity.
  - reflexivity.
  - reflexivity.
  - exists w'. split; [exact H1|]. split.
    + rewrite H2. vm_compute. reflexivity.
    + etransitivity; [apply H3; vm_compute; discriminate|].
      vm_compute. reflexivity.
Defined.

(** ** Funding a token record *)

Lemma balances_move_token w t a b v : balances (move_token w t a b v) = balances w.
Proof. unfold move_token. by destruct (v =? 0). Qed.
Lemma balances_spend_allowance w t a b v :
  balances (spend_allowance w t a b v) = balances w.
Proof. unfold spend_allowance. by destruct (_ || _). Qed.

(** X7. On a CREATED token record, funded by its client, the token being a
    plain ledger ([transferFrom] moves exactly the amount, fails only for a
    zero recipient or a lack of balance or allowance, and calls nobody):
    value attached is refused; without value the contract asks the token
    for exactly the amount, from the client to itself, and the call goes
    through when the client owns the amount and has approved the contract
    for it, leaving the record FUNDED and the tokens with the contract;
    otherwise it reverts and the world stays as it was. *)
Theorem fund_token_pulls_the_amount env w ctx i :
  let e := escrowAt (storage w) i in
  let pull := TokenTransferFrom (token e) (msg_sender ctx) (this ctx) (amount e) in
  _entered (storage w) = false ->
  client e <> 0 ->
  status e = CREATED ->
  token e <> 0 ->
  msg_sender ctx = client e ->
  affordable w ctx ->
  (msg_value ctx <> 0 ->
   transact true env w ctx (fundEscrow ctx i)
     = (w, Reverted (Error_ "ETH not accepted for token escrow"))) /\
  (msg_value ctx = 0 ->
   if negb (this ctx =? 0) && (0 <=? amount e)
      && (amount e <=? tokenBalanceOf w (token e) (msg_sender ctx))
      && (amount e <=? allowanceOf w (token e) (msg_sender ctx) (this ctx))
   then
     exists w',
       transact true env w ctx (fundEscrow ctx i)
         = (w', Success tt [EscrowFunded i (msg_sender ctx) (amount e)] [pull]) /\
       storage w' = store_status (storage w) i FUNDED /\
       balances w' = balances w /\
       (msg_sender ctx <> this ctx ->
        tokenBalanceOf w' (token e) (this ctx)
          = tokenBalanceOf w (token e) (this ctx) + amount e /\
        tokenBalanceOf w' (token e) (msg_sender ctx)
          = tokenBalanceOf w (token e) (msg_sender ctx) - amount e)
   else
     transact true env w ctx (fundEscrow ctx i)
       = (w, Reverted (TokenCallFailed (token e)))).
Proof.
  intros e pull Hg Hex Hst Htok Hsender Hv. subst e pull.
  split.
  - intros Hne. apply transact_revert; [|assumption|by left].
    unfold_contract. exec. rewrite Hg. exec.
    rewrite (proj2 (Z.eqb_neq _ _) Hex). exec. rewrite Hst. exec.
    rewrite Hsender, Z.eqb_refl. exec.
    rewrite (proj2 (Z.eqb_neq _ _) Htok). exec.
    rewrite (proj2 (Z.eqb_neq _ _) Hne). reflexivity.
  - intros Hz.
    rewrite (transact_no_value true) by assumption.
    unfold_contract. exec. rewrite Hg. exec.
    rewrite (proj2 (Z.eqb_neq _ _) Hex). exec. rewrite Hst. exec.
    rewrite <- Hsender, Z.eqb_refl. exec.
    rewrite (proj2 (Z.eqb_neq _ _) Htok). exec.
    rewrite Hz. change (0 =? 0) with true. exec.
    unfold ext_call.
    change (tokenBalanceOf (set_storage w ?s)) with (tokenBalanceOf w).
    change (allowanceOf (set_storage w ?s)) with (allowanceOf w).
    destruct (_ && _) eqn:Hok.
    + rewrite storage_move_token, storage_spend_allowance. exec.
      rewrite leave_after_store by assumption.
      eexists. split; [reflexivity|]. split; [reflexivity|].
      split.
      * change (balances (set_storage ?w' ?s)) with (balances w').
        rewrite balances_move_token, balances_spend_allowance. reflexivity.
      * intros Hne.
        change (tokenBalanceOf (set_storage ?w' ?s)) with (tokenBalanceOf w').
        rewrite !tokenBalanceOf_move_token, !Z.eqb_refl.
        assert (Hsp : forall a,
          tokenBalanceOf (spend_allowance (set_storage w (set_entered (storage w) true))
                            (token (escrowAt (storage w) i)) (msg_sender ctx)
                            (this ctx) (amount (escrowAt (storage w) i)))
                         (token (escrowAt (storage w) i)) a
          = tokenBalanceOf w (token (escrowAt (storage w) i)) a).
        { intros a. unfold spend_allowance. by destruct (_ || _). }
        rewrite !Hsp.
        destruct (Z.eqb_spec (msg_sender ctx) (this ctx)); [congruence|].
        destruct (Z.eqb_spec (this ctx) (msg_sender ctx)); [congruence|].
        cbn. lia.
    + exec. reflexivity.
Qed.

Lemma fund_token_pulls_the_amount_witness :
  exists w',
    transact true everyone w_token_created (by_ client_ 0)
             (fundEscrow (by_ client_ 0) 0)
      = (w', Success tt [EscrowFunded 0 client_ 1000000]
                        [TokenTransferFrom usdc_ client_ escrow_address 1000000]) /\
    status (escrowAt (storage w') 0) = FUNDED /\
    tokenBalanceOf w' usdc_ escrow_address = 1000000 /\
    tokenBalanceOf w' usdc_ client_ = 2000000.
Proof.
  destruct (fund_token_pulls_the_amount everyone w_token_created (by_ client_ 0) 0)
    as [_ H].
  - vm_compute. reflexivity.
  - vm_compute. discriminate.
  - vm_compute. reflexivity.
  - vm_compute. discriminate.
  - vm_compute. reflexivity.
  - left. reflexivity.
  - specialize (H eq_refl).
    match type of H with
    | (if ?c then _ else _) =>
        assert (Hc : c = true) by (vm_compute; reflexivity); rewrite Hc in H
    end.
    destruct H as (w' & H1 & H2 & _ & H4).
    destruct (H4 ltac:(vm_compute; discriminate)) as [H5 H6].
    exists w'. split; [exact H1|]. split; [rewrite H2; vm_compute; reflexivity|].
    split.
    + etransitivity; [exact H5 | vm_compute; reflexivity].
    + etransitivity; [exact H6 | vm_compute; reflexivity].
Defined.

(** ** Creating a record *)

Lemma getEscrow_existing s i :
  client (escrowAt s i) <> 0 -> getEscrow i s = Ret (escrowAt s i, s).
Proof.
  intros Hex. unfold getEscrow, escrowExists, escrow_field. exec.
  rewrite (proj2 (Z.eqb_neq _ _) Hex). reflexivity.
Qed.

(** X8. A creation that goes through hands out the identifier the counter
    held, logs it, makes no transfer and moves no balance; [getEscrow] of
    that identifier then returns the record with the arguments of the call,
    the sender as client, the default fee of that moment and status CREATED;
    the count is one more; every other record is as it was. *)
Theorem created_record_reads_back env w w' ctx p a t amt d desc id evs cs :
  msg_sender ctx <> 0 ->
  transact false env w ctx (createEscrow ctx p a t amt d desc)
    = (w', Success id evs cs) ->
  id = _escrowIdCounter (storage w) /\
  evs = [EscrowCreated id (msg_sender ctx) p t amt d] /\
  cs = [] /\
  w' = set_storage w (storage w') /\
  getEscrow id (storage w')
    = Ret (mkEscrowData (msg_sender ctx) p a t amt (defaultFee (storage w))
                        CREATED (block_timestamp ctx) d desc, storage w') /\
  getEscrowCount (storage w') = Ret (id + 1, storage w') /\
  forall j, j <> id -> escrowAt (storage w') j = escrowAt (storage w) j.
Proof.
  intros Hsender Hrun.
  apply transact_success in Hrun as (r & Hrun & <- & <- & <- & <-).
  revert Hrun. unfold createEscrow, checked_add, checked. exec.
  branch; exec; [|discriminate].
  branch; exec; [|discriminate].
  branch; exec; [|discriminate].
  assert (Hread : forall s',
            s' = set_escrows (set_counter (storage w) (_escrowIdCounter (storage w) + 1))
                   (<[_escrowIdCounter (storage w) :=
                        mkEscrowData (msg_sender ctx) p a t amt (defaultFee (storage w))
                          CREATED (block_timestamp ctx) d desc]> (escrows (storage w))) ->
            getEscrow (_escrowIdCounter (storage w)) s'
              = Ret (mkEscrowData (msg_sender ctx) p a t amt (defaultFee (storage w))
                       CREATED (block_timestamp ctx) d desc, s') /\
            forall j, j <> _escrowIdCounter (storage w) ->
                      escrowAt s' j = escrowAt (storage w) j).
  { intros s' ->. split.
    - rewrite getEscrow_existing.
      + unfold escrowAt; cbn. by rewrite lookup_insert_eq.
      + unfold escrowAt; cbn. by rewrite lookup_insert_eq.
    - intros j Hj. unfold escrowAt; cbn. by rewrite lookup_insert_ne. }
  destruct (0 <? d) eqn:Hd; exec.
  - branch; exec; [|discriminate].
    branch; exec; [|discriminate].
    intros [= <-]. exec. destruct (Hread _ eq_refl) as [Hget Hother].
    conjuncts; try reflexivity; assumption.
  - branch; exec; [|discriminate].
    intros [= <-]. exec. destruct (Hread _ eq_refl) as [Hget Hother].
    conjuncts; try reflexivity; assumption.
Qed.

Lemma created_record_reads_back_witness :
  getEscrow 0 (storage w_created)
    = Ret (mkEscrowData client_ provider_ 0 0 1000000 250 CREATED 1700000000 0 "x",
           storage w_created) /\
  getEscrowCount (storage w_created) = Ret (1, storage w_created).
Proof.
  destruct (created_record_reads_back everyone w_ready w_created (by_ client_ 0)
              provider_ 0 0 1000000 0 "x" 0
              [EscrowCreated 0 client_ provider_ 0 1000000 0] [])
    as (_ & _ & _ & _ & H1 & H2 & _).
  - vm_compute. discriminate.
  - vm_compute. reflexivity.
  - split; [exact H1 | exact H2].
Defined.

(** ** Configuration *)

Lemma authorized_outcome ctx f s :
  authorizedArbitrators (outcome ctx f s) =
  match f with
  | AddArbitrator a => <[a := true]> (authorizedArbitrators s)
  | RemoveArbitrator a => <[a := false]> (authorizedArbitrators s)
  | _ => authorizedArbitrators s
  end.
Proof.
  destruct f; try reflexivity.
  - cbn. unfold released. by destruct (0 <? _).
  - cbn. destruct inFavorOfClient; [reflexivity|].
    unfold released. by destruct (0 <? _).
Qed.

Lemma owner_outcome ctx f s : _owner (outcome ctx f s) = _owner s.
Proof.
  destruct f; try reflexivity.
  - cbn. unfold released. by destruct (0 <? _).
  - cbn. destruct inFavorOfClient; [reflexivity|].
    unfold released. by destruct (0 <? _).
Qed.

(** X9. A call that goes through and does not come from the owner changes
    neither the default fee, the fee collector, the registered arbitrators
    nor the owner, and it is not an emergency withdrawal: it pays nobody but
    the parties of a record and the fee collector. *)
Theorem only_the_owner_changes_the_configuration env w w' ctx f a evs cs :
  quiet env ->
  msg_sender ctx <> _owner (storage w) ->
  transact (is_payable f) env w ctx (enter ctx f) = (w', Success a evs cs) ->
  defaultFee (storage w') = defaultFee (storage w) /\
  feeCollector (storage w') = feeCollector (storage w) /\
  authorizedArbitrators (storage w') = authorizedArbitrators (storage w) /\
  _owner (storage w') = _owner (storage w) /\
  match f with
  | AddArbitrator _ | RemoveArbitrator _ | SetFeeCollector _ | SetDefaultFee _
  | EmergencyWithdraw _ _ => False
  | _ => True
  end.
Proof.
  intros Hq Hne Hrun.
  destruct (transact_outcome _ _ _ _ _ _ _ _ Hq Hrun) as (Hp & -> & _).
  rewrite defaultFee_outcome, feeCollector_outcome, authorized_outcome, owner_outcome.
  destruct f; cbn in Hp; try (conjuncts; reflexivity || exact I);
    exfalso; apply Hne; symmetry; tauto.
Qed.

Lemma only_the_owner_changes_the_configuration_witness :
  defaultFee (storage w_funded) = defaultFee (storage w_created) /\
  feeCollector (storage w_funded) = feeCollector (storage w_created).
Proof.
  destruct (only_the_owner_changes_the_configuration everyone w_created w_funded
              (by_ client_ 1000000) (FundEscrow 0) tt
              [EscrowFunded 0 client_ 1000000] [])
    as (H1 & H2 & _).
  - apply passive_quiet.
  - vm_compute. discriminate.
  - vm_compute. reflexivity.
  - split; [exact H1 | exact H2].
Defined.

(** ** The order of effects and interactions in a token funding *)

(** X10. [fundEscrow] pulls the tokens before it stores the new status, and
    [cancelEscrow] is not guarded: while the token contract has control the
    record is still CREATED, a cancellation entered by the client from there
    goes through, and the funding then carries on and writes FUNDED over
    CANCELLED. *)
Theorem fundEscrow_stores_after_it_pulls ctx i s :
  let e := escrowAt s i in
  let at_call := set_entered s true in
  _entered s = false ->
  client e <> 0 ->
  status e = CREATED ->
  token e <> 0 ->
  msg_sender ctx = client e ->
  msg_value ctx = 0 ->
  exists k,
    fundEscrow ctx i s
      = Call at_call
             (TokenTransferFrom (token e) (msg_sender ctx) (this ctx) (amount e)) k /\
    status (escrowAt at_call i) = CREATED /\
    cancelEscrow ctx i at_call
      = Emit (EscrowCancelled i (msg_sender ctx))
             (Ret (tt, store_status at_call i CANCELLED)) /\
    k (store_status at_call i CANCELLED) true
      = Emit (EscrowFunded i (msg_sender ctx) (amount e))
             (Ret (tt, store_status s i FUNDED)).
Proof.
  intros e at_call Hg Hex Hst Htok Hsender Hv. subst e at_call.
  unfold_contract. exec. rewrite Hg. exec.
  rewrite (proj2 (Z.eqb_neq _ _) Hex). exec. rewrite Hst. exec.
  rewrite <- Hsender, Z.eqb_refl. exec.
  rewrite (proj2 (Z.eqb_neq _ _) Htok). exec.
  rewrite Hv. change (0 =? 0) with true. exec.
  eexists. split; [reflexivity|]. split; [reflexivity|]. split; [reflexivity|].
  exec. rewrite store_status_twice, leave_after_store by assumption.
  destruct (escrowAt s i); reflexivity.
Qed.

Lemma fundEscrow_stores_after_it_pulls_witness :
  exists k,
    fundEscrow (by_ client_ 0) 0 (storage w_token_created)
      = Call (set_entered (storage w_token_created) true)
             (TokenTransferFrom usdc_ client_ escrow_address 1000000) k /\
    k (store_status (set_entered (storage w_token_created) true) 0 CANCELLED) true
      = Emit (EscrowFunded 0 client_ 1000000)
             (Ret (tt, store_status (storage w_token_created) 0 FUNDED)).
Proof.
  destruct (fundEscrow_stores_after_it_pulls (by_ client_ 0) 0 (storage w_token_created))
    as (k & H1 & _ & _ & H4).
  - vm_compute. reflexivity.
  - vm_compute. discriminate.
  - vm_compute. reflexivity.
  - vm_compute. discriminate.
  - vm_compute. reflexivity.
  - reflexivity.
  - exists k. split; [exact H1 | exact H4].
Defined.

(** ** The fee *)

(** X11. The fee of a release is never more than a tenth of the amount,
    whatever the default fee was set to since the record was created: the
    provider is paid at least nine tenths, by a release as by a dispute
    settled in favour of the provider. *)
Theorem release_fee_is_at_most_a_tenth env w w' ctx i f a evs cs :
  quiet env ->
  sound (storage w) ->
  f = ReleaseToProvider i \/ f = ResolveDispute i false ->
  transact (is_payable f) env w ctx (enter ctx f) = (w', Success a evs cs) ->
  let e := escrowAt (storage w) i in
  cs = release_payments (storage w) e /\
  0 <= feeOf e /\ 10 * feeOf e <= amount e /\
  head cs = Some (payout e (provider e) (amount e - feeOf e)).
Proof.
  intros Hq Hs Hf Hrun. cbn zeta.
  destruct (transact_outcome _ _ _ _ _ _ _ _ Hq Hrun) as (Hp & _ & ->).
  pose proof (fee_capped _ Hs i) as Hfee.
  pose proof (amount_nonneg _ Hs i) as Hamt.
  assert (Hbound : 0 <= feeOf (escrowAt (storage w) i) /\
                   10 * feeOf (escrowAt (storage w) i) <= amount (escrowAt (storage w) i)).
  { unfold feeOf, MAX_FEE, FEE_DENOMINATOR in *.
    set (x := amount (escrowAt (storage w) i)) in *.
    set (r := fee (escrowAt (storage w) i)) in *.
    assert (0 <= x * r) by nia.
    assert (x * r <= x * 1000) by nia.
    pose proof (Z.div_pos (x * r) 10000 ltac:(lia) ltac:(lia)).
    pose proof (Z.div_le_mono (x * r) (x * 1000) 10000 ltac:(lia) ltac:(lia)).
    pose proof (Z.mul_div_le (x * 1000) 10000 ltac:(lia)).
    split; lia. }
  destruct Hf as [-> | ->]; cbn [payments]; (split; [reflexivity|]);
    (split; [tauto|]); (split; [tauto|]); reflexivity.
Qed.

Lemma release_fee_is_at_most_a_tenth_witness :
  feeOf (escrowAt (storage w_funded) 0) = 25000 /\
  10 * feeOf (escrowAt (storage w_funded) 0) <= amount (escrowAt (storage w_funded) 0).
Proof.
  destruct (release_fee_is_at_most_a_tenth everyone w_funded w_released (by_ client_ 0) 0
              (ReleaseToProvider 0) tt [EscrowReleased 0 provider_ 975000 25000]
              [SendValue provider_ 975000; SendValue collector_ 25000])
    as (_ & _ & H & _).
  - apply passive_quiet.
  - exact sound_w_funded.
  - left. reflexivity.
  - vm_compute. reflexivity.
  - split; [vm_compute; reflexivity | exact H].
Defined.

(** ** The deadline *)

(** X12. No function reads the clock but [createEscrow], which wants a deadline
    in the future, and [openDispute], which stamps its event: what any other
    call does is the same at any time, before the deadline of the record as
    after it. *)
Theorem the_deadline_is_never_enforced this_ sender value now later f s :
  match f with
  | CreateEscrow _ _ _ _ _ _ | OpenDispute _ => False
  | _ => True
  end ->
  enter (mkCtx this_ sender value now) f s = enter (mkCtx this_ sender value later) f s.
Proof. intros Hf. destruct f; try contradiction; reflexivity. Qed.

Lemma the_deadline_is_never_enforced_witness :
  enter (mkCtx escrow_address client_ 0 1700000000) (ReleaseToProvider 0) (storage w_funded)
  = enter (mkCtx escrow_address client_ 0 1900000000) (ReleaseToProvider 0) (storage w_funded).
Proof.
  apply (the_deadline_is_never_enforced escrow_address client_ 0 1700000000 1900000000
           (ReleaseToProvider 0) (storage w_funded)).
  exact I.
Defined.

End LifecycleFacts.

(* ===================================================================== *)
(** * Facts about the replica                                             *)
(* ===================================================================== *)

Module ReplicaFacts.
Import Indexer IndexerFacts Replica.
Local Open Scope list_scope.

(** ** Keys *)

Lemma NoDup_fmap_inj {A B} (f : A -> B) (l : list A) x y :
  NoDup (f <$> l) -> x ∈ l -> y ∈ l -> f x = f y -> x = y.
Proof.
  induction l as [|a l IH]; intros Hnd Hx Hy Hf.
  - inversion Hx.
  - rewrite fmap_cons in Hnd. apply NoDup_cons in Hnd as [Hna Hnd].
    apply elem_of_cons in Hx as [-> | Hx]; apply elem_of_cons in Hy as [-> | Hy].
    + reflexivity.
    + exfalso. apply Hna. rewrite Hf. by apply list_elem_of_fmap_2.
    + exfalso. apply Hna. rewrite <- Hf. by apply list_elem_of_fmap_2.
    + by apply IH.
Qed.

Lemma has_id_true j r : has_id j r = true <-> id r = Some j.
Proof.
  unfold has_id. destruct (id r) as [k|]; [|split; discriminate].
  rewrite Nat.eqb_eq. split; congruence.
Qed.

Lemma has_key_true c i r : has_key c i r = true <-> chainId r = c /\ escrowId r = i.
Proof. unfold has_key. rewrite andb_true_iff, !Z.eqb_eq. reflexivity. Qed.

Lemma Forall_elem {A} (P : A -> Prop) (l : list A) :
  (forall x, x ∈ l -> P x) -> List.Forall P l.
Proof.
  intros H. apply List.Forall_forall. intros x Hin. apply H.
  by apply list_elem_of_In.
Qed.

Lemma find_elem {A} (p : A -> bool) (l : list A) x :
  List.find p l = Some x -> x ∈ l /\ p x = true.
Proof.
  intros H. apply List.find_some in H as [Hin Hp]. split; [|assumption].
  by apply list_elem_of_In.
Qed.

(** ** Saving a row of the table with another status *)

Lemma set_status_of_ids j st l : id <$> set_status_of j st l = id <$> l.
Proof.
  unfold set_status_of. induction l as [|r l IH]; [reflexivity|].
  cbn. rewrite <- IH. f_equal. by destruct (has_id j r).
Qed.

Lemma set_status_of_keys j st l :
  (fun r => (chainId r, escrowId r)) <$> set_status_of j st l
  = (fun r => (chainId r, escrowId r)) <$> l.
Proof.
  unfold set_status_of. induction l as [|r l IH]; [reflexivity|].
  cbn. rewrite <- IH. f_equal. by destruct (has_id j r).
Qed.

Lemma set_status_of_Forall (P Q : Escrow -> Prop) j st l :
  (forall r, P r -> Q r) -> (forall r, P r -> Q (with_status r st)) ->
  Forall P l -> Forall Q (set_status_of j st l).
Proof.
  intros HPQ Hst H. unfold set_status_of.
  induction H as [|r l Hr _ IH]; cbn; constructor; [|assumption].
  destruct (has_id j r); auto.
Qed.

(** Under a primary key the table holds one row. *)
Lemma find_by_id repo row j :
  NoDup (id <$> rows repo) -> row ∈ rows repo -> id row = Some j ->
  List.find (has_id j) (rows repo) = Some row.
Proof.
  intros Hids Hin Hid.
  destruct (List.find (has_id j) (rows repo)) as [r|] eqn:Hf.
  - apply find_elem in Hf as [Hr Hj]. apply has_id_true in Hj. f_equal.
    apply (NoDup_fmap_inj _ _ _ _ Hids Hr Hin). congruence.
  - apply find_none_forall in Hf. rewrite List.Forall_forall in Hf.
    apply list_elem_of_In in Hin. specialize (Hf row Hin).
    rewrite (proj2 (has_id_true j row) Hid) in Hf. discriminate.
Qed.

Lemma save_existing repo row j st :
  well_keyed repo -> row ∈ rows repo -> id row = Some j ->
  save repo (with_status row st)
  = inr (mkRepository (set_status_of j st (rows repo)) (nextId repo)).
Proof.
  intros [Hkeyed Hids Hkeys] Hin Hid. unfold save.
  cbn [id with_status]. rewrite Hid, (find_by_id repo row j Hids Hin Hid).
  rewrite stored_row_with_status. cbn [chainId escrowId with_status].
  rewrite existsb_none; cycle 1.
  { apply Forall_elem. intros r Hr.
    destruct (has_key (chainId row) (escrowId row) r) eqn:Hk; [|reflexivity].
    apply has_key_true in Hk as [Hc Hi].
    assert (r = row) as ->.
    { apply (NoDup_fmap_inj _ _ _ _ Hkeys Hr Hin). by rewrite Hc, Hi. }
    cbn. by rewrite (proj2 (has_id_true j row) Hid). }
  assert (Hex : existsb (has_id j) (rows repo) = true).
  { apply existsb_exists. exists row. split; [by apply list_elem_of_In|].
    by apply has_id_true. }
  rewrite Hex. f_equal. f_equal. unfold set_status_of.
  apply map_ext_in. intros r Hr%list_elem_of_In.
  destruct (has_id j r) eqn:Hj; [|reflexivity].
  apply has_id_true in Hj.
  assert (r = row) as ->; [|reflexivity].
  apply (NoDup_fmap_inj _ _ _ _ Hids Hr Hin). congruence.
Qed.

Lemma consistent_set_status repo j st :
  consistent repo ->
  consistent (mkRepository (set_status_of j st (rows repo)) (nextId repo)).
Proof.
  intros [[Hkeyed Hids Hkeys] Hfresh]. split; [split|]; cbn [rows nextId].
  - eapply set_status_of_Forall; [| |exact Hkeyed]; auto.
  - by rewrite set_status_of_ids.
  - by rewrite set_status_of_keys.
  - eapply set_status_of_Forall; [| |exact Hfresh]; auto.
Qed.

Lemma same_or_funded_refl r : same_or_funded r r.
Proof. split; [by destruct r | by left]. Qed.

Lemma same_or_funded_trans r1 r2 r3 :
  same_or_funded r1 r2 -> same_or_funded r2 r3 -> same_or_funded r1 r3.
Proof.
  intros [H1 S1] [H2 S2]. split.
  - rewrite H2, H1. by destruct r1.
  - destruct S2 as [-> | ->]; auto.
Qed.

Lemma Forall2_same_refl l : Forall2 same_or_funded l l.
Proof. induction l; constructor; auto using same_or_funded_refl. Qed.

Lemma grows_refl repo : grows repo repo.
Proof.
  exists (rows repo), []. split; [by rewrite app_nil_r | apply Forall2_same_refl].
Qed.

Lemma grows_trans r1 r2 r3 : grows r1 r2 -> grows r2 r3 -> grows r1 r3.
Proof.
  intros (old & added & H2 & F12) (old' & added' & H3 & F23).
  rewrite H2 in F23.
  apply Forall2_app_inv_l in F23 as (o1 & o2 & Fo1 & Fo2 & ->).
  exists o1, (o2 ++ added'). split; [by rewrite H3, app_assoc|].
  clear -F12 Fo1. revert o1 Fo1.
  induction F12 as [|a b l1 l2 Hab _ IH]; intros o1 Fo1.
  - inversion Fo1. constructor.
  - inversion Fo1 as [|b' c l2' l3 Hbc Frest]; subst.
    constructor; [eapply same_or_funded_trans; eassumption | by apply IH].
Qed.

Lemma grows_set_funded repo j :
  grows repo (mkRepository (set_status_of j 1 (rows repo)) (nextId repo)).
Proof.
  exists (set_status_of j 1 (rows repo)), []. cbn [rows].
  split; [by rewrite app_nil_r|].
  unfold set_status_of. induction (rows repo) as [|r l IH]; cbn; constructor;
    [|assumption].
  destruct (has_id j r); [|apply same_or_funded_refl].
  split; [reflexivity | by right].
Qed.

(** ** The two handlers *)

(** On a consistent table the funded handler never throws. *)
Lemma handleEscrowFunded_step c ev repo :
  consistent repo ->
  exists repo',
    handleEscrowFunded c ev repo = inr repo' /\ consistent repo' /\ grows repo repo' /\
    nextId repo' = nextId repo /\ length (rows repo') = length (rows repo).
Proof.
  intros Hc. unfold handleEscrowFunded.
  destruct (Indexer.findOne repo c (Number_ (fe_escrowId ev))) as [row|] eqn:Hf.
  - apply find_elem in Hf as [Hin _].
    destruct Hc as [Hwk Hfresh].
    assert (Hsome : is_Some (id row)).
    { pose proof (keyed _ Hwk) as Hk. rewrite List.Forall_forall in Hk.
      apply Hk. by apply list_elem_of_In. }
    destruct Hsome as [j Hid].
    rewrite (save_existing _ _ j 1 Hwk Hin Hid). eexists. split; [reflexivity|].
    split; [by apply consistent_set_status|]. split; [apply grows_set_funded|].
    split; [reflexivity|]. cbn. unfold set_status_of. by rewrite length_map.
  - exists repo. split; [reflexivity|]. split; [assumption|].
    split; [apply grows_refl|]. split; reflexivity.
Qed.

Lemma consistent_insert repo e :
  consistent repo ->
  Indexer.findOne repo (chainId e) (escrowId e) = None ->
  consistent (mkRepository (rows repo ++ [with_id e (nextId repo)]) (S (nextId repo))).
Proof.
  intros [[Hkeyed Hids Hkeys] Hfresh] Hnone.
  pose proof (find_none_forall _ _ Hnone) as Hall.
  unfold fresh_keys in Hfresh. rewrite List.Forall_forall in Hfresh, Hall.
  split; [split|]; cbn [rows nextId].
  - apply Forall_app. split; [assumption|]. constructor; [by eexists|constructor].
  - rewrite fmap_app. apply NoDup_app. split; [assumption|]. split.
    + intros x Hx Hx'. cbn in Hx'. apply list_elem_of_singleton in Hx'. subst x.
      apply list_elem_of_fmap in Hx as (r & Hr & Hin).
      apply list_elem_of_In in Hin. specialize (Hfresh r Hin _ (eq_sym Hr)). lia.
    + cbn. apply NoDup_singleton.
  - rewrite fmap_app. apply NoDup_app. split; [assumption|]. split.
    + intros x Hx Hx'. cbn in Hx'. apply list_elem_of_singleton in Hx'. subst x.
      apply list_elem_of_fmap in Hx as (r & Hr & Hin).
      apply list_elem_of_In in Hin. specialize (Hall r Hin). cbn in Hall.
      injection Hr as Hc Hi.
      assert (has_key (chainId e) (escrowId e) r = true)
        by (apply has_key_true; auto).
      congruence.
    + cbn. apply NoDup_singleton.
  - unfold fresh_keys. cbn [rows nextId]. apply Forall_app. split.
    + apply List.Forall_forall. intros r Hin i Hi.
      specialize (Hfresh r Hin i Hi). lia.
    + constructor; [|constructor]. cbn. intros i [= <-]. lia.
Qed.

Lemma consistent_insert_row repo e r :
  consistent repo ->
  Indexer.findOne repo (chainId e) (escrowId e) = None ->
  stored_row None e = Some r ->
  consistent (mkRepository (rows repo ++ [with_id r (nextId repo)]) (S (nextId repo))).
Proof.
  intros Hc Hnone (_ & Hci & Hei & _)%stored_row_keys.
  apply (consistent_insert repo r Hc). by rewrite Hci, Hei.
Qed.

(** On a consistent table the creation handler keeps the table consistent,
    and throws only for one of these two reasons. *)
Lemma handleEscrowCreated_step bs c ev repo :
  consistent repo ->
  match handleEscrowCreated bs c ev repo with
  | inr repo' =>
      consistent repo' /\ grows repo repo' /\
      is_Some (Indexer.findOne repo' c (Number_ (ce_escrowId ev)))
  | inl e => thrown_by_creation bs c ev e
  end.
Proof.
  intros Hc.
  destruct (Indexer.findOne repo c (Number_ (ce_escrowId ev))) as [row|] eqn:Hf.
  - unfold handleEscrowCreated. rewrite Hf.
    split; [assumption|]. split; [apply grows_refl|]. rewrite Hf. by eexists.
  - rewrite (handleEscrowCreated_new _ _ _ _ Hf). unfold thrown_by_creation.
    destruct (getEscrow bs c (Number_ (ce_escrowId ev))) as [e|d]; [by left|].
    destruct (stored_row None (create c ev d)) as [row|] eqn:Hrow;
      [|right; by exists d].
    split; [by apply (consistent_insert_row repo (create c ev d))|]. split.
    + exists (rows repo), [with_id row (nextId repo)]. split; [reflexivity|].
      apply Forall2_same_refl.
    + unfold Indexer.findOne. cbn [rows].
      rewrite find_app_none by (by apply find_none_forall).
      cbn [List.find]. rewrite (created_row_key _ _ _ _ _ Hrow). by eexists.
Qed.

Lemma same_or_funded_key r r' c i :
  same_or_funded r r' -> has_key c i r = true -> has_key c i r' = true.
Proof. intros [-> _]. by destruct r. Qed.

Lemma Forall2_elem_l {A B} (R : A -> B -> Prop) l1 l2 x :
  Forall2 R l1 l2 -> x ∈ l1 -> exists y, y ∈ l2 /\ R x y.
Proof.
  induction 1 as [|a b l1 l2 Hab _ IH]; intros Hx; [inversion Hx|].
  apply elem_of_cons in Hx as [-> | Hx].
  - exists b. split; [by left | assumption].
  - destruct (IH Hx) as (y & Hy & Hxy). exists y. split; [by right | assumption].
Qed.

(** A record the table holds is still held by a table grown from it. *)
Lemma grows_find repo repo' c i :
  grows repo repo' ->
  is_Some (Indexer.findOne repo c i) -> is_Some (Indexer.findOne repo' c i).
Proof.
  intros (old & added & Hrows & Hall) [r Hr].
  apply find_elem in Hr as [Hin Hk].
  destruct (Forall2_elem_l _ _ _ _ Hall Hin) as (r' & Hin' & Hrr').
  pose proof (same_or_funded_key _ _ _ _ Hrr' Hk) as Hk'.
  unfold Indexer.findOne.
  destruct (List.find (has_key c i) (rows repo')) as [x|] eqn:Hf; [by eexists|].
  apply find_none_forall in Hf. rewrite List.Forall_forall in Hf.
  rewrite (Hf r') in Hk'; [discriminate|].
  rewrite Hrows. apply in_or_app. left. by apply list_elem_of_In.
Qed.

(** ** The loops *)

Lemma forEach_funded c evs : forall repo,
  consistent repo ->
  exists repo',
    forEach (handleEscrowFunded c) evs repo = (repo', None) /\
    consistent repo' /\ grows repo repo'.
Proof.
  induction evs as [|ev evs IH]; intros repo Hc; cbn.
  - exists repo. split; [reflexivity|]. split; [assumption | apply grows_refl].
  - destruct (handleEscrowFunded_step c ev repo Hc) as (repo1 & -> & Hc1 & Hg1 & _).
    destruct (IH repo1 Hc1) as (repo' & -> & Hc' & Hg').
    exists repo'. split; [reflexivity|]. split; [assumption|].
    eapply grows_trans; eassumption.
Qed.

Lemma forEach_created bs c evs : forall repo,
  consistent repo ->
  let r := forEach (handleEscrowCreated bs c) evs repo in
  consistent (fst r) /\ grows repo (fst r) /\
  match snd r with
  | None =>
      Forall (fun ev => is_Some (Indexer.findOne (fst r) c (Number_ (ce_escrowId ev)))) evs
  | Some e => exists ev, ev ∈ evs /\ thrown_by_creation bs c ev e
  end.
Proof.
  induction evs as [|ev evs IH]; intros repo Hc; cbn.
  - split; [assumption|]. split; [apply grows_refl | constructor].
  - pose proof (handleEscrowCreated_step bs c ev repo Hc) as Hstep.
    destruct (handleEscrowCreated bs c ev repo) as [e | repo1]; cbn.
    + split; [assumption|]. split; [apply grows_refl|].
      exists ev. split; [by left | assumption].
    + destruct Hstep as (Hc1 & Hg1 & Hf1).
      destruct (IH repo1 Hc1) as (Hc' & Hg' & Hrest).
      split; [assumption|]. split; [eapply grows_trans; eassumption|].
      destruct (snd (forEach (handleEscrowCreated bs c) evs repo1)) as [e|].
      * destruct Hrest as (ev' & Hin & He). exists ev'. split; [by right | assumption].
      * constructor; [|assumption]. eapply grows_find; eassumption.
Qed.

(** ** One chain *)

Lemma syncChainEvents_step bs st c :
  consistent (escrowRepository st) ->
  let r := syncChainEvents bs st c in
  consistent (escrowRepository (fst r)) /\
  grows (escrowRepository st) (escrowRepository (fst r)) /\
  (forall c', c' <> c ->
     lastSyncedBlocks (fst r) !! c' = lastSyncedBlocks st !! c') /\
  default 0 (lastSyncedBlocks st !! c) <= default 0 (lastSyncedBlocks (fst r) !! c).
Proof.
  intros Hc. unfold syncChainEvents.
  assert (Hsame : consistent (escrowRepository st) /\
            grows (escrowRepository st) (escrowRepository st) /\
            (forall c', c' <> c -> lastSyncedBlocks st !! c' = lastSyncedBlocks st !! c') /\
            default 0 (lastSyncedBlocks st !! c) <= default 0 (lastSyncedBlocks st !! c)).
  { split; [assumption|]. split; [apply grows_refl|]. split; [reflexivity | lia]. }
  destruct (getContract bs c) as [e | contract_]; [exact Hsame|].
  destruct (getBlockNumber bs c) as [e | currentBlock]; [exact Hsame|].
  destruct (Z.leb_spec currentBlock (default 0 (lastSyncedBlocks st !! c)))
    as [Hle | Hlt]; [exact Hsame|].
  pose proof (forEach_created bs c
                (queryFilterCreated contract_ (default 0 (lastSyncedBlocks st !! c))
                                    currentBlock)
                (escrowRepository st) Hc) as (Hc1 & Hg1 & _).
  destruct (forEach (handleEscrowCreated bs c) _ (escrowRepository st))
    as [repo1 [e|]]; cbn [fst snd escrowRepository lastSyncedBlocks] in *.
  { split; [assumption|]. split; [assumption|]. split; [reflexivity | lia]. }
  destruct (forEach_funded c
              (queryFilterFunded contract_ (default 0 (lastSyncedBlocks st !! c))
                                 currentBlock) repo1 Hc1)
    as (repo2 & -> & Hc2 & Hg2).
  cbn [fst escrowRepository lastSyncedBlocks].
  split; [assumption|]. split; [eapply grows_trans; eassumption|]. split.
  - intros c' Hne. by rewrite lookup_insert_ne.
  - rewrite lookup_insert_eq. cbn. lia.
Qed.

(** ** The cycle *)

Lemma syncBlockchainEvents_step bs ids : forall st,
  consistent (escrowRepository st) ->
  let st' := fold_left (fun st' c => fst (syncChainEvents bs st' c)) ids st in
  consistent (escrowRepository st') /\
  grows (escrowRepository st) (escrowRepository st') /\
  (forall c, c ∉ ids -> lastSyncedBlocks st' !! c = lastSyncedBlocks st !! c) /\
  (forall c, default 0 (lastSyncedBlocks st !! c)
             <= default 0 (lastSyncedBlocks st' !! c)).
Proof.
  induction ids as [|c ids IH]; intros st Hc; cbn.
  - split; [assumption|]. split; [apply grows_refl|]. split; [reflexivity|]. intros; lia.
  - destruct (syncChainEvents_step bs st c Hc) as (Hc1 & Hg1 & Hother & Hmono).
    destruct (IH _ Hc1) as (Hc' & Hg' & Hother' & Hmono').
    split; [assumption|]. split; [eapply grows_trans; eassumption|]. split.
    + intros c' Hnotin. apply not_elem_of_cons in Hnotin as [Hne Hnotin].
      rewrite Hother' by assumption. by apply Hother.
    + intros c'. specialize (Hmono' c').
      destruct (decide (c' = c)) as [-> | Hne]; [lia|].
      rewrite <- (Hother c' Hne). exact Hmono'.
Qed.

(** X13. A poll cycle, whatever the chains answer and whichever of them fail,
    leaves the table with every row keyed and no primary key or
    (chain, id) used twice; it deletes no row and changes no column of a
    row but the status, which it leaves or sets to FUNDED; new rows come
    after the old ones. *)
Theorem poll_cycle_keeps_and_grows_the_table bs st :
  consistent (escrowRepository st) ->
  consistent (escrowRepository (syncBlockchainEvents bs st)) /\
  grows (escrowRepository st) (escrowRepository (syncBlockchainEvents bs st)).
Proof.
  intros Hc. unfold syncBlockchainEvents.
  destruct (syncBlockchainEvents_step bs (getSupportedChainIds bs) st Hc)
    as (Hc' & Hg & _). split; assumption.
Qed.

Lemma consistent_empty : consistent empty_repository.
Proof. split; [split|]; cbn; constructor. Qed.

Lemma poll_cycle_keeps_and_grows_the_table_witness :
  consistent (escrowRepository (syncBlockchainEvents service1 state5)) /\
  rows (escrowRepository (syncBlockchainEvents service1 state5))
    = [with_status row0 1].
Proof.
  destruct (poll_cycle_keeps_and_grows_the_table service1 state5) as [H _].
  - exact consistent_empty.
  - split; [exact H | vm_compute; reflexivity].
Defined.

Lemma syncChainEvents_cursor bs st c :
  (forall c', c' <> c ->
     lastSyncedBlocks (fst (syncChainEvents bs st c)) !! c'
     = lastSyncedBlocks st !! c') /\
  default 0 (lastSyncedBlocks st !! c)
  <= default 0 (lastSyncedBlocks (fst (syncChainEvents bs st c)) !! c).
Proof.
  unfold syncChainEvents.
  destruct (getContract bs c) as [e | contract_]; [split; [reflexivity | cbn; lia]|].
  destruct (getBlockNumber bs c) as [e | currentBlock];
    [split; [reflexivity | cbn; lia]|].
  destruct (Z.leb_spec currentBlock (default 0 (lastSyncedBlocks st !! c)))
    as [Hle | Hlt]; [split; [reflexivity | cbn; lia]|].
  destruct (forEach (handleEscrowCreated bs c) _ _) as [repo1 [e|]];
    [split; [reflexivity | cbn; lia]|].
  destruct (forEach (handleEscrowFunded c) _ _) as [repo2 [e|]];
    [split; [reflexivity | cbn; lia]|].
  cbn [fst lastSyncedBlocks]. split.
  - intros c' Hne. by rewrite lookup_insert_ne.
  - rewrite lookup_insert_eq. cbn. lia.
Qed.

(** X14. No cycle moves the cursor of a chain back, whatever the nodes report
    and whatever was indexed: a node that reports a block below the cursor
    is left alone. *)
Theorem a_cursor_never_moves_back bs st c :
  default 0 (lastSyncedBlocks st !! c)
  <= default 0 (lastSyncedBlocks (syncBlockchainEvents bs st) !! c).
Proof.
  unfold syncBlockchainEvents. generalize (getSupportedChainIds bs) as ids.
  intros ids. revert st. induction ids as [|c1 ids IH]; intros st; cbn; [lia|].
  etransitivity; [|apply IH].
  destruct (syncChainEvents_cursor bs st c1) as [Hother Hmono].
  destruct (decide (c = c1)) as [-> | Hne]; [exact Hmono|].
  rewrite (Hother c Hne). lia.
Qed.

(** ** A window handled again *)

Lemma handleEscrowCreated_grows bs c ev repo repo' :
  handleEscrowCreated bs c ev repo = inr repo' ->
  grows repo repo' /\ is_Some (Indexer.findOne repo' c (Number_ (ce_escrowId ev))).
Proof.
  destruct (Indexer.findOne repo c (Number_ (ce_escrowId ev))) as [row|] eqn:Hf.
  - unfold handleEscrowCreated. rewrite Hf.
    intros [= <-]. split; [apply grows_refl|]. rewrite Hf. by eexists.
  - rewrite (handleEscrowCreated_new _ _ _ _ Hf).
    destruct (getEscrow bs c (Number_ (ce_escrowId ev))) as [e|d]; [discriminate|].
    destruct (stored_row None (create c ev d)) as [row|] eqn:Hrow; [|discriminate].
    intros [= <-]. split.
    + exists (rows repo), [with_id row (nextId repo)]. split; [reflexivity|].
      apply Forall2_same_refl.
    + unfold Indexer.findOne. cbn [rows].
      rewrite find_app_none by (by apply find_none_forall).
      cbn [List.find]. rewrite (created_row_key _ _ _ _ _ Hrow). by eexists.
Qed.

Lemma forEach_created_found bs c evs : forall repo repo',
  forEach (handleEscrowCreated bs c) evs repo = (repo', None) ->
  grows repo repo' /\
  Forall (fun ev => is_Some (Indexer.findOne repo' c (Number_ (ce_escrowId ev)))) evs.
Proof.
  induction evs as [|ev evs IH]; intros repo repo'; cbn.
  - intros [= <-]. split; [apply grows_refl | constructor].
  - destruct (handleEscrowCreated bs c ev repo) as [e | repo1] eqn:Hh; [discriminate|].
    intros Hrest. apply handleEscrowCreated_grows in Hh as [Hg1 Hf1].
    destruct (IH _ _ Hrest) as [Hg Hall].
    split; [eapply grows_trans; eassumption|].
    constructor; [eapply grows_find; eassumption | assumption].
Qed.

(** X15. When the creation events of a window have been handled without error,
    handling the same events again (as the next cycle does when a later
    step failed and the cursor stayed) changes nothing and reads nothing
    from the chain. *)
Theorem replayed_creations_change_nothing bs bs' c evs repo repo' :
  forEach (handleEscrowCreated bs c) evs repo = (repo', None) ->
  forEach (handleEscrowCreated bs' c) evs repo' = (repo', None).
Proof.
  intros Hrun. apply forEach_created_found in Hrun as [_ Hall].
  induction Hall as [|ev evs [row Hrow] _ IH]; cbn; [reflexivity|].
  unfold handleEscrowCreated at 1. rewrite Hrow. exact IH.
Qed.

Lemma replayed_creations_change_nothing_witness :
  forEach (handleEscrowCreated chain_down 1) [created0] (mkRepository [row0] 1)
    = (mkRepository [row0] 1, None).
Proof.
  apply (replayed_creations_change_nothing service1 chain_down 1 [created0]
           empty_repository).
  vm_compute. reflexivity.
Defined.

(** ** A chain that answers, among chains that fail *)

Lemma getContract_found bs c chain :
  lookupChain bs c = Some chain -> getContract bs c = inr (contract chain).
Proof. unfold getContract. by intros ->. Qed.

Lemma getBlockNumber_found bs c chain head :
  lookupChain bs c = Some chain -> provider_getBlockNumber chain = Some head ->
  getBlockNumber bs c = inr head.
Proof. unfold getBlockNumber, getProvider. by intros -> ->. Qed.

Lemma getEscrow_found bs c chain i d :
  lookupChain bs c = Some chain ->
  contract_getEscrow (contract chain) i = Some d ->
  getEscrow bs c i = inr d.
Proof.
  intros Hl Hd. unfold getEscrow. by rewrite (getContract_found _ _ _ Hl), Hd.
Qed.

Lemma lookupChain_supported bs c chain :
  lookupChain bs c = Some chain -> c ∈ getSupportedChainIds bs.
Proof.
  unfold lookupChain, getSupportedChainIds.
  destruct (List.find _ bs) as [[c' ch]|] eqn:Hf; [|discriminate]. intros _.
  apply List.find_some in Hf as [Hin Hc]. cbn in Hc. apply Z.eqb_eq in Hc. subst c'.
  apply list_elem_of_In. apply (in_map fst) in Hin. exact Hin.
Qed.

Lemma syncChainEvents_healthy bs st c chain head :
  consistent (escrowRepository st) ->
  lookupChain bs c = Some chain ->
  provider_getBlockNumber chain = Some head ->
  (forall ev,
     ev ∈ queryFilterCreated (contract chain)
            (default 0 (lastSyncedBlocks st !! c)) head ->
     exists d,
       contract_getEscrow (contract chain) (Number_ (ce_escrowId ev)) = Some d /\
       is_Some (stored_row None (create c ev d))) ->
  let st' := fst (syncChainEvents bs st c) in
  default 0 (lastSyncedBlocks st' !! c)
    = Z.max (default 0 (lastSyncedBlocks st !! c)) head /\
  (default 0 (lastSyncedBlocks st !! c) < head ->
   Forall (fun ev => is_Some (Indexer.findOne (escrowRepository st') c
                                (Number_ (ce_escrowId ev))))
          (queryFilterCreated (contract chain)
             (default 0 (lastSyncedBlocks st !! c)) head)).
Proof.
  intros Hc Hl Hhead Hread. unfold syncChainEvents.
  rewrite (getContract_found _ _ _ Hl), (getBlockNumber_found _ _ _ _ Hl Hhead).
  destruct (Z.leb_spec head (default 0 (lastSyncedBlocks st !! c))) as [Hle | Hlt].
  { cbn. split; lia. }
  pose proof (forEach_created bs c
                (queryFilterCreated (contract chain)
                   (default 0 (lastSyncedBlocks st !! c)) head)
                (escrowRepository st) Hc) as (Hc1 & Hg1 & Hres).
  destruct (forEach (handleEscrowCreated bs c) _ (escrowRepository st))
    as [repo1 [e|]]; cbn [fst snd] in *.
  { exfalso. destruct Hres as (ev & Hin & He).
    destruct (Hread ev Hin) as (d & Hd & [row Hrow]).
    pose proof (getEscrow_found bs c chain _ d Hl Hd) as Hget.
    destruct He as [He | (d' & He & Hnone)]; congruence. }
  destruct (forEach_funded c
              (queryFilterFunded (contract chain)
                 (default 0 (lastSyncedBlocks st !! c)) head) repo1 Hc1)
    as (repo2 & -> & Hc2 & Hg2).
  cbn [fst escrowRepository lastSyncedBlocks]. split.
  - rewrite lookup_insert_eq. cbn. lia.
  - intros _. eapply Forall_impl; [exact Hres|]. cbn.
    intros ev Hev. eapply grows_find; eassumption.
Qed.

(** X16. An error on one chain does not keep another from being indexed. For
    distinct configured chains and a consistent table: a chain whose node
    answers, and whose contract can be read for the records created since
    its cursor, each read giving a row that the columns of the table take
    (a deadline, in particular, of at most 8 640 000 000 000 seconds), ends
    the cycle with its cursor at the node's block (or where it was, when
    that is not below), and with a row for every creation event of the
    window, whatever the other chains do. *)
Theorem healthy_chain_is_indexed_whatever_the_others_do bs st c chain :
  consistent (escrowRepository st) ->
  NoDup (getSupportedChainIds bs) ->
  lookupChain bs c = Some chain ->
  healthy c chain (default 0 (lastSyncedBlocks st !! c)) ->
  let cursor := default 0 (lastSyncedBlocks st !! c) in
  let st' := syncBlockchainEvents bs st in
  exists head,
    provider_getBlockNumber chain = Some head /\
    default 0 (lastSyncedBlocks st' !! c) = Z.max cursor head /\
    (cursor < head ->
     forall ev, ev ∈ queryFilterCreated (contract chain) cursor head ->
       is_Some (Indexer.findOne (escrowRepository st') c (Number_ (ce_escrowId ev)))).
Proof.
  intros Hc Hnd Hl (head & Hhead & Hread). cbn zeta.
  exists head. split; [assumption|].
  unfold syncBlockchainEvents.
  pose proof (lookupChain_supported _ _ _ Hl) as Hin.
  apply list_elem_of_split in Hin as (l1 & l2 & Hids). rewrite Hids in *.
  apply NoDup_app in Hnd as (_ & Hl1 & [Hl2 _]%NoDup_cons).
  assert (Hnot1 : c ∉ l1) by (intros H; apply (Hl1 c H); by left).
  rewrite fold_left_app. cbn [fold_left].
  destruct (syncBlockchainEvents_step bs l1 st Hc) as (Hc1 & Hg1 & Hsame1 & _).
  set (st1 := fold_left _ l1 st) in *.
  specialize (Hsame1 c Hnot1).
  assert (Hread1 : forall ev,
            ev ∈ queryFilterCreated (contract chain)
                   (default 0 (lastSyncedBlocks st1 !! c)) head ->
            exists d,
              contract_getEscrow (contract chain) (Number_ (ce_escrowId ev)) = Some d /\
              is_Some (stored_row None (create c ev d)))
    by (rewrite Hsame1; exact Hread).
  destruct (syncChainEvents_healthy bs st1 c chain head Hc1 Hl Hhead Hread1)
    as [Hcur Hrows].
  destruct (syncChainEvents_step bs st1 c Hc1) as (Hc2 & _).
  set (st2 := fst (syncChainEvents bs st1 c)) in *.
  destruct (syncBlockchainEvents_step bs l2 st2 Hc2) as (_ & Hg3 & Hsame3 & _).
  rewrite (Hsame3 c Hl2), Hcur, Hsame1. split; [reflexivity|].
  intros Hlt ev Hev. rewrite Hsame1 in Hrows.
  specialize (Hrows Hlt). rewrite List.Forall_forall in Hrows.
  eapply grows_find; [exact Hg3|]. apply Hrows. by apply list_elem_of_In.
Qed.

Lemma healthy_chain_is_indexed_whatever_the_others_do_witness :
  getBlockNumber service2 2 = inl RpcError /\
  lastSyncedBlocks (syncBlockchainEvents service2 state5) !! 1 = Some 10 /\
  is_Some (Indexer.findOne (escrowRepository (syncBlockchainEvents service2 state5)) 1 0).
Proof.
  destruct (healthy_chain_is_indexed_whatever_the_others_do service2 state5 1 chain1)
    as (head & Hhead & Hcur & Hrows).
  - exact consistent_empty.
  - apply NoDup_cons. split; [|apply NoDup_singleton].
    intros H%list_elem_of_singleton. discriminate H.
  - reflexivity.
  - exists 10. split; [reflexivity|]. intros ev Hev.
    vm_compute in Hev. apply list_elem_of_singleton in Hev. subst ev.
    exists canonical0. split; [reflexivity|]. vm_compute. by eexists.
  - split; [reflexivity|]. split; [vm_compute; reflexivity|].
    injection Hhead as <-.
    apply (Hrows ltac:(vm_compute; reflexivity) created0).
    vm_compute. by left.
Defined.

(** The same cycle on a chain whose only creation event has a deadline that
    is no date: the node answers and the contract can be read, yet the row
    is refused, the cycle ends there for this chain and its cursor stays. *)
Example far_deadline_holds_the_cursor :
  getBlockNumber service_far 1 = inr 10 /\
  getEscrow service_far 1 (Number_ (ce_escrowId created_far)) = inr canonical_far /\
  syncChainEvents service_far (initialState service_far 5 empty_repository) 1
    = (initialState service_far 5 empty_repository, Some DataException) /\
  syncBlockchainEvents service_far (initialState service_far 5 empty_repository)
    = initialState service_far 5 empty_repository.
Proof. repeat split; vm_compute; reflexivity. Qed.

(** ** Reading the status back from the chain *)

Lemma find_map_same {A} (p : A -> bool) (g : A -> A) (l : list A) :
  (forall x, p (g x) = p x) ->
  List.find p (map g l) = g <$> List.find p l.
Proof.
  intros Hp. induction l as [|a l IH]; cbn; [reflexivity|].
  rewrite Hp. destruct (p a); [reflexivity | exact IH].
Qed.

Lemma findOne_set_status repo j st row :
  Replica.findOne repo j = inr row ->
  Replica.findOne (mkRepository (set_status_of j st (rows repo)) (nextId repo)) j
  = inr (with_status row st).
Proof.
  unfold Replica.findOne. cbn [rows]. unfold set_status_of.
  rewrite find_map_same
    by (intros r; destruct (has_id j r) eqn:Hj; exact Hj).
  destruct (List.find (has_id j) (rows repo)) as [r|] eqn:Hf; [|discriminate].
  intros [= ->]. cbn. apply List.find_some in Hf as [_ ->]. reflexivity.
Qed.

Lemma set_status_of_same repo j row :
  well_keyed repo -> row ∈ rows repo -> id row = Some j ->
  set_status_of j (status row) (rows repo) = rows repo.
Proof.
  intros Hwk Hin Hid. unfold set_status_of.
  rewrite <- (map_id (rows repo)) at 2. apply map_ext_in.
  intros r Hr%list_elem_of_In.
  destruct (has_id j r) eqn:Hj; [|reflexivity]. apply has_id_true in Hj.
  assert (r = row) as ->; [|by destruct row].
  apply (NoDup_fmap_inj _ _ _ _ (primary_key _ Hwk) Hr Hin). congruence.
Qed.

(** X17. [syncEscrowStatus] on a row of a well-keyed table, when the contract
    can be read: the row gets the status the contract reports and nothing
    else changes, so a status a late funded event had put back to FUNDED is
    corrected; doing it again changes nothing. *)
Theorem syncEscrowStatus_restores_the_chain_status bs repo j row d :
  well_keyed repo ->
  Replica.findOne repo j = inr row ->
  getEscrow bs (chainId row) (escrowId row) = inr d ->
  let row' := with_status row (data_status d) in
  let repo' := mkRepository (set_status_of j (data_status d) (rows repo)) (nextId repo) in
  syncEscrowStatus bs repo j = inr (repo', row') /\
  Replica.findOne repo' j = inr row' /\
  status row' = data_status d /\
  well_keyed repo' /\
  syncEscrowStatus bs repo' j = inr (repo', row').
Proof.
  intros Hwk Hfind Hread. cbn zeta.
  assert (Hrow : row ∈ rows repo /\ id row = Some j).
  { unfold Replica.findOne in Hfind.
    destruct (List.find (has_id j) (rows repo)) as [r|] eqn:Hf; [|discriminate].
    injection Hfind as ->. apply find_elem in Hf as [Hin Hid].
    split; [assumption | by apply has_id_true]. }
  destruct Hrow as [Hin Hid].
  pose proof (findOne_set_status repo j (data_status d) row Hfind) as Hfind'.
  assert (Hwk' : well_keyed (mkRepository (set_status_of j (data_status d) (rows repo))
                                          (nextId repo))).
  { destruct Hwk as [Hkeyed Hids Hkeys]. split; cbn [rows].
    - eapply set_status_of_Forall; [| |exact Hkeyed]; auto.
    - by rewrite set_status_of_ids.
    - by rewrite set_status_of_keys. }
  split; [|split; [exact Hfind'|split; [reflexivity|split; [exact Hwk'|]]]].
  - unfold syncEscrowStatus. rewrite Hfind, Hread.
    destruct (Z.eqb_spec (status row) (data_status d)) as [Heq | Hne]; cbn [negb].
    + rewrite <- Heq. rewrite (set_status_of_same repo j row Hwk Hin Hid).
      destruct repo, row; reflexivity.
    + by rewrite (save_existing repo row j _ Hwk Hin Hid).
  - unfold syncEscrowStatus. rewrite Hfind'.
    cbn [chainId escrowId with_status status]. rewrite Hread, Z.eqb_refl.
    reflexivity.
Qed.

Lemma syncEscrowStatus_restores_the_chain_status_witness :
  syncEscrowStatus service1 (mkRepository [with_status row0 1] 1) 0
    = inr (mkRepository [row0] 1, row0) /\
  status row0 = 3.
Proof.
  destruct (syncEscrowStatus_restores_the_chain_status service1
              (mkRepository [with_status row0 1] 1) 0%nat (with_status row0 1)
              canonical0) as (H & _).
  - split; cbn.
    + repeat constructor. by exists 0%nat.
    + repeat constructor. set_solver.
    + repeat constructor. set_solver.
  - reflexivity.
  - reflexivity.
  - split; [exact H | reflexivity].
Defined.

End ReplicaFacts.

(* ===================================================================== *)
(** * Facts about the notifications                                       *)
(* ===================================================================== *)

Module NotificationFacts.
Import Indexer Notifications.
Local Open Scope list_scope.

(** ** Letters *)

Lemma lower_ascii_idem c : lower_ascii (lower_ascii c) = lower_ascii c.
Proof. destruct c as [[] [] [] [] [] [] [] []]; reflexivity. Qed.

Lemma toLowerCase_idem s : toLowerCase (toLowerCase s) = toLowerCase s.
Proof. induction s as [|c s IH]; cbn; [reflexivity|]. by rewrite lower_ascii_idem, IH. Qed.

(** ** The last fifty *)

Lemma last_n_all {A} (n : nat) (l : list A) : (length l <= n)%nat -> last_n n l = l.
Proof. intros H. unfold last_n. by replace (length l - n)%nat with 0%nat by lia. Qed.

Lemma length_last_n {A} (n : nat) (l : list A) :
  length (last_n n l) = Nat.min n (length l).
Proof. unfold last_n. rewrite length_drop. lia. Qed.

Lemma last_n_app_last_n {A} (n : nat) (l1 l2 : list A) :
  last_n n (last_n n l1 ++ l2) = last_n n (l1 ++ l2).
Proof.
  destruct (Nat.le_gt_cases (length l1) n) as [Hle | Hgt].
  - by rewrite (last_n_all n l1).
  - unfold last_n at 1 3. rewrite !length_app, length_last_n.
    unfold last_n. rewrite !drop_app, drop_drop, length_drop.
    f_equal; f_equal; lia.
Qed.

(** What [addNotification] stores for the user. *)
Lemma capped_is_last_n (l : list Notification) n :
  (length l <= 50)%nat ->
  (if (50 <? length (l ++ [n]))%nat then tail (l ++ [n]) else l ++ [n])
  = last_n 50 (l ++ [n]).
Proof.
  intros Hl. rewrite length_app. cbn [length].
  destruct (Nat.ltb_spec 50 (length l + 1)) as [Hfull | Hroom].
  - unfold last_n. rewrite length_app. cbn [length].
    replace (length l + 1 - 50)%nat with 1%nat by lia.
    by destruct (l ++ [n]).
  - rewrite last_n_all; [reflexivity|]. rewrite length_app. cbn. lia.
Qed.

Lemma getNotifications_addNotification a a' n s :
  getNotifications a (addNotification a' n s)
  = if String.eqb (toLowerCase a') (toLowerCase a)
    then (let l := getNotifications a s ++ [n] in
          if (50 <? length l)%nat then tail l else l)
    else getNotifications a s.
Proof.
  unfold getNotifications, addNotification. cbv zeta.
  destruct (String.eqb_spec (toLowerCase a') (toLowerCase a)) as [-> | Hne].
  - by rewrite lookup_insert_eq.
  - by rewrite lookup_insert_ne.
Qed.

Lemma capped_addNotification a n s : capped s -> capped (addNotification a n s).
Proof.
  intros Hs b. rewrite getNotifications_addNotification.
  destruct (String.eqb _ _); [|apply Hs].
  cbn zeta. rewrite capped_is_last_n by apply Hs.
  rewrite length_last_n. lia.
Qed.

Lemma getNotifications_addAll msgs : forall s a,
  capped s ->
  getNotifications a (addAll msgs s)
  = last_n 50 (getNotifications a s ++ addressed_to a msgs).
Proof.
  unfold addAll, addressed_to.
  induction msgs as [|[a' n] msgs IH]; intros s a Hs; cbn [fold_left].
  - cbn. rewrite app_nil_r. symmetry. apply last_n_all, Hs.
  - rewrite IH by (by apply capped_addNotification).
    rewrite getNotifications_addNotification. cbn [fst snd List.filter].
    destruct (String.eqb (toLowerCase a') (toLowerCase a)).
    + cbn zeta. rewrite capped_is_last_n by apply Hs.
      rewrite last_n_app_last_n, <- app_assoc. reflexivity.
    + reflexivity.
Qed.

(** X18. Whatever notifications are sent, to whatever addresses and in whatever
    letter case: what the service returns for an address is the last fifty
    of those sent to it, oldest first. *)
Theorem notifications_are_the_last_fifty msgs address :
  getNotifications address (addAll msgs ∅)
  = last_n 50 (addressed_to address msgs).
Proof.
  rewrite getNotifications_addAll.
  - unfold getNotifications at 1. rewrite lookup_empty. reflexivity.
  - intros a. unfold getNotifications. rewrite lookup_empty. cbn. lia.
Qed.

(** ** The gateway *)

Lemma last_capped (l : list Notification) n :
  last (if (50 <? length (l ++ [n]))%nat then tail (l ++ [n]) else l ++ [n])
  = Some n.
Proof.
  destruct (50 <? length (l ++ [n]))%nat eqn:Hfull; [|apply last_snoc].
  apply Nat.ltb_lt in Hfull.
  destruct l as [|x l]; [cbn in Hfull; lia|]. cbn [app tail]. apply last_snoc.
Qed.

(** X19. A notification sent while nobody is subscribed to the address is not
    lost: it is emitted to nobody, stored, and the next socket that
    subscribes to the address, in whatever letter case, is sent the stored
    notifications with that one last. *)
Theorem backlog_reaches_a_later_subscriber g address address' notification client :
  toLowerCase address = toLowerCase address' ->
  clients_get (toLowerCase address) (connectedClients g) = None ->
  let g1 := sendNotification address notification g in
  let g2 := handleSubscribe client address' g1 in
  sent g1 = sent g /\
  exists backlog,
    sent g2 = sent g ++ [EmitNotifications client backlog] /\
    last backlog = Some notification /\
    (capped (notificationService g) -> (length backlog <= 50)%nat) /\
    clients_get (toLowerCase address) (connectedClients g2) = Some client.
Proof.
  intros Hsame Hnone. cbn zeta.
  unfold sendNotification, handleSubscribe. cbn [sent notificationService connectedClients].
  rewrite Hnone. split; [reflexivity|].
  eexists. split; [reflexivity|].
  rewrite <- Hsame, getNotifications_addNotification, !toLowerCase_idem.
  rewrite String.eqb_refl. cbn zeta. split; [apply last_capped|]. split.
  - intros Hc. rewrite capped_is_last_n by apply Hc. rewrite length_last_n. lia.
  - unfold clients_set, clients_get in *.
    destruct (List.find _ (connectedClients g)) as [p|] eqn:Hf; [discriminate|].
    pose proof (IndexerFacts.find_none_forall _ _ Hf) as Hall.
    rewrite (IndexerFacts.existsb_none _ _ Hall).
    rewrite (IndexerFacts.find_app_none _ _ _ Hall). cbn.
    rewrite String.eqb_refl. reflexivity.
Qed.

Lemma backlog_reaches_a_later_subscriber_witness :
  exists backlog,
    sent (handleSubscribe (mkSocket "s1") "0xALICE"
            (sendNotification "0xAlice" (note 7) (mkGateway [] ∅ [])))
    = [EmitNotifications (mkSocket "s1") backlog] /\
    last backlog = Some (note 7).
Proof.
  destruct (backlog_reaches_a_later_subscriber (mkGateway [] ∅ []) "0xAlice" "0xALICE"
              (note 7) (mkSocket "s1")) as (_ & backlog & Hsent & Hlast & _).
  - reflexivity.
  - reflexivity.
  - exists backlog. split; [exact Hsent | exact Hlast].
Defined.

Lemma subscriptions_of_remove_first client m :
  subscriptions_of client (remove_first_of client m) = tail (subscriptions_of client m) /\
  subscriptions_of_others client (remove_first_of client m)
  = subscriptions_of_others client m.
Proof.
  unfold subscriptions_of, subscriptions_of_others.
  induction m as [|[a s] m [IH1 IH2]]; [split; reflexivity|].
  cbn [remove_first_of List.filter snd].
  destruct (String.eqb (socket_id s) (socket_id client)) eqn:Hs; cbn [negb tail].
  - split; reflexivity.
  - cbn [List.filter snd]. rewrite Hs. cbn [negb]. rewrite IH1, IH2. split; reflexivity.
Qed.

(** X20. A disconnect removes one subscription of the socket, the oldest entry
    of the map that holds it, and no other: a socket that had subscribed to
    several addresses stays registered for the others, and what is sent to
    those is still emitted to it. *)
Theorem disconnect_drops_only_the_first_subscription client g :
  let g' := handleDisconnect client g in
  subscriptions_of client (connectedClients g')
    = tail (subscriptions_of client (connectedClients g)) /\
  subscriptions_of_others client (connectedClients g')
    = subscriptions_of_others client (connectedClients g) /\
  notificationService g' = notificationService g /\
  sent g' = sent g.
Proof.
  cbn zeta. unfold handleDisconnect. cbn [connectedClients notificationService sent].
  destruct (subscriptions_of_remove_first client (connectedClients g)) as [H1 H2].
  split; [exact H1|]. split; [exact H2|]. split; reflexivity.
Qed.

(** A socket subscribes to two addresses and disconnects; a notification
    for the second address is then still emitted to it. *)
Example stale_subscription :
  let s1 := mkSocket "s1" in
  let g := handleDisconnect s1
             (handleSubscribe s1 "0xBob" (handleSubscribe s1 "0xAlice"
                (mkGateway [] ∅ []))) in
  connectedClients g = [("0xbob", s1)] /\
  sent (sendNotification "0xBob" (note 7) g)
  = sent g ++ [EmitNotification s1 (note 7)].
Proof. vm_compute. split; reflexivity. Qed.

End NotificationFacts.

(* ===================================================================== *)
(** * Facts about the disputes off the chain                              *)
(* ===================================================================== *)

Module DisputeFacts.
Import Indexer Disputes.
Local Open Scope list_scope.





(** X22. Opening a dispute does not close the door behind it: the escrow's row
    is not touched, so the same call goes through again and the escrow then
    has two open disputes, under different keys. *)
Theorem disputes_are_not_deduplicated escrows repo i opener_ reason_ repo1 d1 :
  create escrows repo i opener_ reason_ = inr (repo1, d1) ->
  exists repo2 d2,
    create escrows repo1 i opener_ reason_ = inr (repo2, d2) /\
    dispute_id d1 = Some (nextDisputeId repo) /\
    dispute_id d2 = Some (S (nextDisputeId repo)) /\
    dispute_status d1 = OPEN /\ dispute_status d2 = OPEN /\
    disputes repo2 = disputes repo ++ [d1; d2] /\
    length (open_disputes_of repo2 i) = S (S (length (open_disputes_of repo i))).
Proof.
  unfold create.
  destruct (Replica.findOne escrows i) as [e | escrow]; [discriminate|].
  destruct (negb (status escrow =? 1)); [discriminate|].
  cbn zeta. destruct (_ && _); [discriminate|].
  unfold save at 1. cbn [dispute_id]. intros [= <- <-].
  unfold save. cbn [dispute_id disputes nextDisputeId].
  eexists _, _. split; [reflexivity|]. cbn [dispute_id with_dispute_id dispute_status disputes].
  split; [reflexivity|]. split; [reflexivity|]. split; [reflexivity|].
  split; [reflexivity|]. split; [by rewrite <- app_assoc|].
  unfold open_disputes_of. cbn [disputes].
  rewrite !List.filter_app, !length_app. cbn [List.filter dispute_escrowId dispute_status].
  rewrite !Nat.eqb_refl. cbn. lia.
Qed.

Lemma disputes_are_not_deduplicated_witness :
  exists repo2 d2,
    create escrows1
      (mkDisputeRepository
         [mkDispute (Some 0%nat) 0 "0xalice" "late" OPEN None None None None] 1)
      0 "0xAlice" "late" = inr (repo2, d2) /\
    dispute_id d2 = Some 1%nat.
Proof.
  destruct (disputes_are_not_deduplicated escrows1 no_disputes 0%nat "0xAlice" "late"
              (mkDisputeRepository
                 [mkDispute (Some 0%nat) 0 "0xalice" "late" OPEN None None None None] 1)
              (mkDispute (Some 0%nat) 0 "0xalice" "late" OPEN None None None None))
    as (repo2 & d2 & H1 & _ & H2 & _).
  - vm_compute. reflexivity.
  - exists repo2, d2. split; [exact H1 | exact H2].
Defined.

End DisputeFacts.

(* ===================================================================== *)
(** * Facts about the pages of the client                                 *)
(* ===================================================================== *)

Module ClientFacts.
Import Ledger LedgerFacts Client.
Local Open Scope list_scope.

(** X23. The pages label a status code by a table of their own, which agrees
    with the contract on CREATED and FUNDED only: a disputed escrow is shown
    as released, a released one as refunded, a refunded one as disputed and
    a cancelled one as resolved; the message under the actions follows the
    same table. *)
Theorem status_labels_differ_from_the_contract st :
  (STATUS_MAP (status_code st) = Some (status_name st) <->
   st = CREATED \/ st = FUNDED) /\
  STATUS_MAP (status_code DISPUTED) = Some (status_name RELEASED) /\
  STATUS_MAP (status_code RELEASED) = Some (status_name REFUNDED) /\
  STATUS_MAP (status_code REFUNDED) = Some (status_name DISPUTED) /\
  STATUS_MAP (status_code CANCELLED) = Some "Resolved" /\
  status_message (status_code DISPUTED)
    = Some "Funds have been released to the provider." /\
  status_message (status_code RELEASED)
    = Some "Funds have been refunded to the client." /\
  status_message (status_code REFUNDED) = None.
Proof.
  split; [|repeat split; reflexivity].
  destruct st; cbn; split; intros H; try discriminate H; auto;
    destruct H as [H | H]; discriminate H.
Qed.

(** X24. Of the functions the client can encode a call for, the contract
    answers to fundEscrow, releaseToProvider, refundToClient and getEscrow;
    createEscrow, openDispute and resolveDispute are encoded for other
    parameter lists than the contract declares, so no button that calls one
    of them reaches a function of the contract. *)
Theorem client_abi_against_the_contract f :
  f ∈ ESCROW_ABI ->
  dispatches f = true <->
  fst f = "fundEscrow" \/ fst f = "releaseToProvider" \/ fst f = "refundToClient"
  \/ fst f = "getEscrow".
Proof.
  intros Hin. unfold ESCROW_ABI in Hin.
  repeat (apply elem_of_cons in Hin as [-> | Hin]);
    [ .. | by apply elem_of_nil in Hin ];
    (split; [vm_compute; intros H; try discriminate H; tauto
            | intros [H | [H | [H | H]]]; try discriminate H; vm_compute; reflexivity]).
Qed.

Lemma client_abi_against_the_contract_witness :
  abi_entry (functionName OpenDisputeButton) = Some ("openDispute", ["uint256"; "string"]) /\
  dispatches ("openDispute", ["uint256"; "string"]) = false /\
  dispatches ("fundEscrow", ["uint256"]) = true.
Proof.
  split; [reflexivity|]. split.
  - destruct (dispatches ("openDispute", ["uint256"; "string"])) eqn:Hd; [|reflexivity].
    apply (client_abi_against_the_contract ("openDispute", ["uint256"; "string"])) in Hd.
    + destruct Hd as [H | [H | [H | H]]]; discriminate H.
    + vm_compute. set_solver.
  - apply (client_abi_against_the_contract ("fundEscrow", ["uint256"])).
    + vm_compute. set_solver.
    + left. reflexivity.
Defined.

(** X25. The page offers "Refund Client" to the provider of a funded escrow and
    to nobody else; the contract lets only an arbitrator refund. A provider
    who follows the button, not being the record's arbitrator nor a
    registered one, is refused and nothing changes. *)
Theorem the_refund_button_is_refused address row env w ctx i :
  let e := escrowAt (storage w) i in
  (RefundClient ∈ actions address row <->
   isProvider address row = true /\ Indexer.status row = status_code FUNDED) /\
  (client e <> 0 ->
   _entered (storage w) = false ->
   msg_sender ctx = provider e ->
   may_arbitrate (storage w) i (msg_sender ctx) = false ->
   msg_value ctx = 0 ->
   transact false env w ctx (refundToClient ctx i)
     = (w, Reverted (Error_ "Not an authorized arbitrator"))).
Proof.
  cbn zeta. split.
  - unfold actions. rewrite !elem_of_app.
    destruct (isClient address row), (isProvider address row),
      (Z.eqb_spec (Indexer.status row) 0), (Z.eqb_spec (Indexer.status row) 1);
      cbn; rewrite ?elem_of_cons, ?elem_of_nil; split; intros H;
      repeat match goal with
      | H : _ \/ _ |- _ => destruct H as [H | H]
      | H : _ /\ _ |- _ => destruct H
      end; try discriminate; try contradiction; try lia; auto 10.
  - intros Hex Hg _ Harb Hv. unfold may_arbitrate in Harb.
    apply transact_revert; [|by left|by right].
    unfold_contract. exec. rewrite Hg. exec.
    rewrite (proj2 (Z.eqb_neq _ _) Hex). exec. rewrite Harb. reflexivity.
Qed.

Lemma the_refund_button_is_refused_witness :
  transact false everyone w_funded (by_ provider_ 0)
           (refundToClient (by_ provider_ 0) 0)
  = (w_funded, Reverted (Error_ "Not an authorized arbitrator")).
Proof.
  destruct (the_refund_button_is_refused None Indexer.row0 everyone w_funded
              (by_ provider_ 0) 0) as [_ H].
  apply H.
  - vm_compute. discriminate.
  - vm_compute. reflexivity.
  - vm_compute. reflexivity.
  - vm_compute. reflexivity.
  - reflexivity.
Defined.

End ClientFacts.
